(** * prefect.utilities.collections: a shallow embedding

    The Python module [src/prefect/utilities/collections.py] is embedded
    function by function: [dict_to_flatdict] / [flatdict_to_dict] over nested
    mappings, [batched_iterable] over an iterator, and [visit_collection]
    over a universe of Python values with an explicit store for iterators,
    explicit passing of the [context] dictionary and of the state the
    visitor closes over, and an outcome type for raised exceptions. *)

From Stdlib Require Import ZArith List String Bool Lia.
From stdpp Require Import gmap strings list.

Import ListNotations.
Set Warnings "-register-all".
Open Scope Z_scope.
Open Scope string_scope.

(** ** Exceptions and outcomes *)

(** A raised Python exception: the name of its class and its message. *)
Record exn := Exn { exn_type : string; exn_msg : string }.

#[global] Instance exn_eq_dec : EqDecision exn.
Proof. solve_decision. Defined.

(** What a call of a function without recursion does: it returns or it
    raises. *)
Inductive res (A : Type) : Type :=
| Ok (a : A)
| Err (e : exn).

Arguments Ok {A} a.
Arguments Err {A} e.

(** What a call does in general: it returns, it raises, or the model ran
    out of fuel (the recursion of [visit_collection] follows what the
    visitor returns and is not structural). *)
Inductive outcome (A : Type) : Type :=
| Ret (a : A)
| Raise (e : exn)
| OutOfFuel.

Arguments Ret {A} a.
Arguments Raise {A} e.
Arguments OutOfFuel {A}.

(** ** The universe of Python values *)

(** [fields(cls)] of a dataclass: the names of its fields, in order. *)
Record dataclass_type := DataclassType {
  dc_name : string;
  dc_fields : list string
}.

(** One entry of [cls.__fields__] of a pydantic model: the [ModelField]
    with its [alias] and [has_alias] attributes. *)
Record model_field := ModelField {
  mf_name : string;
  mf_alias : string;
  mf_has_alias : bool
}.

(** A pydantic model class: [__fields__] in declaration order and the
    names of [__private_attributes__]. *)
Record model_type := ModelType {
  mt_name : string;
  mt_fields : list model_field;
  mt_private : list string
}.

#[global] Instance dataclass_type_eq_dec : EqDecision dataclass_type.
Proof. solve_decision. Defined.
#[global] Instance model_field_eq_dec : EqDecision model_field.
Proof. solve_decision. Defined.
#[global] Instance model_type_eq_dec : EqDecision model_type.
Proof. solve_decision. Defined.

(** The two mapping types [visit_collection] rebuilds. *)
Inductive dict_kind := KDict | KOrderedDict.

#[global] Instance dict_kind_eq_dec : EqDecision dict_kind.
Proof. solve_decision. Defined.

(** Python values.  A list, tuple or set carries its elements in iteration
    order; a dict carries its items in insertion order; an iterator is a
    reference into the store of the state (it is consumed by iterating);
    a dataclass instance carries its class and its attributes; a pydantic
    model carries its class, [__fields_set__], its attributes and its
    private attributes.  [VOther] stands for any object of another type
    (a class object, an instance of a subclass of list or dict, ...). *)
Inductive value : Type :=
| VNone
| VInt (n : Z)
| VStr (s : string)
| VOther (name : string)
| VMock (id : nat)
| VIter (id : nat)
| VList (items : list value)
| VTuple (items : list value)
| VSet (items : list value)
| VDict (kind : dict_kind) (items : list (value * value))
| VData (cls : dataclass_type) (attrs : list (string * value))
| VModel (cls : model_type) (fields_set : list string)
         (attrs : list (string * value)) (private : list (string * value))
| VRevisit (payload : value)
| VAnnot (kind : string) (payload : value).

Fixpoint value_eq_dec (a b : value) {struct a} : {a = b} + {a <> b}.
Proof.
  decide equality;
    try (apply Z.eq_dec); try (apply string_dec); try (apply Nat.eq_dec);
    try (apply dict_kind_eq_dec); try (apply dataclass_type_eq_dec);
    try (apply model_type_eq_dec);
    try (apply (List.list_eq_dec string_dec));
    try (apply (List.list_eq_dec value_eq_dec)).
  - apply List.list_eq_dec. intros [k1 v1] [k2 v2].
    destruct (value_eq_dec k1 k2); [|right; congruence].
    destruct (value_eq_dec v1 v2); [left|right]; congruence.
  - apply List.list_eq_dec. intros [k1 v1] [k2 v2].
    destruct (string_dec k1 k2); [|right; congruence].
    destruct (value_eq_dec v1 v2); [left|right]; congruence.
  - apply List.list_eq_dec. intros [k1 v1] [k2 v2].
    destruct (string_dec k1 k2); [|right; congruence].
    destruct (value_eq_dec v1 v2); [left|right]; congruence.
  - apply List.list_eq_dec. intros [k1 v1] [k2 v2].
    destruct (string_dec k1 k2); [|right; congruence].
    destruct (value_eq_dec v1 v2); [left|right]; congruence.
Defined.

#[global] Instance value_eq_decision : EqDecision value := value_eq_dec.

(** ** Python dictionaries and sets as lists *)

Section Dicts.
Context {K V : Type} `{EqDecision K}.

(** [d.get(k)]. *)
Fixpoint dict_get (k : K) (d : list (K * V)) : option V :=
  match d with
  | [] => None
  | (k', v) :: d' => if decide (k' = k) then Some v else dict_get k d'
  end.

(** [d[k] = v]: an existing key keeps its place, a new key goes last. *)
Fixpoint dict_set (k : K) (v : V) (d : list (K * V)) : list (K * V) :=
  match d with
  | [] => [(k, v)]
  | (k', v') :: d' =>
      if decide (k' = k) then (k', v) :: d' else (k', v') :: dict_set k v d'
  end.

(** [dict(items)], [OrderedDict(items)] and a dict comprehension. *)
Definition dict_of_items (items : list (K * V)) : list (K * V) :=
  fold_left (fun d kv => dict_set (fst kv) (snd kv) d) items [].
End Dicts.

Section Sets.
Context {A : Type} `{EqDecision A}.

(** The elements of [items] not in [seen], each once, first occurrence
    first. *)
Fixpoint uniq_from (seen items : list A) : list A :=
  match items with
  | [] => []
  | x :: items' =>
      if decide (x ∈ seen) then uniq_from seen items'
      else x :: uniq_from (x :: seen) items'
  end.

(** [set(items)]: the list is the iteration order of the new set, which
    is taken to be the order of first insertion. *)
Definition set_of_items (items : list A) : list A := uniq_from [] items.

(** [a.union(b)] on sets. *)
Definition set_union (a b : list A) : list A := set_of_items (a ++ b).
End Sets.

(** ** State, visitor and the monad of [visit_collection] *)

(** The [context] dictionary. *)
Abbreviation context := (gmap string value).

(** The mutable world of a call: the iterators (each with the items it has
    still to yield) and the state [W] that the visitor closes over. *)
Record state (W : Type) := State {
  iters : gmap nat (list value);
  world : W
}.
Arguments State {W} iters world.
Arguments iters {W} s.
Arguments world {W} s.

(** [visit_fn], a Python callable.  [call1] is the call [visit_fn(expr)],
    [call2] the call [visit_fn(expr, context)], which may mutate the
    dictionary it receives: it returns the dictionary's new content. *)
Record visitor (W : Type) := Visitor {
  call1 : value -> W -> res (value * W);
  call2 : value -> context -> W -> res (value * context * W)
}.
Arguments Visitor {W} call1 call2.
Arguments call1 {W} v expr w.
Arguments call2 {W} v expr ctx w.

Definition M (W A : Type) : Type := state W -> outcome (A * state W).

Definition ret {W A} (a : A) : M W A := fun s => Ret (a, s).

Definition bind {W A B} (m : M W A) (k : A -> M W B) : M W B :=
  fun s =>
    match m s with
    | Ret (a, s') => k a s'
    | Raise e => Raise e
    | OutOfFuel => OutOfFuel
    end.

Notation "'let*' x ':=' m 'in' k" := (bind m (fun x => k))
  (at level 10, x pattern, m at level 100, k at level 200).

(** A list comprehension [[f(o) for o in items]] over a list. *)
Fixpoint for_each {W A B} (f : A -> M W B) (items : list A) : M W (list B) :=
  match items with
  | [] => ret []
  | o :: items' =>
      let* r := f o in
      let* rs := for_each f items' in
      ret (r :: rs)
  end.

(** [next(it)]: the next item of iterator [id], or [None] for
    [StopIteration]. *)
Definition next_item {W} (id : nat) (s : state W) : option (value * state W) :=
  match iters s !! id with
  | Some (o :: rest) => Some (o, State (<[id := rest]> (iters s)) (world s))
  | _ => None
  end.

(** A list comprehension [[f(o) for o in it]] over an iterator: [f] runs
    between two calls of [next] and may advance the same iterator. *)
Fixpoint for_each_iter {W B} (fuel : nat) (f : value -> M W B) (id : nat)
    : M W (list B) :=
  match fuel with
  | O => fun _ => OutOfFuel
  | S fuel' => fun s =>
      match next_item id s with
      | None => Ret ([], s)
      | Some (o, s1) =>
          (let* r := f o in
           let* rs := for_each_iter fuel' f id in
           ret (r :: rs)) s1
      end
  end.

(** The outcome of a call that returns or raises. *)
Definition lift {W A} (r : res A) : M W A :=
  fun s =>
    match r with
    | Ok a => Ret (a, s)
    | Err e => Raise e
    end.

(** [getattr(expr, name)] on the attributes of an instance. *)
Definition getattr (attrs : list (string * value)) (name : string)
    : res value :=
  match dict_get name attrs with
  | Some v => Ok v
  | None => Err (Exn "AttributeError" name)
  end.

(** ** [visit_collection] *)

(** Modelled from the spec: [prefect.utilities.annotations] is not among the
    sources.  An annotation wraps exactly one value; [unwrap] gives the
    wrapped value and [rewrap] builds an annotation of the same kind around
    a new value.  [revisit] is the annotation that the spec calls the
    resume signal. *)
Definition is_revisit (v : value) : bool :=
  match v with VRevisit _ => true | _ => false end.

Definition rewrap (kind : string) (v : value) : value := VAnnot kind v.

Section Visit.
Context {W : Type}.

(** The constructors of the record classes are Python code outside the
    module: [dataclass_new cls kwargs] is the call of dataclass [cls] with
    the keyword arguments [kwargs] and gives the attributes of the new
    instance, [model_new cls kwargs] is the call of a pydantic model and
    gives
    [__fields_set__], the attributes and the private attributes of the
    new instance.  Either may raise. *)
Variable dataclass_new :
  dataclass_type -> list (string * value) -> res (list (string * value)).
Variable model_new :
  model_type -> list (string * value) ->
  res (list string * list (string * value) * list (string * value)).

Variable visit_fn : visitor W.

(** Lines 264-268. *)
Definition visit_expression (ctx : option context) (expr : value)
    : M W (value * option context) :=
  fun s =>
    match ctx with
    | Some c =>
        match call2 visit_fn expr c (world s) with
        | Ok (r, c', w) => Ret ((r, Some c'), State (iters s) w)
        | Err e => Raise e
        end
    | None =>
        match call1 visit_fn expr (world s) with
        | Ok (r, w) => Ret ((r, None), State (iters s) w)
        | Err e => Raise e
        end
    end.

(** Lines 273-276: the expression whose children are visited. *)
Definition basis (return_data : bool) (expr result : value) : value :=
  if return_data || is_revisit result then result else expr.

(** Line 311: [expr.__fields_set__.union(expr.__fields__)]. *)
Definition model_fields (cls : model_type) (fields_set : list string)
    : list string :=
  set_union fields_set (map mf_name (mt_fields cls)).

(** Lines 316-320. *)
Definition aliases (cls : model_type) : list (string * string) :=
  dict_of_items
    (map (fun f => (mf_name f, mf_alias f))
         (filter (fun f => mf_has_alias f = true) (mt_fields cls))).

(** Line 324: [aliases.get(key) or key]. *)
Definition keyword (cls : model_type) (key : string) : string :=
  match dict_get key (aliases cls) with
  | Some a => if decide (a = "") then key else a
  | None => key
  end.

(** Lines 332-334: the private attributes of [expr] are set on the new
    instance. *)
Fixpoint restore_private (names : list string)
    (old new : list (string * value)) : res (list (string * value)) :=
  match names with
  | [] => Ok new
  | attr :: names' =>
      match getattr old attr with
      | Ok v => restore_private names' old (dict_set attr v new)
      | Err e => Err e
      end
  end.

(** Lines 284-348: the children of [expr] are visited by [visit_nested]
    and the result is built.  [result] is what [visit_fn] returned. *)
Definition visit_items (fuel : nat) (visit_nested : value -> M W value)
    (return_data : bool) (expr result : value) : M W value :=
  match expr with
  | VMock _ => ret expr
  | VIter id =>
      let* items := for_each_iter fuel visit_nested id in
      ret (if return_data then VList items else VNone)
  | VList l =>
      let* items := for_each visit_nested l in
      ret (if return_data then VList items else VNone)
  | VTuple l =>
      let* items := for_each visit_nested l in
      ret (if return_data then VTuple items else VNone)
  | VSet l =>
      let* items := for_each visit_nested l in
      ret (if return_data then VSet (set_of_items items) else VNone)
  | VDict kind kvs =>
      let* items :=
        for_each (fun kv =>
                    let* k := visit_nested (fst kv) in
                    let* v := visit_nested (snd kv) in
                    ret (k, v)) kvs in
      ret (if return_data then VDict kind (dict_of_items items) else VNone)
  | VData cls attrs =>
      let* values :=
        for_each (fun f => let* a := lift (getattr attrs f) in
                           visit_nested a)
                 (dc_fields cls) in
      let items := dict_of_items (zip (dc_fields cls) values) in
      if return_data then
        let* attrs' := lift (dataclass_new cls items) in
        ret (VData cls attrs')
      else ret VNone
  | VModel cls fields_set attrs private =>
      let fs := model_fields cls fields_set in
      let* items :=
        for_each (fun key => let* a := lift (getattr attrs key) in
                             visit_nested a)
                 fs in
      if return_data then
        let kwargs :=
          dict_of_items
            (map (fun kv => (keyword cls (fst kv), snd kv)) (zip fs items)) in
        let* inst := lift (model_new cls kwargs) in
        let* private' :=
          lift (restore_private (mt_private cls) private (snd inst)) in
        ret (VModel cls (fst (fst inst)) (snd (fst inst)) private')
      else ret VNone
  | VRevisit payload => visit_nested payload
  | VAnnot kind payload =>
      let* r := visit_nested payload in
      ret (rewrap kind r)
  | _ => ret (if return_data then result else VNone)
  end.

(** Lines 209-350.  A call returns its result together with the final
    content of the [context] dictionary it was given; a nested call
    works on a copy, whose final content is dropped (line 261). *)
Fixpoint visit_collection (fuel : nat) (expr : value) (return_data : bool)
    (max_depth : Z) (ctx : option context) : M W (value * option context) :=
  match fuel with
  | O => fun _ => OutOfFuel
  | S fuel' =>
      let* rc := visit_expression ctx expr in
      let result := fst rc in
      let ctx' := snd rc in
      let expr := basis return_data expr result in
      if (max_depth =? 0)%Z then
        ret (if return_data then result else VNone, ctx')
      else
        let visit_nested := fun o =>
          let* r := visit_collection fuel' o return_data (max_depth - 1) ctx'
          in ret (fst r) in
        let* result :=
          visit_items (S fuel') visit_nested return_data expr result in
        ret (result, ctx')
  end.
End Visit.

(** ** Visitors, constructors and predicates of the statements *)

(** A visitor without side effects: [lambda expr: f(expr)], which also
    accepts (and leaves alone) a context. *)
Definition pure_visitor {W} (f : value -> value) : visitor W :=
  Visitor (fun expr w => Ok (f expr, w)) (fun expr c w => Ok (f expr, c, w)).

(** A visitor that appends every expression it is called with to a list
    and returns [f(expr)]. *)
Definition recording_visitor (f : value -> value) : visitor (list value) :=
  Visitor (fun expr w => Ok (f expr, (w ++ [expr])%list))
          (fun expr c w => Ok (f expr, c, (w ++ [expr])%list)).

(** The visitor
    [def visit_fn(expr, context):
         observed.append(context["count"]); context["count"] += 1;
         return expr]. *)
Definition counting_visitor : visitor (list Z) :=
  Visitor
    (fun _ _ => Err (Exn "TypeError" "missing argument: context"))
    (fun expr c w =>
       match c !! "count" with
       | Some (VInt n) =>
           Ok (expr, <["count" := VInt (n + 1)]> c, (w ++ [n])%list)
       | Some _ => Err (Exn "TypeError" "unsupported operand")
       | None => Err (Exn "KeyError" "count")
       end).

(** A value that is no collection for [visit_collection]. *)
Definition is_atom (v : value) : bool :=
  match v with
  | VNone | VInt _ | VStr _ | VOther _ => true
  | _ => false
  end.

(** As [counting_visitor], but only on expressions that are no
    collection. *)
Definition counting_atoms_visitor : visitor (list Z) :=
  Visitor
    (fun _ _ => Err (Exn "TypeError" "missing argument: context"))
    (fun expr c w =>
       if is_atom expr then call2 counting_visitor expr c w
       else Ok (expr, c, w)).

(** [lambda x: x + 1 if isinstance(x, int) else x]. *)
Definition add1 (v : value) : value :=
  match v with VInt n => VInt (n + 1) | _ => v end.


(** The [__init__] that [@dataclass] generates for a class whose fields
    all take part in it: a keyword that is no field and a field without
    keyword are [TypeError]s. *)
Definition dataclass_init (cls : dataclass_type)
    (kwargs : list (string * value)) : res (list (string * value)) :=
  match find (fun kv => bool_decide (fst kv ∉ dc_fields cls)) kwargs with
  | Some kv =>
      Err (Exn "TypeError" ("unexpected keyword argument " ++ fst kv))
  | None =>
      (fix go (fs : list string) : res (list (string * value)) :=
         match fs with
         | [] => Ok []
         | f :: fs' =>
             match dict_get f kwargs with
             | None =>
                 Err (Exn "TypeError" ("missing required argument " ++ f))
             | Some v =>
                 match go fs' with
                 | Ok l => Ok ((f, v) :: l)
                 | Err e => Err e
                 end
             end
         end) (dc_fields cls)
  end.

(** A dataclass [Scaled] with a pseudo-field [scale: InitVar[int]], which
    its [__init__] requires and [fields()] does not list; the other
    classes are as in [dataclass_init]. *)
Definition dataclass_init_scaled (cls : dataclass_type)
    (kwargs : list (string * value)) : res (list (string * value)) :=
  if decide (dc_name cls = "Scaled") then
    match dict_get "scale" kwargs with
    | None =>
        Err (Exn "TypeError"
               "__init__() missing 1 required positional argument: 'scale'")
    | Some _ => dataclass_init cls (filter (fun kv => fst kv <> "scale") kwargs)
    end
  else dataclass_init cls kwargs.

(** The keyword under which a pydantic model reads a field. *)
Definition field_key (f : model_field) : string :=
  if mf_has_alias f then mf_alias f else mf_name f.

(** The constructor of a pydantic model with the default configuration:
    every field is read under its alias, a field with a keyword is in
    [__fields_set__], a field without keyword is taken to be required,
    other keywords are ignored, and the new instance has no private
    attribute set. *)
Definition pydantic_init (cls : model_type) (kwargs : list (string * value))
    : res (list string * list (string * value) * list (string * value)) :=
  (fix go (fs : list model_field)
     : res (list string * list (string * value) * list (string * value)) :=
     match fs with
     | [] => Ok ([], [], [])
     | f :: fs' =>
         match dict_get (field_key f) kwargs with
         | None => Err (Exn "ValidationError" (mf_name f ++ ": field required"))
         | Some v =>
             match go fs' with
             | Ok (set, attrs, private) =>
                 Ok (mf_name f :: set, (mf_name f, v) :: attrs, private)
             | Err e => Err e
             end
         end
     end) (mt_fields cls).

(** What [visit_collection(x, identity, return_data=True)] builds from [x]
    when the classes of the records store what they are called with: [x]
    without its [revisit] wrappers (lines 340-342 put the result of the
    visit of the wrapped value in the place of the wrapper), and with all
    the traversed fields in the [__fields_set__] of every pydantic model
    (line 322 passes a keyword for every traversed field). *)
Fixpoint rebuilt (v : value) : value :=
  match v with
  | VList l => VList (map rebuilt l)
  | VTuple l => VTuple (map rebuilt l)
  | VSet l => VSet (map rebuilt l)
  | VDict kind kvs =>
      VDict kind (map (fun kv => (rebuilt (fst kv), rebuilt (snd kv))) kvs)
  | VData cls attrs =>
      VData cls (map (fun kv => (fst kv, rebuilt (snd kv))) attrs)
  | VModel cls fields_set attrs private =>
      VModel cls (model_fields cls fields_set)
        (map (fun kv => (fst kv, rebuilt (snd kv))) attrs) private
  | VRevisit x => rebuilt x
  | VAnnot kind x => VAnnot kind (rebuilt x)
  | _ => v
  end.

(** [v] holds no [revisit], and every pydantic model in it has all the
    traversed fields in [__fields_set__] already. *)
Fixpoint settled (v : value) : bool :=
  match v with
  | VRevisit _ => false
  | VList l | VTuple l | VSet l => forallb settled l
  | VDict _ kvs => forallb (fun kv => settled (fst kv) && settled (snd kv)) kvs
  | VData _ attrs => forallb (fun kv => settled (snd kv)) attrs
  | VModel cls fields_set attrs _ =>
      bool_decide (model_fields cls fields_set = fields_set)
      && forallb (fun kv => settled (snd kv)) attrs
  | VAnnot _ x => settled x
  | _ => true
  end.

(** The values on which [visit_collection] on the expression [v] makes its
    nested calls, in the order of the calls (lines 294, 299, 303, 312, 342
    and 345); [None] for an iterator, whose items are in the store, and
    for an instance that lacks an attribute for one of its fields. *)
Definition children (v : value) : option (list value) :=
  match v with
  | VList l | VTuple l | VSet l => Some l
  | VDict _ kvs => Some (flat_map (fun kv => [fst kv; snd kv]) kvs)
  | VData cls attrs => mapM (fun f => dict_get f attrs) (dc_fields cls)
  | VModel cls fields_set attrs _ =>
      mapM (fun f => dict_get f attrs) (model_fields cls fields_set)
  | VRevisit x | VAnnot _ x => Some [x]
  | VIter _ => None
  | _ => Some []
  end.

Section Predicates.
Variable dataclass_new :
  dataclass_type -> list (string * value) -> res (list (string * value)).
Variable model_new :
  model_type -> list (string * value) ->
  res (list string * list (string * value) * list (string * value)).

(** The values of the identity theorem: built from atoms, mocks,
    lists, tuples, sets, dicts, dataclass and pydantic instances,
    annotations and [revisit].  The elements of a set and the keys of a
    dict stay distinct when they are rebuilt.  The attributes of an
    instance are its fields, in the order of the traversal, and its class
    stores what it is called with: a dataclass called with a keyword for
    each of its fields gives the instance with these attributes; a
    pydantic model called with the keywords of the traversed fields gives
    the instance with these fields, all in [__fields_set__], on which the
    loop of lines 332-334 sets the private attributes of the original.
    These are conditions on the classes, for any values of the fields. *)
Inductive plain : value -> Prop :=
| plain_atom v : is_atom v = true -> plain v
| plain_mock id : plain (VMock id)
| plain_list l : Forall plain l -> plain (VList l)
| plain_tuple l : Forall plain l -> plain (VTuple l)
| plain_set l : NoDup (map rebuilt l) -> Forall plain l -> plain (VSet l)
| plain_dict kind kvs :
    NoDup (map (fun kv => rebuilt (fst kv)) kvs) ->
    Forall (fun kv => plain (fst kv) /\ plain (snd kv)) kvs ->
    plain (VDict kind kvs)
| plain_data cls attrs :
    NoDup (dc_fields cls) ->
    map fst attrs = dc_fields cls ->
    Forall (fun kv => plain (snd kv)) attrs ->
    (forall kwargs,
       map fst kwargs = dc_fields cls -> dataclass_new cls kwargs = Ok kwargs) ->
    plain (VData cls attrs)
| plain_model cls fields_set attrs private :
    map fst attrs = model_fields cls fields_set ->
    Forall (fun kv => plain (snd kv)) attrs ->
    (forall values,
       length values = length attrs ->
       exists private0,
         model_new cls
           (dict_of_items
              (map (fun kv => (keyword cls (fst kv), snd kv))
                   (zip (model_fields cls fields_set) values)))
         = Ok (model_fields cls fields_set,
               zip (model_fields cls fields_set) values, private0)
         /\ restore_private (mt_private cls) private private0 = Ok private) ->
    plain (VModel cls fields_set attrs private)
| plain_revisit v : plain v -> plain (VRevisit v)
| plain_annot kind v : plain v -> plain (VAnnot kind v).

(** [first_failure e x]: the first record, in the order of the visit of
    [x] by the identity visitor, whose class raises when it is called
    with the rebuilt values of its fields, raises [e]; what is visited
    before that record is [plain]. *)
Inductive first_failure (e : exn) : value -> Prop :=
| ff_data cls attrs values :
    mapM (fun f => dict_get f attrs) (dc_fields cls) = Some values ->
    Forall plain values ->
    dataclass_new cls (dict_of_items (zip (dc_fields cls) (map rebuilt values)))
      = Err e ->
    first_failure e (VData cls attrs)
| ff_model cls fields_set attrs private values :
    mapM (fun f => dict_get f attrs) (model_fields cls fields_set)
      = Some values ->
    Forall plain values ->
    model_new cls
      (dict_of_items
         (map (fun kv => (keyword cls (fst kv), snd kv))
              (zip (model_fields cls fields_set) (map rebuilt values))))
      = Err e ->
    first_failure e (VModel cls fields_set attrs private)
| ff_below x pre c post :
    children x = Some (pre ++ c :: post)%list ->
    Forall plain pre ->
    first_failure e c ->
    first_failure e x.
End Predicates.


(** The number of nested calls that reach the deepest value below [v]. *)
Fixpoint height (v : value) : nat :=
  match v with
  | VList l | VTuple l | VSet l => S (max_list (map height l))
  | VDict _ kvs =>
      S (max_list
           (map (fun kv => Nat.max (height (fst kv)) (height (snd kv))) kvs))
  | VData _ attrs => S (max_list (map (fun kv => height (snd kv)) attrs))
  | VModel _ _ attrs _ =>
      S (max_list (map (fun kv => height (snd kv)) attrs))
  | VRevisit x | VAnnot _ x => S (height x)
  | _ => O
  end.


(** ** [dict_to_flatdict] and [flatdict_to_dict] *)

Module Flatdict.
Section Flatdict.
Context {K A : Type} `{EqDecision K} `{EqDecision A}.

(** A value of a nested dictionary: a dict ([isinstance(v, dict)] holds,
    of type [dict] or [OrderedDict]) with its items in insertion order,
    or any other value, which has neither items nor [setdefault]. *)
Inductive nested : Type :=
| Leaf (a : A)
| Dict (kind : dict_kind) (items : list (K * nested)).

(** A flat dictionary: its type and its items, whose keys are tuples. *)
Record flatdict := Flat {
  flat_kind : dict_kind;
  flat_items : list (list K * nested)
}.

(** Lines 89-98: the list [items] that [dict_to_flatdict(dct, _parent)]
    collects; a recursive call contributes the items of the flat
    dictionary it returns. *)
Fixpoint collect_items (parent : list K) (dct : nested)
    : list (list K * nested) :=
  match dct with
  | Leaf _ => []
  | Dict _ kvs =>
      (fix go (kvs : list (K * nested)) : list (list K * nested) :=
         match kvs with
         | [] => []
         | (k, v) :: kvs' =>
             let k_parent := (parent ++ [k])%list in
             match v with
             | Dict _ (_ :: _) =>
                 (dict_of_items (collect_items k_parent v) ++ go kvs')%list
             | _ => (k_parent, v) :: go kvs'
             end
         end) kvs
  end.

(** Lines 73-99, for a dictionary of type [kind] with items [kvs]. *)
Definition dict_to_flatdict (kind : dict_kind) (kvs : list (K * nested))
    : flatdict :=
  Flat kind (dict_of_items (collect_items [] (Dict kind kvs))).

(** The methods of a value that is no dict are code outside the module.
    [leaf_insert typ a keys value] is what lines 121-123 do with the keys
    [keys] that are left of a key tuple once [setdefault] has returned the
    value [a], which is no dict: for one key the item assignment
    [a[key] = value], for more keys first [a.setdefault(key, typ())].  It
    gives the value [a] as it is afterwards (a list, for one, supports the
    item assignment), or the exception raised (an [int] supports
    neither). *)
Class LeafInsert :=
  leaf_insert : dict_kind -> A -> list K -> nested -> res A.
Context `{LeafInsert}.

(** Lines 117-123: one turn of the outer loop on the dictionary
    [current_dict].  [key_tuple[-1]] of the empty tuple raises; where
    [setdefault] returns a value that is no dict, the rest of the turn is
    up to the methods of that value. *)
Fixpoint insert_path (typ : dict_kind) (key_tuple : list K) (value : nested)
    (current_dict : list (K * nested)) : res (list (K * nested)) :=
  match key_tuple with
  | [] => Err (Exn "IndexError" "tuple index out of range")
  | [k] => Ok (dict_set k value current_dict)
  | prefix_key :: rest =>
      match dict_get prefix_key current_dict with
      | None =>
          match insert_path typ rest value [] with
          | Ok sub => Ok (dict_set prefix_key (Dict typ sub) current_dict)
          | Err e => Err e
          end
      | Some (Dict kind sub) =>
          match insert_path typ rest value sub with
          | Ok sub' => Ok (dict_set prefix_key (Dict kind sub') current_dict)
          | Err e => Err e
          end
      | Some (Leaf a) =>
          match leaf_insert typ a rest value with
          | Ok a' => Ok (dict_set prefix_key (Leaf a') current_dict)
          | Err e => Err e
          end
      end
  end.

(** Lines 116-123: the outer loop. *)
Fixpoint insert_all (typ : dict_kind) (items : list (list K * nested))
    (result : list (K * nested)) : res (list (K * nested)) :=
  match items with
  | [] => Ok result
  | (key_tuple, value) :: items' =>
      match insert_path typ key_tuple value result with
      | Ok result' => insert_all typ items' result'
      | Err e => Err e
      end
  end.

(** Lines 102-125. *)
Definition flatdict_to_dict (dct : flatdict) : res nested :=
  match insert_all (flat_kind dct) (flat_items dct) [] with
  | Ok result => Ok (Dict (flat_kind dct) result)
  | Err e => Err e
  end.

(** Python's [==] on nested dictionaries: two [OrderedDict]s compare
    their items in order, any other pair of dicts compares as mappings. *)
Fixpoint py_eq (a b : nested) : bool :=
  match a, b with
  | Leaf x, Leaf y => bool_decide (x = y)
  | Dict ka ia, Dict kb ib =>
      match ka, kb with
      | KOrderedDict, KOrderedDict =>
          (fix go (ia ib : list (K * nested)) : bool :=
             match ia, ib with
             | [], [] => true
             | (k, v) :: ia', (k', v') :: ib' =>
                 bool_decide (k = k') && py_eq v v' && go ia' ib'
             | _, _ => false
             end) ia ib
      | _, _ =>
          Nat.eqb (length ia) (length ib) &&
          (fix go (ia : list (K * nested)) : bool :=
             match ia with
             | [] => true
             | (k, v) :: ia' =>
                 match dict_get k ib with
                 | Some v' => py_eq v v'
                 | None => false
                 end && go ia'
             end) ia
      end
  | _, _ => false
  end.

(** The two loops of [py_eq], by name. *)
Definition items_eq_ordered (ia ib : list (K * nested)) : bool :=
  (fix go (ia ib : list (K * nested)) : bool :=
     match ia, ib with
     | [], [] => true
     | (k, v) :: ia', (k', v') :: ib' =>
         bool_decide (k = k') && py_eq v v' && go ia' ib'
     | _, _ => false
     end) ia ib.

Definition items_le (ib ia : list (K * nested)) : bool :=
  (fix go (ia : list (K * nested)) : bool :=
     match ia with
     | [] => true
     | (k, v) :: ia' =>
         match dict_get k ib with
         | Some v' => py_eq v v'
         | None => false
         end && go ia'
     end) ia.

(** What one item of a dict contributes to the collected items. *)
Definition item_entries (parent : list K) (kv : K * nested)
    : list (list K * nested) :=
  match snd kv with
  | Dict _ (_ :: _) =>
      dict_of_items (collect_items (parent ++ [fst kv]) (snd kv))
  | _ => [((parent ++ [fst kv])%list, snd kv)]
  end.

(** The keys of every dict are distinct. *)
Fixpoint wf (v : nested) : Prop :=
  match v with
  | Leaf _ => True
  | Dict _ kvs =>
      NoDup (map fst kvs) /\
      (fix go (kvs : list (K * nested)) : Prop :=
         match kvs with
         | [] => True
         | (_, v) :: kvs' => wf v /\ go kvs'
         end) kvs
  end.

(** [v] with the type of every non-empty dict below it set to [typ]. *)
Fixpoint retype (typ : dict_kind) (v : nested) : nested :=
  match v with
  | Leaf a => Leaf a
  | Dict kind [] => Dict kind []
  | Dict _ kvs =>
      Dict typ (map (fun kv => (fst kv, retype typ (snd kv))) kvs)
  end.

(** Every non-empty dict below [v] has type [typ]. *)
Fixpoint uniform (typ : dict_kind) (v : nested) : Prop :=
  match v with
  | Leaf _ => True
  | Dict kind kvs =>
      (kvs = [] \/ kind = typ) /\
      (fix go (kvs : list (K * nested)) : Prop :=
         match kvs with
         | [] => True
         | (_, v) :: kvs' => uniform typ v /\ go kvs'
         end) kvs
  end.
End Flatdict.
Arguments nested K A : clear implicits.
Arguments flatdict K A : clear implicits.
Arguments LeafInsert K A : clear implicits.
End Flatdict.

(** ** [batched_iterable] *)

Module Batch.
Section Batch.
Context {A : Type}.

(** [sys.maxsize], the largest index of the platform: [2^63 - 1] on a
    64-bit build, [2^31 - 1] on a 32-bit one. *)
Variable maxsize : Z.

(** [itertools.islice(it, size)] followed by [tuple].  [islice] takes a
    stop argument from 0 to [sys.maxsize]: it raises [ValueError] for any
    other integer, with one message when the argument is -1 or does not
    fit an index of the platform, with another for the other negative
    integers.  Otherwise up to [size] items are taken from the iterator
    [it], which keeps the others.  An iterator is the list of the items it
    has still to yield. *)
Definition islice (it : list A) (size : Z) : res (list A * list A) :=
  if (size =? -1)%Z || (maxsize <? size)%Z || (size <? - maxsize - 1)%Z then
    Err (Exn "ValueError" "Stop argument for islice() must be None or an integer: 0 <= x <= sys.maxsize.")
  else if (size <? 0)%Z then
    Err (Exn "ValueError" "Indices for islice() must be None or an integer: 0 <= x <= sys.maxsize.")
  else Ok (take (Z.to_nat size) it, drop (Z.to_nat size) it).

(** Lines 202-206: one [next] on the generator.  [Some (batch, it')] is a
    yielded batch with the iterator left as [it'], [None] is the end of
    the generator. *)
Definition batched_next (size : Z) (it : list A)
    : res (option (list A * list A)) :=
  match islice it size with
  | Ok ([], _) => Ok None
  | Ok (batch, it') => Ok (Some (batch, it'))
  | Err e => Err e
  end.

(** Lines 190-206, run to its end: [list(batched_iterable(iterable, size))]. *)
Fixpoint batched_iterable (fuel : nat) (it : list A) (size : Z)
    : outcome (list (list A)) :=
  match fuel with
  | O => OutOfFuel
  | S fuel' =>
      match batched_next size it with
      | Ok None => Ret []
      | Ok (Some (batch, it')) =>
          match batched_iterable fuel' it' size with
          | Ret batches => Ret (batch :: batches)
          | Raise e => Raise e
          | OutOfFuel => OutOfFuel
          end
      | Err e => Raise e
      end
  end.
End Batch.
End Batch.

(** An [int] supports neither the item assignment nor [setdefault]. *)
#[global] Instance int_leaf {K : Type} : Flatdict.LeafInsert K Z :=
  fun _ _ keys _ =>
    Err (match keys with
         | [_] =>
             Exn "TypeError" "'int' object does not support item assignment"
         | _ =>
             Exn "AttributeError" "'int' object has no attribute 'setdefault'"
         end).

(** [sys.maxsize] of a 64-bit build. *)
Definition maxsize64 : Z := (2 ^ 63 - 1)%Z.




(** The rule for the expression whose children are visited, as the spec
    words it: the result of the visitor when data is returned or the
    original expression is a [revisit], the original expression
    otherwise. *)
Definition basis_spec (return_data : bool) (expr result : value) : value :=
  if return_data || is_revisit expr then result else expr.

(** A visitor function that answers [5] with [revisit([1, 2])] and any
    [revisit] with [7]. *)
Definition signal_fn (v : value) : value :=
  match v with
  | VInt 5 => VRevisit (VList [VInt 1; VInt 2])
  | VRevisit _ => VInt 7
  | _ => v
  end.

(** A pydantic model class with the fields [x], of alias ["X"], and [y],
    without alias, and the private attribute [_z]. *)
Definition model_xy : model_type :=
  ModelType "Record"
    [ModelField "x" "X" true; ModelField "y" "y" false] ["_z"].

(** An instance of [model_xy] made as [Record(X=1)] where [y] has the
    default 2, with [_z] set to 99: only [x] is in [__fields_set__]. *)
Definition record_xy : value :=
  VModel model_xy ["x"] [("x", VInt 1); ("y", VInt 2)] [("_z", VInt 99)].

(** A pydantic model class whose only field [x] has the empty string as
    its alias ([x: int = Field(alias="")]), and an instance of it. *)
Definition model_empty_alias : model_type :=
  ModelType "Blank" [ModelField "x" "" true] [].

Definition record_empty_alias : value :=
  VModel model_empty_alias ["x"] [("x", VInt 1)] [].

(** A value with one node of every kind that [visit_collection] rebuilds:
    a list of the tuple [(1, "a")], the set [{2, 3}], the dict
    [OrderedDict(k=quote(mock))], the dataclass instance [Point(a=1)] and
    the model [Record(X=1, y=2)]. *)
Definition sample_value : value :=
  VList
    [VTuple [VInt 1; VStr "a"];
     VSet [VInt 2; VInt 3];
     VDict KOrderedDict [(VStr "k", VAnnot "quote" (VMock 0))];
     VData (DataclassType "Point" ["a"]) [("a", VInt 1)];
     VModel model_xy ["x"; "y"] [("x", VInt 1); ("y", VInt 2)]
       [("_z", VInt 99)]].

(** An instance of the dataclass [Scaled], whose [__init__] requires the
    pseudo-field [scale]. *)
Definition scaled_instance : value :=
  VData (DataclassType "Scaled" ["x"]) [("x", VInt 1)].

(** The items of [{"a": {"b": 1, "c": {"d": 2}}}]. *)
Definition abcd_items : list (string * Flatdict.nested string Z) :=
  [("a",
    Flatdict.Dict KDict
      [("b", Flatdict.Leaf 1%Z);
       ("c", Flatdict.Dict KDict [("d", Flatdict.Leaf 2%Z)])])].

(** ** [distinct] *)

Section Distinct.
Context {T B : Type} `{EqDecision B}.

(** Lines 380-384: the loop of [distinct] with the set [seen]; the result
    lists what the generator yields. *)
Fixpoint distinct_from (key : T -> B) (seen : list B) (iterable : list T)
    : list T :=
  match iterable with
  | [] => []
  | item :: iterable' =>
      if decide (key item ∈ seen) then distinct_from key seen iterable'
      else item :: distinct_from key (key item :: seen) iterable'
  end.

(** Lines 375-384: [list(distinct(iterable, key))]. *)
Definition distinct (key : T -> B) (iterable : list T) : list T :=
  distinct_from key [] iterable.
End Distinct.

(** ** [ensure_iterable] and [extract_instances] *)

Section Extract.
Context {O T : Type} `{EqDecision T}.

(** The argument [types] of [extract_instances]: a class, or a tuple of
    classes. *)
Inductive types_arg : Type :=
| OneType (t : T)
| TypeTuple (ts : list T).

(** Lines 147-151 on such an argument: a tuple is a [Sequence] and is
    returned as it is, a class is neither a [Sequence] nor a [Set] and is
    wrapped in a list.  The result is given by its items. *)
Definition ensure_iterable (obj : types_arg) : list T :=
  match obj with
  | TypeTuple ts => ts
  | OneType t => [t]
  end.

(** [ret[type_].append(o)] on the [defaultdict(list)]: a missing key is
    inserted with the empty list first. *)
Definition default_append (type_ : T) (o : O) (ret : list (T * list O))
    : list (T * list O) :=
  match dict_get type_ ret with
  | Some l => dict_set type_ (l ++ [o])%list ret
  | None => dict_set type_ [o] ret
  end.

(** What [extract_instances] returns: a list, or the [defaultdict]. *)
Inductive extracted : Type :=
| Instances (l : list O)
| ByType (ret : list (T * list O)).

(** Lines 158-187.  [isinstance o t] is [isinstance(o, t)]. *)
Definition extract_instances (isinstance : O -> T -> bool)
    (objects : list O) (types : types_arg) : extracted :=
  let types := ensure_iterable types in
  let ret :=
    fold_left
      (fun ret o =>
         fold_left
           (fun ret type_ =>
              if isinstance o type_ then default_append type_ o ret else ret)
           types ret)
      objects [] in
  match types with
  | [t] => Instances (default [] (dict_get t ret))
  | _ => ByType ret
  end.

(** What object [o] adds to the list of [t] when the inner loop runs over
    [types]: one copy for every occurrence of [t] among the types, when [o]
    is an instance of [t]. *)
Definition copies (isinstance : O -> T -> bool) (types : list T) (t : T)
    (o : O) : list O :=
  if isinstance o t then
    repeat o (length (filter (fun t' => t' = t) types))
  else [].
End Extract.
Arguments types_arg T : clear implicits.
Arguments extracted O T : clear implicits.

(** ** [remove_nested_keys] *)

Section RemoveNestedKeys.
Context {K A : Type} `{EqDecision K}.

(** Lines 353-372, on the nested dictionaries of [Flatdict]: the
    comprehension builds a plain [dict], whatever the type of [obj]. *)
Fixpoint remove_nested_keys (keys_to_remove : list K)
    (obj : Flatdict.nested K A) : Flatdict.nested K A :=
  match obj with
  | Flatdict.Leaf a => Flatdict.Leaf a
  | Flatdict.Dict _ kvs =>
      Flatdict.Dict KDict
        (dict_of_items
           ((fix go (kvs : list (K * Flatdict.nested K A))
               : list (K * Flatdict.nested K A) :=
               match kvs with
               | [] => []
               | (key, value) :: kvs' =>
                   if decide (key ∈ keys_to_remove) then go kvs'
                   else (key, remove_nested_keys keys_to_remove value)
                        :: go kvs'
               end) kvs))
  end.

(** [has_key k v]: [k] is a key of [v] or of a dict below [v]. *)
Inductive has_key (k : K) : Flatdict.nested K A -> Prop :=
| has_key_here kind kvs :
    k ∈ map fst kvs -> has_key k (Flatdict.Dict kind kvs)
| has_key_below kind kvs kv :
    kv ∈ kvs -> has_key k (snd kv) -> has_key k (Flatdict.Dict kind kvs).

(** Every dict of [v] is a plain [dict]. *)
Fixpoint plain_dicts (v : Flatdict.nested K A) : Prop :=
  match v with
  | Flatdict.Leaf _ => True
  | Flatdict.Dict kind kvs =>
      kind = KDict /\
      (fix go (kvs : list (K * Flatdict.nested K A)) : Prop :=
         match kvs with
         | [] => True
         | (_, v) :: kvs' => plain_dicts v /\ go kvs'
         end) kvs
  end.
End RemoveNestedKeys.

(** ** Paths in nested dictionaries *)

Section Paths.
Context {K A : Type} `{EqDecision K}.

(** [obj[k1][k2]...] for the keys of [path]: [None] where a key is missing
    or the value reached is no dict. *)
Fixpoint get_path (obj : Flatdict.nested K A) (path : list K)
    : option (Flatdict.nested K A) :=
  match path with
  | [] => Some obj
  | k :: path' =>
      match obj with
      | Flatdict.Dict _ kvs =>
          match dict_get k kvs with
          | Some v => get_path v path'
          | None => None
          end
      | Flatdict.Leaf _ => None
      end
  end.

(** A value that [dict_to_flatdict] does not recurse into (line 95): any
    value but a non-empty dict. *)
Definition terminal (v : Flatdict.nested K A) : Prop :=
  match v with
  | Flatdict.Dict _ (_ :: _) => False
  | _ => True
  end.
End Paths.

(** ** Collections without record instances and iterators *)

(** [v] is built from atoms, mocks, lists, tuples, sets, dicts and
    annotations only. *)
Fixpoint is_tree (v : value) : bool :=
  match v with
  | VIter _ | VData _ _ | VModel _ _ _ _ => false
  | VList l | VTuple l | VSet l => forallb is_tree l
  | VDict _ kvs => forallb (fun kv => is_tree (fst kv) && is_tree (snd kv)) kvs
  | VRevisit x | VAnnot _ x => is_tree x
  | _ => true
  end.

(** The expressions of [v] in pre-order: a collection before its elements,
    the key of a dict item before its value, an annotation before what it
    wraps; a mock has no children. *)
Fixpoint preorder (v : value) : list value :=
  v ::
  match v with
  | VList l | VTuple l | VSet l => flat_map preorder l
  | VDict _ kvs =>
      flat_map (fun kv => (preorder (fst kv) ++ preorder (snd kv))%list) kvs
  | VRevisit x | VAnnot _ x => preorder x
  | _ => []
  end.

(** [n] plus the depth of every expression of [v], in pre-order. *)
Fixpoint counts (n : Z) (v : value) : list Z :=
  n ::
  match v with
  | VList l | VTuple l | VSet l => flat_map (counts (n + 1)) l
  | VDict _ kvs =>
      flat_map (fun kv => (counts (n + 1) (fst kv)
                           ++ counts (n + 1) (snd kv))%list) kvs
  | VRevisit x | VAnnot _ x => counts (n + 1) x
  | _ => []
  end.

(** [f] mapped over the atoms of [v], with the collections built again: a
    set and a dict are collected again from the new elements and items,
    and a [revisit] is replaced by what it wraps. *)
Fixpoint vmap (f : value -> value) (v : value) : value :=
  match v with
  | VList l => VList (map (vmap f) l)
  | VTuple l => VTuple (map (vmap f) l)
  | VSet l => VSet (set_of_items (map (vmap f) l))
  | VDict kind kvs =>
      VDict kind
        (dict_of_items
           (map (fun kv => (vmap f (fst kv), vmap f (snd kv))) kvs))
  | VRevisit x => vmap f x
  | VAnnot kind x => VAnnot kind (vmap f x)
  | VMock _ | VIter _ | VData _ _ | VModel _ _ _ _ => v
  | _ => f v
  end.

(** A visitor function that changes atoms into atoms and nothing else. *)
Definition leaf_transformer (f : value -> value) : Prop :=
  forall v, if is_atom v then is_atom (f v) = true else f v = v.

(** ** Key tuples of flat dictionaries *)

Section KeyTuples.
Context {K : Type}.

(** Neither key tuple is a prefix of the other; so they differ. *)
Definition unrelated (p q : list K) : Prop :=
  ~ p `prefix_of` q /\ ~ q `prefix_of` p.

(** No key tuple of [l] is a prefix of one at another position. *)
Fixpoint prefix_free (l : list (list K)) : Prop :=
  match l with
  | [] => True
  | p :: l' => Forall (unrelated p) l' /\ prefix_free l'
  end.
End KeyTuples.

(** * Properties *)

(** ** The monad and the list comprehensions *)

Section MonadFacts.
Context {W : Type}.



End MonadFacts.

Section VisitFacts.
Context {W : Type}.
Variable dataclass_new :
  dataclass_type -> list (string * value) -> res (list (string * value)).
Variable model_new :
  model_type -> list (string * value) ->
  res (list string * list (string * value) * list (string * value)).
Variable visit_fn : visitor W.

Abbreviation visit := (visit_collection dataclass_new model_new visit_fn).
Abbreviation items_of := (visit_items dataclass_new model_new).



(** With budget 0 the visitor is called on the expression and nothing
    else happens. *)
Lemma visit_depth_zero fuel expr rd ctx s :
  visit (S fuel) expr rd 0 ctx s =
  match visit_expression visit_fn ctx expr s with
  | Ret ((r, c), s1) => Ret ((if rd then r else VNone, c), s1)
  | Raise e => Raise e
  | OutOfFuel => OutOfFuel
  end.
Proof.
  cbn [visit_collection]. unfold bind.
  destruct (visit_expression visit_fn ctx expr s) as [[[r c] s1]| |]; reflexivity.
Qed.
End VisitFacts.

(** ** Depth budget *)

Section Depth.
Variable dataclass_new :
  dataclass_type -> list (string * value) -> res (list (string * value)).
Variable model_new :
  model_type -> list (string * value) ->
  res (list string * list (string * value) * list (string * value)).

Abbreviation visit_rec :=
  (visit_collection dataclass_new model_new (recording_visitor id)).



End Depth.



(** ** Observe-only mode *)

(** C5.  With [return_data=False] the call on a mock returns the mock, not
    [None], and the call on an annotation returns the annotation rewrapped
    around the [None] of the nested call: the branches of lines 289-291 and
    344-345 set [result] without looking at [return_data], unlike every
    other branch. *)
Theorem C5_observe_mode_returns_value :
  forall dn mn fuel id,
    visit_collection dn mn (pure_visitor (W := unit) (fun x => x)) (S fuel)
      (VMock id) false (-1) None (State ∅ tt)
    = Ret ((VMock id, None), State ∅ tt)
    /\ visit_collection dn mn (pure_visitor (W := unit) (fun x => x))
         (S (S fuel)) (VAnnot "quote" (VInt 1)) false (-1) None (State ∅ tt)
       = Ret ((VAnnot "quote" VNone, None), State ∅ tt)
    /\ VMock id <> VNone /\ VAnnot "quote" VNone <> VNone.
Proof.
  intros dn mn fuel id. repeat split; try reflexivity; discriminate.
Qed.

(** ** The [revisit] signal *)

Section Revisit.
Context {W : Type}.
Variable dataclass_new :
  dataclass_type -> list (string * value) -> res (list (string * value)).
Variable model_new :
  model_type -> list (string * value) ->
  res (list string * list (string * value) * list (string * value)).
Variable visit_fn : visitor W.

Abbreviation visit' := (visit_collection dataclass_new model_new visit_fn).

(** One level of [visit_collection] once the visitor has returned. *)
Lemma visit_collection_step fuel expr rd d ctx s r ctx' s1 :
  d <> 0%Z ->
  visit_expression visit_fn ctx expr s = Ret ((r, ctx'), s1) ->
  visit' (S fuel) expr rd d ctx s =
  match
    visit_items dataclass_new model_new (S fuel)
      (fun o => let* x := visit' fuel o rd (d - 1)%Z ctx' in ret (fst x))
      rd (if rd || is_revisit r then r else expr) r s1
  with
  | Ret (res, s2) => Ret ((res, ctx'), s2)
  | Raise e => Raise e
  | OutOfFuel => OutOfFuel
  end.
Proof.
  intros Hd Hv. cbn [visit_collection]. unfold bind at 1. rewrite Hv.
  cbn [fst snd]. destruct (Z.eqb_spec d 0) as [?|_]; [contradiction|].
  unfold bind, basis, ret.
  destruct (visit_items _ _ _ _ _ _ _ s1) as [[res s2]| |]; reflexivity.
Qed.

Lemma visit_revisit fuel expr rd d ctx s r ctx' s1 payload :
  d <> 0%Z ->
  visit_expression visit_fn ctx expr s = Ret ((r, ctx'), s1) ->
  (if rd || is_revisit r then r else expr) = VRevisit payload ->
  visit' (S fuel) expr rd d ctx s =
  match visit' fuel payload rd (d - 1)%Z ctx' s1 with
  | Ret ((res, _), s2) => Ret ((res, ctx'), s2)
  | Raise e => Raise e
  | OutOfFuel => OutOfFuel
  end.
Proof.
  intros Hd Hv Hb. rewrite (visit_collection_step _ _ _ _ _ _ _ _ _ Hd Hv).
  rewrite Hb. cbn [visit_items]. unfold bind, ret.
  destruct (visit' fuel payload rd (d - 1)%Z ctx' s1) as [[[res c] s2]| |];
    reflexivity.
Qed.
End Revisit.

(** C6, as stated, fails.  In observe-only mode the visitor answers the
    leaf [5] with [revisit([1, 2])]: the children of the answer are visited
    although the original expression is no [revisit].  And it answers
    [revisit("p")] with [7]: the original expression is kept and its
    payload is visited, where the spec's rule makes [7] the expression. *)
Lemma C6_counterexample :
  basis false (VInt 5) (signal_fn (VInt 5))
    <> basis_spec false (VInt 5) (signal_fn (VInt 5))
  /\ basis false (VRevisit (VStr "p")) (signal_fn (VRevisit (VStr "p")))
       <> basis_spec false (VRevisit (VStr "p"))
            (signal_fn (VRevisit (VStr "p")))
  /\ visit_collection dataclass_init pydantic_init
       (recording_visitor signal_fn) 3 (VInt 5) false (-1) None (State ∅ [])
     = Ret ((VNone, None),
            State ∅ [VInt 5; VList [VInt 1; VInt 2]; VInt 1; VInt 2])
  /\ visit_collection dataclass_init pydantic_init
       (recording_visitor signal_fn) 3 (VRevisit (VStr "p")) false (-1) None
       (State ∅ [])
     = Ret ((VNone, None), State ∅ [VRevisit (VStr "p"); VStr "p"]).
Proof.
  repeat split; try reflexivity; cbn; discriminate.
Qed.

(** C6, amended.  Let [r] be what the visitor returns on [expr] and let the
    depth budget be other than 0.  The expression whose children are
    visited is [r] exactly when [return_data] holds or [r] itself is a
    [revisit], and it is [expr] otherwise.  When that expression is a
    [revisit], the call is the nested call on its payload, whatever
    [return_data] is, and returns what the nested call returns, not
    rewrapped. *)
Theorem C6_revisit_handling :
  forall W dn mn (vf : visitor W) fuel expr rd d ctx s r ctx' s1,
    d <> 0%Z ->
    visit_expression vf ctx expr s = Ret ((r, ctx'), s1) ->
    visit_collection dn mn vf (S fuel) expr rd d ctx s =
      match
        visit_items dn mn (S fuel)
          (fun o =>
             let* x := visit_collection dn mn vf fuel o rd (d - 1)%Z ctx'
             in ret (fst x))
          rd (if rd || is_revisit r then r else expr) r s1
      with
      | Ret (res, s2) => Ret ((res, ctx'), s2)
      | Raise e => Raise e
      | OutOfFuel => OutOfFuel
      end
    /\ forall payload,
         (if rd || is_revisit r then r else expr) = VRevisit payload ->
         visit_collection dn mn vf (S fuel) expr rd d ctx s =
         match visit_collection dn mn vf fuel payload rd (d - 1)%Z ctx' s1 with
         | Ret ((res, _), s2) => Ret ((res, ctx'), s2)
         | Raise e => Raise e
         | OutOfFuel => OutOfFuel
         end.
Proof.
  intros W dn mn vf fuel expr rd d ctx s r ctx' s1 Hd Hv. split.
  - now apply visit_collection_step.
  - intros payload Hb. now apply visit_revisit with (r := r).
Qed.

Lemma C6_revisit_handling_witness :
  visit_collection dataclass_init pydantic_init (recording_visitor signal_fn)
    3 (VInt 5) false (-1) None (State ∅ [])
  = match
      visit_collection dataclass_init pydantic_init
        (recording_visitor signal_fn) 2 (VList [VInt 1; VInt 2]) false (-2)
        None (State ∅ [VInt 5])
    with
    | Ret ((res, _), s2) => Ret ((res, None), s2)
    | Raise e => Raise e
    | OutOfFuel => OutOfFuel
    end.
Proof.
  refine (proj2 (C6_revisit_handling (list value) dataclass_init pydantic_init
            (recording_visitor signal_fn) 2 (VInt 5) false (-1) None
            (State ∅ []) (VRevisit (VList [VInt 1; VInt 2])) None
            (State ∅ [VInt 5]) _ _) (VList [VInt 1; VInt 2]) _).
  - lia.
  - reflexivity.
  - reflexivity.
Defined.

(** ** Iterators *)

Section Iterators.
Context {W : Type}.

(** When the comprehension over an iterator returns, the iterator has
    nothing left to yield. *)
Lemma for_each_iter_consumes {B} (f : value -> M W B) id fuel :
  forall s items s',
    for_each_iter fuel f id s = Ret (items, s') ->
    next_item id s' = None.
Proof.
  induction fuel as [|fuel IH]; intros s items s' H; [discriminate|].
  cbn [for_each_iter] in H.
  destruct (next_item id s) as [[o s1]|] eqn:Hn.
  - unfold bind in H. destruct (f o s1) as [[r s2]| |]; try discriminate.
    destruct (for_each_iter fuel f id s2) as [[rs s3]| |] eqn:Hrec;
      try discriminate.
    cbn in H. injection H as _ <-. eapply IH, Hrec.
  - injection H as _ <-. exact Hn.
Qed.

(** The comprehension over an iterator whose items are mapped without a
    change of the state. *)
Lemma for_each_iter_map {B} (f : value -> M W B) (g : value -> B) id :
  forall items fuel its w,
    its !! id = Some items ->
    (forall o s, o ∈ items -> f o s = Ret (g o, s)) ->
    (length items < fuel)%nat ->
    for_each_iter fuel f id (State its w)
    = Ret (map g items, State (<[id := []]> its) w).
Proof.
  induction items as [|o items IH]; intros fuel its w Hid Hf Hfuel;
    (destruct fuel as [|fuel]; [cbn in Hfuel; lia|]).
  - cbn [for_each_iter]. unfold next_item. cbn [iters]. rewrite Hid.
    rewrite insert_id by exact Hid. reflexivity.
  - cbn [for_each_iter]. unfold next_item. cbn [iters world]. rewrite Hid.
    unfold bind. rewrite Hf by left.
    rewrite (IH fuel (<[id := items]> its) w).
    + cbn. now rewrite insert_insert_eq.
    + apply lookup_insert_eq.
    + intros o' s Hin. apply Hf. now right.
    + cbn in Hfuel. lia.
Qed.
End Iterators.

(** A nested call on an expression that is no collection, by a visitor
    without side effects. *)
Lemma visit_atom_pure {W} dn mn (f : value -> value) fuel o rd d ctx
    (s : state W) :
  is_atom o = true -> is_atom (f o) = true ->
  visit_collection dn mn (pure_visitor f) (S fuel) o rd d ctx s
  = Ret ((if rd then f o else VNone, ctx), s).
Proof.
  intros Ho Hfo. cbn [visit_collection]. unfold bind at 1.
  assert (Hv : visit_expression (pure_visitor f) ctx o s = Ret ((f o, ctx), s)).
  { destruct s as [its w]. destruct ctx; reflexivity. }
  rewrite Hv. cbn [fst snd].
  destruct (d =? 0)%Z; [reflexivity|].
  unfold basis. destruct rd; cbn [orb].
  - destruct (f o); try discriminate; reflexivity.
  - replace (is_revisit (f o)) with false
      by (destruct (f o); try discriminate; reflexivity).
    destruct o; try discriminate; reflexivity.
Qed.

(** C10, as stated, fails: with depth budget 0 the call returns before the
    expression is classified, so an iterator is returned as it is in copy
    mode, not as a list, and keeps its items. *)
Lemma C10_counterexample :
  ~ (exists items s',
       visit_collection dataclass_init pydantic_init
         (pure_visitor (fun x => x)) 5 (VIter 0) true 0 None
         (State {[ 0%nat := [VInt 1; VInt 2] ]} tt)
       = Ret ((VList items, None), s')
       /\ next_item 0 s' = None).
Proof.
  intros (items & s' & H & _). vm_compute in H. discriminate.
Qed.

(** C10, amended.  Let the depth budget be other than 0 and let the
    expression whose children are visited be an iterator (in copy mode,
    what the visitor returned; otherwise the original expression).  Then
    the call is the list comprehension over the iterator: it returns the
    plain list of the results of the nested calls in copy mode and [None]
    otherwise, and whenever it returns the iterator has nothing left to
    yield.  With a visitor without side effects that maps the items, all of
    them atoms, to atoms, the call returns: the list is the list of the
    transformed items and the iterator is left empty. *)
Theorem C10_iterator_as_list :
  (forall W dn mn (vf : visitor W) fuel expr rd d ctx s r ctx' s1 id,
     d <> 0%Z ->
     visit_expression vf ctx expr s = Ret ((r, ctx'), s1) ->
     (if rd || is_revisit r then r else expr) = VIter id ->
     visit_collection dn mn vf (S fuel) expr rd d ctx s =
       match
         for_each_iter (S fuel)
           (fun o =>
              let* x := visit_collection dn mn vf fuel o rd (d - 1)%Z ctx'
              in ret (fst x)) id s1
       with
       | Ret (items, s2) =>
           Ret ((if rd then VList items else VNone, ctx'), s2)
       | Raise e => Raise e
       | OutOfFuel => OutOfFuel
       end
     /\ forall res c s2,
          visit_collection dn mn vf (S fuel) expr rd d ctx s
            = Ret ((res, c), s2) ->
          next_item id s2 = None
          /\ (if rd then exists items, res = VList items else res = VNone)) /\
  (forall W dn mn (f : value -> value) fuel rd d ctx id items its (w : W),
     d <> 0%Z ->
     f (VIter id) = VIter id ->
     its !! id = Some items ->
     Forall (fun o => is_atom o = true /\ is_atom (f o) = true) items ->
     (length items < fuel)%nat ->
     visit_collection dn mn (pure_visitor f) (S fuel) (VIter id) rd d ctx
       (State its w)
     = Ret ((if rd then VList (map f items) else VNone, ctx),
            State (<[id := []]> its) w)).
Proof.
  split.
  - intros W dn mn vf fuel expr rd d ctx s r ctx' s1 id Hd Hv Hb.
    assert (Heq : visit_collection dn mn vf (S fuel) expr rd d ctx s =
       match
         for_each_iter (S fuel)
           (fun o =>
              let* x := visit_collection dn mn vf fuel o rd (d - 1)%Z ctx'
              in ret (fst x)) id s1
       with
       | Ret (items, s2) =>
           Ret ((if rd then VList items else VNone, ctx'), s2)
       | Raise e => Raise e
       | OutOfFuel => OutOfFuel
       end).
    { rewrite (visit_collection_step dn mn vf _ _ _ _ _ _ _ _ _ Hd Hv).
      rewrite Hb. cbn [visit_items]. unfold bind at 1.
      destruct (for_each_iter (S fuel) _ id s1) as [[items s2]| |];
        reflexivity. }
    split; [exact Heq|].
    intros res c s2 Hret. rewrite Heq in Hret.
    destruct (for_each_iter (S fuel) _ id s1) as [[items s3]| |] eqn:Hfe;
      try discriminate.
    injection Hret as <- <- <-. split.
    + eapply for_each_iter_consumes, Hfe.
    + destruct rd; eauto.
  - intros W dn mn f fuel rd d ctx id items its w Hd Hf Hid Hitems Hfuel.
    assert (Hv : visit_expression (pure_visitor f) ctx (VIter id) (State its w)
                 = Ret ((VIter id, ctx), State its w)).
    { destruct ctx; cbn; now rewrite Hf. }
    rewrite (visit_collection_step dn mn _ _ _ _ _ _ _ _ _ _ Hd Hv).
    replace (if rd || is_revisit (VIter id) then VIter id else VIter id)
      with (VIter id) by (destruct rd; reflexivity).
    cbn [visit_items]. unfold bind at 1.
    rewrite (for_each_iter_map _ (fun o => if rd then f o else VNone) id
               items (S fuel) its w Hid).
    + destruct rd; reflexivity.
    + intros o s Hin. rewrite Forall_forall in Hitems.
      destruct (Hitems o Hin) as [Ho Hfo].
      destruct fuel as [|fuel]; [cbn in Hfuel; destruct items; [inversion Hin| cbn in Hfuel; lia]|].
      unfold bind. rewrite visit_atom_pure by assumption. reflexivity.
    + lia.
Qed.

Lemma C10_iterator_as_list_witness :
  visit_collection dataclass_init pydantic_init (pure_visitor add1) 4
    (VIter 0) true (-1) None (State {[ 0%nat := [VInt 1; VInt 2] ]} tt)
  = Ret ((VList (map add1 [VInt 1; VInt 2]), None),
         State (<[0%nat := []]> {[ 0%nat := [VInt 1; VInt 2] ]}) tt).
Proof.
  apply (proj2 C10_iterator_as_list unit dataclass_init pydantic_init add1
           3%nat true (-1)%Z None 0%nat [VInt 1; VInt 2]
           {[ 0%nat := [VInt 1; VInt 2] ]} tt).
  - lia.
  - reflexivity.
  - reflexivity.
  - repeat constructor.
  - cbn. lia.
Defined.

(** ** The context *)

Section Context.
Variable dataclass_new :
  dataclass_type -> list (string * value) -> res (list (string * value)).
Variable model_new :
  model_type -> list (string * value) ->
  res (list string * list (string * value) * list (string * value)).

(** A nested call of the counting visitor on an atom: the count it is
    given is recorded, and the incremented dictionary is the copy. *)
Lemma visit_atom_counting fuel o rd d (c : context) n its w :
  is_atom o = true -> c !! "count" = Some (VInt n) ->
  visit_collection dataclass_new model_new counting_visitor (S fuel) o rd d
    (Some c) (State its w)
  = Ret ((if rd then o else VNone, Some (<["count" := VInt (n + 1)]> c)),
         State its (w ++ [n])%list).
Proof.
  intros Ho Hc. cbn [visit_collection]. unfold bind at 1.
  cbn [visit_expression counting_visitor call2 world iters].
  rewrite Hc. cbn [fst snd].
  destruct (d =? 0)%Z; [reflexivity|].
  unfold basis. destruct rd; destruct o; try discriminate; reflexivity.
Qed.

Lemma for_each_counting fuel rd d (c : context) n its l :
  c !! "count" = Some (VInt n) ->
  Forall (fun o => is_atom o = true) l ->
  forall w,
    for_each
      (fun o =>
         let* x := visit_collection dataclass_new model_new counting_visitor
                     (S fuel) o rd d (Some c) in ret (fst x))
      l (State its w)
    = Ret (if rd then l else map (fun _ => VNone) l,
           State its (w ++ repeat n (length l))%list).
Proof.
  intros Hc Hl. induction Hl as [|o l Ho Hl IH]; intros w.
  - cbn. rewrite app_nil_r. destruct rd; reflexivity.
  - cbn [for_each]. unfold bind at 1 2.
    rewrite (visit_atom_counting fuel o rd d c n its w Ho Hc).
    unfold ret at 1. cbn [fst]. unfold bind. rewrite IH.
    cbn [length repeat map]. rewrite <- app_assoc. cbn [app].
    destruct rd; reflexivity.
Qed.

Lemma visit_list_counting fuel rd (c : context) n l w :
  c !! "count" = Some (VInt n) ->
  Forall (fun o => is_atom o = true) l ->
  visit_collection dataclass_new model_new counting_visitor (S (S fuel))
    (VList l) rd (-1) (Some c) (State ∅ w)
  = Ret ((if rd then VList l else VNone,
          Some (<["count" := VInt (n + 1)]> c)),
         State ∅ (w ++ n :: repeat (n + 1)%Z (length l))%list).
Proof.
  intros Hc Hl.
  assert (Hv : visit_expression counting_visitor (Some c) (VList l)
                 (State ∅ w)
               = Ret ((VList l, Some (<["count" := VInt (n + 1)]> c)),
                      State ∅ (w ++ [n])%list)).
  { cbn. now rewrite Hc. }
  rewrite (visit_collection_step dataclass_new model_new counting_visitor
             (S fuel) (VList l) rd (-1)%Z (Some c) _ _ _ _
             ltac:(lia) Hv).
  replace (if rd || is_revisit (VList l) then VList l else VList l)
    with (VList l) by (destruct rd; reflexivity).
  cbn [visit_items]. unfold bind at 1.
  rewrite (for_each_counting fuel rd (-1 - 1)%Z _ (n + 1)%Z ∅ l).
  - unfold ret. rewrite <- app_assoc. destruct rd; reflexivity.
  - apply lookup_insert_eq.
  - exact Hl.
Qed.

Lemma visit_atom_counting_atoms fuel o rd d (c : context) n its w :
  is_atom o = true -> c !! "count" = Some (VInt n) ->
  visit_collection dataclass_new model_new counting_atoms_visitor (S fuel)
    o rd d (Some c) (State its w)
  = Ret ((if rd then o else VNone, Some (<["count" := VInt (n + 1)]> c)),
         State its (w ++ [n])%list).
Proof.
  intros Ho Hc. cbn [visit_collection]. unfold bind at 1.
  cbn [visit_expression counting_atoms_visitor counting_visitor call2
         world iters].
  rewrite Ho, Hc. cbn [fst snd].
  destruct (d =? 0)%Z; [reflexivity|].
  unfold basis. destruct rd; destruct o; try discriminate; reflexivity.
Qed.

Lemma for_each_counting_atoms fuel rd d (c : context) n its l :
  c !! "count" = Some (VInt n) ->
  Forall (fun o => is_atom o = true) l ->
  forall w,
    for_each
      (fun o =>
         let* x := visit_collection dataclass_new model_new
                     counting_atoms_visitor (S fuel) o rd d (Some c)
         in ret (fst x))
      l (State its w)
    = Ret (if rd then l else map (fun _ => VNone) l,
           State its (w ++ repeat n (length l))%list).
Proof.
  intros Hc Hl. induction Hl as [|o l Ho Hl IH]; intros w.
  - cbn. rewrite app_nil_r. destruct rd; reflexivity.
  - cbn [for_each]. unfold bind at 1 2.
    rewrite (visit_atom_counting_atoms fuel o rd d c n its w Ho Hc).
    unfold ret at 1. cbn [fst]. unfold bind. rewrite IH.
    cbn [length repeat map]. rewrite <- app_assoc. cbn [app].
    destruct rd; reflexivity.
Qed.

Lemma visit_list_counting_atoms fuel rd (c : context) n l w :
  c !! "count" = Some (VInt n) ->
  Forall (fun o => is_atom o = true) l ->
  visit_collection dataclass_new model_new counting_atoms_visitor
    (S (S fuel)) (VList l) rd (-1) (Some c) (State ∅ w)
  = Ret ((if rd then VList l else VNone, Some c),
         State ∅ (w ++ repeat n (length l))%list).
Proof.
  intros Hc Hl.
  assert (Hv : visit_expression counting_atoms_visitor (Some c) (VList l)
                 (State ∅ w)
               = Ret ((VList l, Some c), State ∅ w)) by reflexivity.
  rewrite (visit_collection_step dataclass_new model_new
             counting_atoms_visitor (S fuel) (VList l) rd (-1)%Z (Some c)
             _ _ _ _ ltac:(lia) Hv).
  replace (if rd || is_revisit (VList l) then VList l else VList l)
    with (VList l) by (destruct rd; reflexivity).
  cbn [visit_items]. unfold bind at 1.
  rewrite (for_each_counting_atoms fuel rd (-1 - 1)%Z _ n ∅ l Hc Hl).
  unfold ret. destruct rd; reflexivity.
Qed.
End Context.

(** C1, as stated, fails.  The visitor is called on the list itself with
    the caller's dictionary, not a copy: each leaf observes [count == 1],
    and the caller's dictionary is [{count: 1}] after the visit. *)
Lemma C1_counterexample :
  ~ (exists r w,
       visit_collection dataclass_init pydantic_init counting_visitor 3
         (VList [VStr "A"; VStr "B"]) false (-1)
         (Some {[ "count" := VInt 0 ]}) (State ∅ [])
       = Ret ((r, Some {[ "count" := VInt 0 ]}), State ∅ w))
  /\ ~ (exists r c,
          visit_collection dataclass_init pydantic_init counting_visitor 3
            (VList [VStr "A"; VStr "B"]) false (-1)
            (Some {[ "count" := VInt 0 ]}) (State ∅ [])
          = Ret ((r, c), State ∅ [0; 0; 0]%Z)).
Proof.
  split.
  - intros (r & w & H).
    rewrite (visit_list_counting dataclass_init pydantic_init 1 false
               {[ "count" := VInt 0 ]} 0%Z [VStr "A"; VStr "B"] [])
      in H; [|reflexivity|repeat constructor].
    apply (f_equal
             (fun o : outcome (value * option context * state (list Z)) =>
                match o with
                | Ret ((_, Some m), _) => m !! "count"
                | _ => None
                end)) in H.
    cbv beta iota in H.
    rewrite lookup_insert_eq, lookup_singleton_eq in H. discriminate.
  - intros (r & c & H).
    rewrite (visit_list_counting dataclass_init pydantic_init 1 false
               {[ "count" := VInt 0 ]} 0%Z [VStr "A"; VStr "B"] [])
      in H; [|reflexivity|repeat constructor].
    cbn in H. discriminate.
Qed.

(** C1, amended.  For a list of atoms and a context with [count == n]:
    the visitor that counts on every expression observes [n] on the list
    itself, where it increments the caller's dictionary, and [n + 1] on
    every element, so no element sees the increment of a sibling, and the
    caller's dictionary holds [n + 1] after the visit (the increment made
    on the list, none of those made on the elements).  The visitor that
    counts on atoms only observes [n] on every element and leaves the
    caller's dictionary as it was. *)
Theorem C1_context_isolation :
  forall dn mn fuel rd (c : context) n l w,
    c !! "count" = Some (VInt n) ->
    Forall (fun o => is_atom o = true) l ->
    visit_collection dn mn counting_visitor (S (S fuel)) (VList l) rd (-1)
      (Some c) (State ∅ w)
    = Ret ((if rd then VList l else VNone,
            Some (<["count" := VInt (n + 1)]> c)),
           State ∅ (w ++ n :: repeat (n + 1)%Z (length l))%list)
    /\ visit_collection dn mn counting_atoms_visitor (S (S fuel)) (VList l)
         rd (-1) (Some c) (State ∅ w)
       = Ret ((if rd then VList l else VNone, Some c),
              State ∅ (w ++ repeat n (length l))%list).
Proof.
  intros dn mn fuel rd c n l w Hc Hl. split.
  - now apply visit_list_counting.
  - now apply visit_list_counting_atoms.
Qed.

Lemma C1_context_isolation_witness :
  visit_collection dataclass_init pydantic_init counting_visitor 2
    (VList [VStr "A"; VStr "B"]) false (-1) (Some {[ "count" := VInt 0 ]})
    (State ∅ [])
  = Ret ((VNone, Some (<["count" := VInt (0 + 1)]> {[ "count" := VInt 0 ]})),
         State ∅ ([] ++ 0%Z :: repeat (0 + 1)%Z 2)%list).
Proof.
  refine (proj1 (C1_context_isolation dataclass_init pydantic_init 0 false
                   {[ "count" := VInt 0 ]} 0%Z [VStr "A"; VStr "B"] [] _ _)).
  - reflexivity.
  - repeat constructor.
Defined.

(** ** Dictionaries and sets *)

Section DictFacts.
Context {K V : Type} `{EqDecision K}.
Implicit Types (d : list (K * V)) (k : K) (v : V).

Lemma dict_get_set_eq k v d : dict_get k (dict_set k v d) = Some v.
Proof.
  induction d as [|[k' v'] d IH]; cbn.
  - now rewrite decide_True.
  - destruct (decide (k' = k)) as [->|Hne]; cbn.
    + now rewrite decide_True.
    + now rewrite decide_False.
Qed.

Lemma dict_get_set_ne k k' v d :
  k <> k' -> dict_get k' (dict_set k v d) = dict_get k' d.
Proof.
  intros Hne. induction d as [|[k0 v0] d IH]; cbn.
  - now rewrite decide_False.
  - destruct (decide (k0 = k)) as [->|Hne0]; cbn.
    + now rewrite !decide_False.
    + destruct (decide (k0 = k')); [reflexivity|exact IH].
Qed.

Lemma dict_get_None k d : dict_get k d = None <-> k ∉ map fst d.
Proof.
  induction d as [|[k' v'] d IH]; cbn.
  - split; [intros _; apply not_elem_of_nil|reflexivity].
  - rewrite not_elem_of_cons. destruct (decide (k' = k)) as [->|Hne].
    + split; [discriminate|intros [? _]; contradiction].
    + rewrite IH. split; [intros ?; split; [congruence|assumption]|intros [_ ?]; assumption].
Qed.

Lemma dict_get_Some_elem k v d : dict_get k d = Some v -> (k, v) ∈ d.
Proof.
  induction d as [|[k' v'] d IH]; cbn; [discriminate|].
  destruct (decide (k' = k)) as [->|Hne].
  - intros [= ->]. left.
  - intros H. right. auto.
Qed.

Lemma dict_get_elem_nodup k v d :
  NoDup (map fst d) -> (k, v) ∈ d -> dict_get k d = Some v.
Proof.
  induction d as [|[k' v'] d IH]; cbn; intros Hnd Hin.
  - inversion Hin.
  - apply NoDup_cons in Hnd as [Hk' Hnd].
    apply elem_of_cons in Hin as [[= -> ->]|Hin].
    + now rewrite decide_True.
    + rewrite decide_False; [auto|].
      intros ->. apply Hk'. apply list_elem_of_fmap. now exists (k, v).
Qed.

Lemma dict_set_fresh k v d :
  k ∉ map fst d -> dict_set k v d = (d ++ [(k, v)])%list.
Proof.
  induction d as [|[k' v'] d IH]; cbn; intros Hk; [reflexivity|].
  apply not_elem_of_cons in Hk as [Hne Hk].
  rewrite decide_False by congruence. now rewrite IH.
Qed.

Lemma dict_set_keys_elem k v d k' :
  k' ∈ map fst (dict_set k v d) <-> k' = k \/ k' ∈ map fst d.
Proof.
  induction d as [|[k0 v0] d IH]; cbn.
  - rewrite list_elem_of_singleton. split; [auto|intros [?|H]; [assumption|inversion H]].
  - destruct (decide (k0 = k)) as [->|Hne]; cbn; rewrite !elem_of_cons.
    + tauto.
    + rewrite IH. tauto.
Qed.

Lemma fold_dict_set_nodup (items : list (K * V)) :
  forall d,
    NoDup (map fst (d ++ items)) ->
    fold_left (fun d kv => dict_set (fst kv) (snd kv) d) items d
    = (d ++ items)%list.
Proof.
  induction items as [|[k v] items IH]; intros d Hnd; cbn.
  - now rewrite app_nil_r.
  - assert (Hk : k ∉ map fst d).
    { rewrite map_app in Hnd. apply NoDup_app in Hnd as (_ & Hdis & _).
      intros Hin. apply (Hdis k Hin). left. }
    rewrite dict_set_fresh by exact Hk.
    rewrite IH; rewrite <- app_assoc; [reflexivity|exact Hnd].
Qed.

(** [dict(items)] of items with distinct keys has these items. *)
Lemma dict_of_items_nodup (items : list (K * V)) :
  NoDup (map fst items) -> dict_of_items items = items.
Proof. intros Hnd. unfold dict_of_items. now rewrite fold_dict_set_nodup. Qed.
End DictFacts.

Section SetFacts.
Context {A : Type} `{EqDecision A}.

Lemma elem_of_uniq_from (x : A) items :
  forall seen, x ∈ uniq_from seen items <-> x ∈ items /\ x ∉ seen.
Proof.
  induction items as [|y items IH]; intros seen; cbn.
  - split; [intros H; inversion H|intros [H _]; inversion H].
  - destruct (decide (y ∈ seen)) as [Hy|Hy].
    + rewrite IH, elem_of_cons. split; [tauto|].
      intros [[->|Hin] Hx]; [contradiction|tauto].
    + rewrite !elem_of_cons, IH, not_elem_of_cons.
      split.
      * intros [->|(Hin & Hne & Hx)]; tauto.
      * intros [[->|Hin] Hx]; [tauto|].
        destruct (decide (x = y)) as [->|Hne]; tauto.
Qed.

Lemma NoDup_uniq_from items :
  forall seen : list A, NoDup (uniq_from seen items).
Proof.
  induction items as [|y items IH]; intros seen; cbn; [constructor|].
  destruct (decide (y ∈ seen)); [apply IH|].
  constructor; [|apply IH].
  rewrite elem_of_uniq_from, not_elem_of_cons. tauto.
Qed.

Lemma uniq_from_nodup items :
  forall seen : list A,
    NoDup items -> (forall x, x ∈ items -> x ∉ seen) ->
    uniq_from seen items = items.
Proof.
  induction items as [|y items IH]; intros seen Hnd Hdis; cbn; [reflexivity|].
  apply NoDup_cons in Hnd as [Hy Hnd].
  rewrite decide_False by (apply Hdis; left).
  f_equal. apply IH; [exact Hnd|].
  intros x Hx. rewrite not_elem_of_cons. split.
  - intros ->. contradiction.
  - apply Hdis. now right.
Qed.

(** [set(items)] of distinct items has these items. *)
Lemma set_of_items_nodup (items : list A) :
  NoDup items -> set_of_items items = items.
Proof.
  intros Hnd. apply uniq_from_nodup; [exact Hnd|].
  intros x _. apply not_elem_of_nil.
Qed.

End SetFacts.

(** ** Pydantic models *)


Lemma NoDup_model_fields cls fields_set :
  NoDup (model_fields cls fields_set).
Proof. unfold model_fields, set_union, set_of_items. apply NoDup_uniq_from. Qed.




Lemma fold_dict_set_keys {K V} `{EqDecision K} (k : K)
    (items : list (K * V)) :
  forall acc : list (K * V),
    k ∈ map fst (fold_left (fun d kv => dict_set (fst kv) (snd kv) d)
                           items acc) ->
    k ∈ map fst acc \/ k ∈ map fst items.
Proof.
  induction items as [|[k0 v0] items IH]; intros acc H; cbn in *; [now left|].
  apply IH in H as [H|H].
  - apply dict_set_keys_elem in H as [->|H]; [right; left|now left].
  - right. now right.
Qed.



Section ModelNode.
Context {W : Type}.
Variable dataclass_new :
  dataclass_type -> list (string * value) -> res (list (string * value)).
Variable model_new :
  model_type -> list (string * value) ->
  res (list string * list (string * value) * list (string * value)).
Variable visit_fn : visitor W.

(** The call on a pydantic model in copy mode. *)
Lemma visit_model_copy fuel expr d ctx s cls fields_set attrs private ctx' s1 :
  d <> 0%Z ->
  visit_expression visit_fn ctx expr s
    = Ret ((VModel cls fields_set attrs private, ctx'), s1) ->
  visit_collection dataclass_new model_new visit_fn (S fuel) expr true d ctx s
  = (let* items :=
       for_each
         (fun key =>
            let* a := lift (getattr attrs key) in
            let* x := visit_collection dataclass_new model_new visit_fn fuel
                        a true (d - 1)%Z ctx' in
            ret (fst x))
         (model_fields cls fields_set) in
     let* inst :=
       lift (model_new cls
               (dict_of_items
                  (map (fun kv => (keyword cls (fst kv), snd kv))
                       (zip (model_fields cls fields_set) items)))) in
     let* private' :=
       lift (restore_private (mt_private cls) private (snd inst)) in
     ret (VModel cls (fst (fst inst)) (snd (fst inst)) private', ctx')) s1.
Proof.
  intros Hd Hv.
  rewrite (visit_collection_step dataclass_new model_new visit_fn fuel expr
             true d ctx s _ _ _ Hd Hv).
  cbn [orb visit_items]. unfold bind, ret, lift.
  destruct (for_each _ (model_fields cls fields_set) s1) as [[items s2]| |];
    try reflexivity.
  destruct (model_new cls _) as [[[fs' attrs'] priv']|e]; try reflexivity.
  cbn [fst snd].
  destruct (restore_private (mt_private cls) private priv'); reflexivity.
Qed.
End ModelNode.

(** C9.  The code at the failing input.  The field [x] of
    [model_empty_alias] has a registered alias, the empty string
    ([has_alias] holds, so lines 316-320 collect it), and yet the class is
    called with the keyword [x], not with the alias: [aliases.get(key) or
    key] (line 324) takes the name when the alias is empty.  A class that
    reads the field under its alias, as pydantic does, then misses it: the
    visit of the instance under the identity visitor raises. *)
Theorem C9_empty_alias_keyword :
  (exists f,
     f ∈ mt_fields model_empty_alias
     /\ mf_has_alias f = true
     /\ keyword model_empty_alias (mf_name f) <> mf_alias f
     /\ keyword model_empty_alias (mf_name f) = mf_name f)
  /\ (forall dn mn,
        visit_collection dn mn (pure_visitor (fun x => x)) 2
          record_empty_alias true (-1) None (State ∅ tt)
        = match mn model_empty_alias [("x", VInt 1)] with
          | Ok (fields_set', attrs', private') =>
              Ret ((VModel model_empty_alias fields_set' attrs' private',
                    None), State ∅ tt)
          | Err e => Raise e
          end)
  /\ visit_collection dataclass_init pydantic_init
       (pure_visitor (fun x => x)) 2 record_empty_alias true (-1) None
       (State ∅ tt)
     = Raise (Exn "ValidationError" "x: field required").
Proof.
  split; [|split].
  - exists (ModelField "x" "" true).
    split; [left|]. split; [reflexivity|]. split; [discriminate|reflexivity].
  - intros dn mn.
    rewrite (visit_model_copy dn mn (pure_visitor (fun x => x)) 1
               record_empty_alias (-1)%Z None (State ∅ tt) model_empty_alias
               ["x"] [("x", VInt 1)] [] None (State ∅ tt) ltac:(lia) eq_refl).
    vm_compute.
    match goal with
    | |- context [mn ?c ?kw] =>
        destruct (mn c kw) as [[[fs' attrs'] priv']|e]; reflexivity
    end.
  - vm_compute. reflexivity.
Qed.



(** ** The identity visitor *)

Lemma for_each_Forall2 {W A B} (f : A -> M W B) l rs :
  Forall2 (fun o r => forall s, f o s = Ret (r, s)) l rs ->
  forall s, for_each f l s = Ret (rs, s).
Proof.
  induction 1 as [|o r l rs Ho _ IH]; intros s; [reflexivity|].
  cbn [for_each]. unfold bind. rewrite Ho, IH. reflexivity.
Qed.

Lemma for_each_map {W A B} (g : A -> M W B) (h : A -> B) l :
  (forall o, o ∈ l -> forall s, g o s = Ret (h o, s)) ->
  forall s, for_each g l s = Ret (map h l, s).
Proof.
  intros Hg. apply for_each_Forall2.
  induction l as [|o l IH]; constructor.
  - apply Hg. left.
  - apply IH. intros o' Ho'. apply Hg. now right.
Qed.

Lemma height_elem l o : o ∈ l -> (height o <= max_list (map height l))%nat.
Proof.
  intros Hin. apply max_list_elem_of_le, list_elem_of_fmap. now exists o.
Qed.

Lemma height_attr (attrs : list (string * value)) f v :
  dict_get f attrs = Some v ->
  (height v <= max_list (map (fun kv => height (snd kv)) attrs))%nat.
Proof.
  intros Hget. apply dict_get_Some_elem in Hget.
  apply max_list_elem_of_le, list_elem_of_fmap. now exists (f, v).
Qed.

Lemma height_attr_elem (attrs : list (string * value)) kv :
  kv ∈ attrs ->
  (height (snd kv) <= max_list (map (fun kv => height (snd kv)) attrs))%nat.
Proof.
  intros Hin. apply max_list_elem_of_le, list_elem_of_fmap. now exists kv.
Qed.

Lemma height_item (kvs : list (value * value)) kv :
  kv ∈ kvs ->
  (Nat.max (height (fst kv)) (height (snd kv))
   <= max_list (map (fun kv => Nat.max (height (fst kv)) (height (snd kv)))
                    kvs))%nat.
Proof.
  intros Hin. apply max_list_elem_of_le, list_elem_of_fmap. now exists kv.
Qed.

Lemma mapM_dict_get_elem (attrs : list (string * value)) fields values v :
  mapM (fun f => dict_get f attrs) fields = Some values ->
  v ∈ values ->
  exists f, f ∈ fields /\ dict_get f attrs = Some v.
Proof.
  intros Hm Hv. apply mapM_Some in Hm.
  induction Hm as [|f v' fields values Hf _ IH]; [inversion Hv|].
  apply elem_of_cons in Hv as [->|Hv].
  - exists f. split; [left|exact Hf].
  - destruct (IH Hv) as (f' & Hin & Hget). exists f'. split; [now right|exact Hget].
Qed.

(** The attributes of an instance, read in the order of their names. *)
Lemma mapM_attrs (attrs : list (string * value)) :
  NoDup (map fst attrs) ->
  mapM (fun f => dict_get f attrs) (map fst attrs) = Some (map snd attrs).
Proof.
  intros Hnd. apply mapM_Some. apply Forall2_fmap, Forall_Forall2_diag.
  apply Forall_forall. intros [f v] Hin. now apply dict_get_elem_nodup.
Qed.

Lemma zip_fst_map {A B C} (h : B -> C) (l : list (A * B)) :
  zip (map fst l) (map h (map snd l)) = map (fun kv => (fst kv, h (snd kv))) l.
Proof. induction l as [|[a b] l IH]; [reflexivity|]. cbn. now rewrite IH. Qed.

(** The attributes of the fields are read and visited in turn. *)
Lemma for_each_getattr {W} (nested : value -> M W value) attrs fields values :
  mapM (fun f => dict_get f attrs) fields = Some values ->
  forall s,
    for_each (fun f => let* a := lift (getattr attrs f) in nested a) fields s
    = for_each nested values s.
Proof.
  intros Hm. apply mapM_Some in Hm.
  induction Hm as [|f v fields values Hf _ IH]; intros s; [reflexivity|].
  cbn [for_each]. unfold bind, lift, getattr. rewrite Hf.
  destruct (nested v s) as [[r s1]| |]; try reflexivity.
  unfold bind, lift, getattr in IH. now rewrite IH.
Qed.

Section Identity.
Context {W : Type}.
Variable dataclass_new :
  dataclass_type -> list (string * value) -> res (list (string * value)).
Variable model_new :
  model_type -> list (string * value) ->
  res (list string * list (string * value) * list (string * value)).

Abbreviation visit_id :=
  (visit_collection dataclass_new model_new
     (pure_visitor (W := W) (fun x => x))).

Lemma visit_expression_id ctx x (s : state W) :
  visit_expression (pure_visitor (fun x => x)) ctx x s = Ret ((x, ctx), s).
Proof. destruct s, ctx; reflexivity. Qed.

Lemma visit_rebuilt fuel :
  forall x d (s : state W),
    plain dataclass_new model_new x ->
    (height x < fuel)%nat -> (d < 0)%Z ->
    visit_id fuel x true d None s = Ret ((rebuilt x, None), s).
Proof.
  induction fuel as [|fuel IH]; intros x d s Hx Hh Hd; [lia|].
  rewrite (visit_collection_step dataclass_new model_new _ fuel x true d None
             s x None s ltac:(lia) (visit_expression_id None x s)).
  cbn [orb].
  set (nested := fun o : value =>
         let* r := visit_id fuel o true (d - 1)%Z None in ret (fst r)).
  assert (Hn : forall o, plain dataclass_new model_new o ->
                 (height o < fuel)%nat ->
                 forall s', nested o s' = Ret (rebuilt o, s')).
  { intros o Ho Hho s'. unfold nested, bind. rewrite IH by (assumption || lia).
    reflexivity. }
  assert (Hl : forall l, Forall (plain dataclass_new model_new) l ->
                 (max_list (map height l) < fuel)%nat ->
                 forall s', for_each nested l s' = Ret (map rebuilt l, s')).
  { intros l Hpl Hhl. apply for_each_map.
    rewrite Forall_forall in Hpl. intros o Ho. apply Hn; [auto|].
    pose proof (height_elem l o Ho). lia. }
  assert (Ha : forall attrs fields,
                 NoDup fields -> map fst attrs = fields ->
                 Forall (fun kv => plain dataclass_new model_new (snd kv))
                        attrs ->
                 (max_list (map (fun kv => height (snd kv)) attrs) < fuel)%nat ->
                 forall s',
                   for_each (fun f => let* a := lift (getattr attrs f) in
                                      nested a) fields s'
                   = Ret (map rebuilt (map snd attrs), s')).
  { intros attrs fields Hnd Hkeys Hpl Hha s'. subst fields.
    rewrite (for_each_getattr nested attrs _ _ (mapM_attrs attrs Hnd)).
    apply for_each_map. intros v Hv.
    apply list_elem_of_fmap in Hv as (kv & -> & Hkv).
    rewrite Forall_forall in Hpl. apply Hn; [auto|].
    pose proof (height_attr_elem attrs kv Hkv). lia. }
  inversion Hx as [v Hv|id|l Hl'|l Hl'|l Hnd Hl'|kind kvs Hnd Hkvs
                   |cls attrs Hnd Hkeys Hattrs Hnew
                   |cls fs attrs priv Hkeys Hattrs Hnew
                   |v Hv|kind v Hv]; subst x; cbn [height] in Hh.
  - destruct v; try discriminate; reflexivity.
  - reflexivity.
  - cbn [visit_items]. unfold bind. rewrite Hl by (assumption || lia).
    reflexivity.
  - cbn [visit_items]. unfold bind. rewrite Hl by (assumption || lia).
    reflexivity.
  - cbn [visit_items]. unfold bind. rewrite Hl by (assumption || lia).
    unfold ret. cbn [rebuilt]. now rewrite set_of_items_nodup.
  - cbn [visit_items]. unfold bind at 1.
    rewrite (for_each_map _ (fun kv => (rebuilt (fst kv), rebuilt (snd kv)))).
    + unfold ret. cbn [rebuilt]. rewrite dict_of_items_nodup; [reflexivity|].
      now rewrite map_map.
    + intros [k v] Hin s'. rewrite Forall_forall in Hkvs.
      destruct (Hkvs _ Hin) as [Hk Hv]. cbn [fst snd] in *.
      pose proof (height_item kvs (k, v) Hin) as Hle. cbn [fst snd] in Hle.
      unfold bind. rewrite !Hn by (assumption || lia). reflexivity.
  - cbn [visit_items]. unfold bind at 1.
    rewrite (Ha attrs (dc_fields cls) Hnd Hkeys Hattrs ltac:(lia)).
    rewrite <- Hkeys, zip_fst_map.
    assert (Hk' : map fst (map (fun kv : string * value =>
                                  (fst kv, rebuilt (snd kv))) attrs)
                  = dc_fields cls).
    { rewrite map_map. cbn [fst]. exact Hkeys. }
    rewrite dict_of_items_nodup by (rewrite Hk'; exact Hnd).
    unfold bind, lift. rewrite (Hnew _ Hk'). reflexivity.
  - cbn [visit_items]. unfold bind at 1.
    rewrite (Ha attrs (model_fields cls fs) (NoDup_model_fields cls fs)
               Hkeys Hattrs ltac:(lia)).
    destruct (Hnew (map rebuilt (map snd attrs))) as (private0 & Hmn & Hres).
    { now rewrite !length_map. }
    unfold bind, lift. rewrite Hmn. cbn [fst snd]. rewrite Hres.
    unfold ret. cbn [rebuilt]. rewrite <- Hkeys at 2. now rewrite zip_fst_map.
  - cbn [visit_items]. rewrite Hn by (assumption || lia). reflexivity.
  - cbn [visit_items]. unfold bind. rewrite Hn by (assumption || lia).
    reflexivity.
Qed.
End Identity.

(** A value without [revisit], whose models have all their traversed
    fields in [__fields_set__], is rebuilt as it is. *)
Lemma rebuilt_settled n :
  forall x, (height x < n)%nat -> settled x = true -> rebuilt x = x.
Proof.
  induction n as [|n IH]; intros x Hh Hs; [lia|].
  assert (Hl : forall l, (max_list (map height l) < n)%nat ->
                 forallb settled l = true -> map rebuilt l = l).
  { intros l Hhl Hsl. rewrite <- (map_id l) at 2. apply map_ext_in.
    intros o Ho. apply list_elem_of_In in Ho.
    apply IH.
    - pose proof (height_elem l o Ho). lia.
    - rewrite forallb_forall in Hsl. apply Hsl. now apply list_elem_of_In. }
  assert (Ha : forall attrs : list (string * value),
                 (max_list (map (fun kv => height (snd kv)) attrs) < n)%nat ->
                 forallb (fun kv => settled (snd kv)) attrs = true ->
                 map (fun kv => (fst kv, rebuilt (snd kv))) attrs = attrs).
  { intros attrs Hha Hsa. rewrite <- (map_id attrs) at 2. apply map_ext_in.
    intros [f v] Hin. apply list_elem_of_In in Hin. cbn [fst snd]. f_equal.
    apply IH.
    - pose proof (height_attr_elem attrs (f, v) Hin). cbn [snd] in *. lia.
    - rewrite forallb_forall in Hsa.
      apply (Hsa (f, v)). now apply list_elem_of_In. }
  destruct x; cbn [height settled rebuilt] in *; try reflexivity;
    try discriminate.
  - now rewrite Hl by (assumption || lia).
  - now rewrite Hl by (assumption || lia).
  - now rewrite Hl by (assumption || lia).
  - f_equal. rewrite <- (map_id items) at 2. apply map_ext_in.
    intros [k v] Hin. apply list_elem_of_In in Hin. cbn [fst snd].
    rewrite forallb_forall in Hs.
    specialize (Hs (k, v) ltac:(now apply list_elem_of_In)).
    cbn [fst snd] in Hs. apply andb_true_iff in Hs as [Hk Hv].
    pose proof (height_item items (k, v) Hin) as Hle. cbn [fst snd] in Hle.
    now rewrite !IH by (assumption || lia).
  - now rewrite Ha by (assumption || lia).
  - apply andb_true_iff in Hs as [Hfs Hs].
    apply bool_decide_eq_true_1 in Hfs. rewrite Hfs.
    now rewrite Ha by (assumption || lia).
  - f_equal. apply IH; [lia|exact Hs].
Qed.

(** The generated [__init__] of a dataclass stores the keywords it is
    called with, when there is one for each field. *)
Lemma dataclass_init_stores cls kwargs :
  NoDup (dc_fields cls) ->
  map fst kwargs = dc_fields cls ->
  dataclass_init cls kwargs = Ok kwargs.
Proof.
  intros Hnd Hkeys. unfold dataclass_init.
  assert (Hfind : find (fun kv : string * value =>
                          bool_decide (fst kv ∉ dc_fields cls)) kwargs = None).
  { assert (Hall : forall kv, kv ∈ kwargs -> fst kv ∈ dc_fields cls).
    { intros kv Hin. rewrite <- Hkeys. apply list_elem_of_fmap. now exists kv. }
    clear Hkeys Hnd. induction kwargs as [|kv kwargs IHk]; [reflexivity|].
    cbn [find]. rewrite bool_decide_eq_false_2.
    - apply IHk. intros kv' Hin. apply Hall. now right.
    - intros Hk. apply Hk, Hall. left. }
  rewrite Hfind. rewrite <- Hkeys in Hnd |- *.
  assert (Hgo : forall l : list (string * value),
            (forall kv, kv ∈ l -> dict_get (fst kv) kwargs = Some (snd kv)) ->
            (fix go (fs : list string) : res (list (string * value)) :=
               match fs with
               | [] => Ok []
               | f :: fs' =>
                   match dict_get f kwargs with
                   | None =>
                       Err (Exn "TypeError"
                              ("missing required argument " ++ f))
                   | Some v =>
                       match go fs' with
                       | Ok l => Ok ((f, v) :: l)
                       | Err e => Err e
                       end
                   end
               end) (map fst l) = Ok l).
  { induction l as [|[f v] l IHl]; intros Hl; [reflexivity|].
    cbn [map fst]. pose proof (Hl (f, v) ltac:(left)) as Hf.
    cbn [fst snd] in Hf. rewrite Hf.
    rewrite IHl; [reflexivity|]. intros kv Hin. apply Hl. now right. }
  apply Hgo. intros [f v] Hin. now apply dict_get_elem_nodup.
Qed.

(** C2, as stated, fails, for a dataclass record, a pydantic record and a
    wrapper.  (1) The dataclass [Scaled] has an init-only pseudo-field:
    its class cannot be called with the fields alone, and the visit of an
    instance raises.  (2) The tracked record [{x: 1 (explicit), y: 2
    (default)}] comes back with [y] in [__fields_set__] as well: the class
    is called with a keyword for every traversed field.  (3) [revisit(1)]
    comes back as [1]. *)
Lemma C2_counterexample :
  visit_collection dataclass_init_scaled pydantic_init
    (pure_visitor (fun x => x)) 3 scaled_instance true (-1) None (State ∅ tt)
  = Raise (Exn "TypeError"
             "__init__() missing 1 required positional argument: 'scale'")
  /\ (exists r,
        visit_collection dataclass_init pydantic_init
          (pure_visitor (fun x => x)) 3 record_xy true (-1) None (State ∅ tt)
        = Ret ((r, None), State ∅ tt)
        /\ r = VModel model_xy ["x"; "y"] [("x", VInt 1); ("y", VInt 2)]
                 [("_z", VInt 99)]
        /\ r <> record_xy)
  /\ (exists r,
        visit_collection dataclass_init pydantic_init
          (pure_visitor (fun x => x)) 3 (VRevisit (VInt 1)) true (-1) None
          (State ∅ tt)
        = Ret ((r, None), State ∅ tt)
        /\ r = VInt 1
        /\ r <> VRevisit (VInt 1)).
Proof.
  split; [vm_compute; reflexivity|]. split.
  - eexists. split; [vm_compute; reflexivity|].
    split; [reflexivity|discriminate].
  - eexists. split; [vm_compute; reflexivity|].
    split; [reflexivity|discriminate].
Qed.

(** C2, amended.  Under the visitor that returns its argument, for every
    [plain] value [x] (built from atoms, mocks, lists, tuples, sets, dicts
    and OrderedDicts, dataclass instances, pydantic models, annotations
    and [revisit], where the classes of the instances store what they are
    called with), the call [visit_collection(x, identity,
    return_data=True)] returns, with any fuel above the height of [x],
    the value [rebuilt x]: [x] without its [revisit] wrappers and with all
    the traversed fields in the [__fields_set__] of every model, the same
    elements in the same order and of the same concrete type at every
    level; the state is left as it was.  So it returns a value equal to
    [x] when [x] holds no [revisit] and the models in it have all their
    traversed fields in [__fields_set__]. *)
Theorem C2_identity :
  forall W dn mn x fuel (s : state W),
    plain dn mn x ->
    (height x < fuel)%nat ->
    visit_collection dn mn (pure_visitor (fun x => x)) fuel x true (-1) None s
    = Ret ((rebuilt x, None), s)
    /\ (settled x = true ->
        visit_collection dn mn (pure_visitor (fun x => x)) fuel x true (-1)
          None s
        = Ret ((x, None), s)).
Proof.
  intros W dn mn x fuel s Hx Hfuel.
  assert (H : visit_collection dn mn (pure_visitor (fun x => x)) fuel x true
                (-1) None s = Ret ((rebuilt x, None), s))
    by (apply visit_rebuilt; [assumption..|lia]).
  split; [exact H|].
  intros Hs. now rewrite H, (rebuilt_settled fuel x Hfuel Hs).
Qed.

(** [dataclass_init] and [pydantic_init] store what they are called with,
    on the classes of [sample_value] and of the tracked record. *)
Lemma sample_value_plain :
  plain dataclass_init pydantic_init
    (VList [sample_value; record_xy; VRevisit (VInt 1)]).
Proof.
  assert (Hmodel : forall fields_set,
            model_fields model_xy fields_set = ["x"; "y"] ->
            plain dataclass_init pydantic_init
              (VModel model_xy fields_set [("x", VInt 1); ("y", VInt 2)]
                 [("_z", VInt 99)])).
  { intros fields_set Hfs. apply plain_model.
    - now rewrite Hfs.
    - repeat first [apply Forall_nil_2 | apply Forall_cons_2];
        apply plain_atom; reflexivity.
    - rewrite Hfs. intros [|v1 [|v2 [|v3 values]]] Hlen; try discriminate.
      exists []. split; vm_compute; reflexivity. }
  apply plain_list. repeat first [apply Forall_nil_2 | apply Forall_cons_2].
  - apply plain_list. repeat first [apply Forall_nil_2 | apply Forall_cons_2].
    + apply plain_tuple.
      repeat first [apply Forall_nil_2 | apply Forall_cons_2];
        apply plain_atom; reflexivity.
    + apply plain_set.
      * apply (bool_decide_unpack _). vm_compute. exact I.
      * repeat first [apply Forall_nil_2 | apply Forall_cons_2];
          apply plain_atom; reflexivity.
    + apply plain_dict.
      * apply (bool_decide_unpack _). vm_compute. exact I.
      * repeat first [apply Forall_nil_2 | apply Forall_cons_2]. split.
        -- apply plain_atom; reflexivity.
        -- apply plain_annot, plain_mock.
    + apply plain_data.
      * apply (bool_decide_unpack _). vm_compute. exact I.
      * reflexivity.
      * repeat first [apply Forall_nil_2 | apply Forall_cons_2];
          apply plain_atom; reflexivity.
      * intros kwargs Hkeys. apply dataclass_init_stores; [|exact Hkeys].
        apply (bool_decide_unpack _). vm_compute. exact I.
    + apply Hmodel. vm_compute. reflexivity.
  - apply Hmodel. vm_compute. reflexivity.
  - apply plain_revisit, plain_atom. reflexivity.
Qed.

Lemma C2_identity_witness :
  visit_collection dataclass_init pydantic_init (pure_visitor (fun x => x)) 5
    (VList [sample_value; record_xy; VRevisit (VInt 1)]) true (-1) None
    (State ∅ tt)
  = Ret ((rebuilt (VList [sample_value; record_xy; VRevisit (VInt 1)]), None),
         State ∅ tt).
Proof.
  apply (proj1 (C2_identity unit dataclass_init pydantic_init
                  (VList [sample_value; record_xy; VRevisit (VInt 1)]) 5
                  (State ∅ tt) sample_value_plain
                  ltac:(vm_compute; lia))).
Defined.

(** ** Failures *)



(** A list comprehension raises what the call on its first failing item
    raises. *)
Lemma for_each_app_raise {W A B} (f : A -> M W B) pre c post :
  forall s rs s2 e,
    for_each f pre s = Ret (rs, s2) -> f c s2 = Raise e ->
    for_each f (pre ++ c :: post)%list s = Raise e.
Proof.
  induction pre as [|a pre IH]; intros s rs s2 e Hpre Hc.
  - cbn in Hpre. injection Hpre as <- <-. cbn [app for_each]. unfold bind.
    now rewrite Hc.
  - cbn [app for_each] in *. unfold bind in *.
    destruct (f a s) as [[r s1]| |]; try discriminate.
    destruct (for_each f pre s1) as [[rs' s3]| |] eqn:Hfe; try discriminate.
    injection Hpre as <- <-.
    pose proof (IH s1 rs' s3 e Hfe Hc) as Hraise. unfold bind in Hraise.
    now rewrite Hraise.
Qed.



(** The comprehension over the items of a dict raises what the visit of
    the keys and values, in turn, raises. *)
Lemma for_each_items_raise {W} (nested : value -> M W value)
    (kvs : list (value * value)) :
  forall s e,
    for_each nested (flat_map (fun kv => [fst kv; snd kv]) kvs) s = Raise e ->
    for_each (fun kv => let* k := nested (fst kv) in
                        let* v := nested (snd kv) in ret (k, v)) kvs s
    = Raise e.
Proof.
  induction kvs as [|[k v] kvs IH]; intros s e H; [discriminate|].
  cbn [flat_map app for_each fst snd] in H |- *. unfold bind in H |- *.
  destruct (nested k s) as [[k' s1]| |]; try discriminate;
    [|now injection H as ->].
  destruct (nested v s1) as [[v' s2]| |]; try discriminate;
    [|now injection H as ->].
  unfold ret in H |- *.
  destruct (for_each nested (flat_map (fun kv => [fst kv; snd kv]) kvs) s2)
    as [[rs s3]|e'|] eqn:Hrest; try discriminate.
  injection H as ->. pose proof (IH s2 e Hrest) as IH'.
  unfold bind, ret in IH'. now rewrite IH'.
Qed.



(** A nested call is on a value of smaller height. *)
Lemma height_children x cs c :
  children x = Some cs -> c ∈ cs -> (height c < height x)%nat.
Proof.
  intros Hcs Hc. destruct x; cbn [children height] in *;
    try (injection Hcs as <-); try discriminate;
    try (now inversion Hc).
  - pose proof (height_elem _ _ Hc). lia.
  - pose proof (height_elem _ _ Hc). lia.
  - pose proof (height_elem _ _ Hc). lia.
  - apply list_elem_of_In in Hc. apply in_flat_map in Hc as (kv & Hkv & Hin).
    apply list_elem_of_In in Hkv.
    pose proof (height_item _ _ Hkv) as Hle.
    destruct Hin as [<-|[<-|[]]]; lia.
  - destruct (mapM_dict_get_elem _ _ _ _ Hcs Hc) as (f & _ & Hget).
    pose proof (height_attr _ _ _ Hget). lia.
  - destruct (mapM_dict_get_elem _ _ _ _ Hcs Hc) as (f & _ & Hget).
    pose proof (height_attr _ _ _ Hget). lia.
  - apply list_elem_of_singleton in Hc as ->. lia.
  - apply list_elem_of_singleton in Hc as ->. lia.
Qed.

Section Propagation.
Context {W : Type}.
Variable dataclass_new :
  dataclass_type -> list (string * value) -> res (list (string * value)).
Variable model_new :
  model_type -> list (string * value) ->
  res (list string * list (string * value) * list (string * value)).
Variable visit_fn : visitor W.

Abbreviation visit_p := (visit_collection dataclass_new model_new visit_fn).

(** What the nested calls raise, the visit of the children raises. *)
Lemma visit_items_children fuel (nested : value -> M W value) rd b r cs s e :
  children b = Some cs ->
  for_each nested cs s = Raise e ->
  visit_items dataclass_new model_new fuel nested rd b r s = Raise e.
Proof.
  intros Hcs Hraise.
  destruct b; cbn [children] in Hcs; try discriminate;
    try (injection Hcs as <-); try discriminate; cbn [visit_items].
  - unfold bind. now rewrite Hraise.
  - unfold bind. now rewrite Hraise.
  - unfold bind. now rewrite Hraise.
  - unfold bind at 1. now rewrite (for_each_items_raise nested _ s e Hraise).
  - unfold bind at 1.
    now rewrite (for_each_getattr nested _ _ _ Hcs), Hraise.
  - unfold bind at 1.
    now rewrite (for_each_getattr nested _ _ _ Hcs), Hraise.
  - cbn [for_each] in Hraise. unfold bind in Hraise.
    destruct (nested b s) as [[x s1]| |]; try discriminate.
    now injection Hraise as ->.
  - cbn [for_each] in Hraise. unfold bind in Hraise |- *.
    destruct (nested b s) as [[x s1]| |]; try discriminate.
    now injection Hraise as ->.
Qed.

(** One level: the exception of the first nested call that raises is the
    exception of the call. *)
Lemma visit_child_raises fuel expr rd d ctx s r ctx' s1 pre c post rs s2 e :
  d <> 0%Z ->
  visit_expression visit_fn ctx expr s = Ret ((r, ctx'), s1) ->
  children (basis rd expr r) = Some (pre ++ c :: post)%list ->
  for_each (fun o => let* x := visit_p fuel o rd (d - 1)%Z ctx' in
                     ret (fst x)) pre s1 = Ret (rs, s2) ->
  visit_p fuel c rd (d - 1)%Z ctx' s2 = Raise e ->
  visit_p (S fuel) expr rd d ctx s = Raise e.
Proof.
  intros Hd Hv Hcs Hpre Hc.
  rewrite (visit_collection_step dataclass_new model_new visit_fn fuel expr
             rd d ctx s _ _ _ Hd Hv).
  rewrite (visit_items_children _ _ rd _ r (pre ++ c :: post)%list s1 e Hcs);
    [reflexivity|].
  apply (for_each_app_raise _ pre c post s1 rs s2 e Hpre).
  unfold bind. now rewrite Hc.
Qed.

(** The exception of the class of a dataclass is the exception of the
    call on the instance. *)
Lemma visit_data_raises fuel expr d ctx s cls attrs ctx' s1 values s2 e :
  d <> 0%Z ->
  visit_expression visit_fn ctx expr s = Ret ((VData cls attrs, ctx'), s1) ->
  for_each (fun f => let* a := lift (getattr attrs f) in
                     let* x := visit_p fuel a true (d - 1)%Z ctx' in
                     ret (fst x)) (dc_fields cls) s1 = Ret (values, s2) ->
  dataclass_new cls (dict_of_items (zip (dc_fields cls) values)) = Err e ->
  visit_p (S fuel) expr true d ctx s = Raise e.
Proof.
  intros Hd Hv Hfields Hnew.
  rewrite (visit_collection_step dataclass_new model_new visit_fn fuel expr
             true d ctx s _ _ _ Hd Hv).
  cbn [orb visit_items]. unfold bind at 1. rewrite Hfields.
  unfold bind, lift. now rewrite Hnew.
Qed.

(** The same for a pydantic model. *)
Lemma visit_model_raises fuel expr d ctx s cls fs attrs priv ctx' s1 values
    s2 e :
  d <> 0%Z ->
  visit_expression visit_fn ctx expr s
    = Ret ((VModel cls fs attrs priv, ctx'), s1) ->
  for_each (fun f => let* a := lift (getattr attrs f) in
                     let* x := visit_p fuel a true (d - 1)%Z ctx' in
                     ret (fst x)) (model_fields cls fs) s1
    = Ret (values, s2) ->
  model_new cls
    (dict_of_items
       (map (fun kv => (keyword cls (fst kv), snd kv))
            (zip (model_fields cls fs) values))) = Err e ->
  visit_p (S fuel) expr true d ctx s = Raise e.
Proof.
  intros Hd Hv Hfields Hnew.
  rewrite (visit_collection_step dataclass_new model_new visit_fn fuel expr
             true d ctx s _ _ _ Hd Hv).
  cbn [orb visit_items]. unfold bind at 1. rewrite Hfields.
  unfold bind, lift. now rewrite Hnew.
Qed.

End Propagation.

Section Failures.
Context {W : Type}.
Variable dataclass_new :
  dataclass_type -> list (string * value) -> res (list (string * value)).
Variable model_new :
  model_type -> list (string * value) ->
  res (list string * list (string * value) * list (string * value)).

Abbreviation visit_i :=
  (visit_collection dataclass_new model_new
     (pure_visitor (W := W) (fun x => x))).




(** The exception of the first record whose class raises is the exception
    of the call, at whatever depth the record is. *)
Lemma visit_first_failure e x :
  first_failure dataclass_new model_new e x ->
  forall fuel d (s : state W),
    (height x < fuel)%nat -> (d < 0)%Z ->
    visit_i fuel x true d None s = Raise e.
Proof.
  assert (Hvals : forall fuel d values (s : state W),
            Forall (plain dataclass_new model_new) values ->
            (forall o, o ∈ values -> (height o < fuel)%nat) -> (d < 0)%Z ->
            for_each (fun o => let* x := visit_i fuel o true d None in
                               ret (fst x)) values s
            = Ret (map rebuilt values, s)).
  { intros fuel d values s Hpl Hh Hd. apply for_each_map.
    rewrite Forall_forall in Hpl. intros o Ho s'. unfold bind.
    rewrite visit_rebuilt; [reflexivity|auto|auto|exact Hd]. }
  induction 1 as [cls attrs values Hm Hpl Hnew
                 |cls fs attrs priv values Hm Hpl Hnew
                 |x pre c post Hcs Hpre Hc IH];
    intros fuel d s Hh Hd; (destruct fuel as [|fuel]; [lia|]).
  - apply (visit_data_raises dataclass_new model_new _ fuel _ d None s cls
             attrs None s (map rebuilt values) s);
      [lia|apply visit_expression_id| |exact Hnew].
    rewrite (for_each_getattr _ attrs _ _ Hm).
    apply Hvals; [exact Hpl| |lia].
    intros o Ho. destruct (mapM_dict_get_elem _ _ _ _ Hm Ho) as (f & _ & Hget).
    pose proof (height_attr attrs f o Hget). cbn [height] in Hh. lia.
  - apply (visit_model_raises dataclass_new model_new _ fuel _ d None s cls
             fs attrs priv None s (map rebuilt values) s);
      [lia|apply visit_expression_id| |exact Hnew].
    rewrite (for_each_getattr _ attrs _ _ Hm).
    apply Hvals; [exact Hpl| |lia].
    intros o Ho. destruct (mapM_dict_get_elem _ _ _ _ Hm Ho) as (f & _ & Hget).
    pose proof (height_attr attrs f o Hget). cbn [height] in Hh. lia.
  - assert (Hlt : forall o, o ∈ (pre ++ c :: post)%list -> (height o < fuel)%nat).
    { intros o Ho. pose proof (height_children x _ o Hcs Ho). lia. }
    apply (visit_child_raises dataclass_new model_new _ fuel x true d None s
             x None s pre c post (map rebuilt pre) s e);
      [lia|apply visit_expression_id|exact Hcs| |].
    + apply Hvals; [exact Hpre| |lia].
      intros o Ho. apply Hlt. apply elem_of_app. now left.
    + apply IH; [|lia]. apply Hlt. apply elem_of_app. right. left.
Qed.
End Failures.

(** The call on an instance of [Scaled], whose class cannot be called
    with the fields alone, raises the exception of the class. *)
Lemma scaled_first_failure :
  first_failure dataclass_init_scaled pydantic_init
    (Exn "TypeError"
       "__init__() missing 1 required positional argument: 'scale'")
    scaled_instance.
Proof.
  apply ff_data with (values := [VInt 1]).
  - reflexivity.
  - repeat constructor.
  - reflexivity.
Qed.

Lemma scaled_never_returns fuel d (s : state unit) r :
  (d < 0)%Z ->
  visit_collection dataclass_init_scaled pydantic_init
    (pure_visitor (fun x => x)) fuel scaled_instance true d None s
  <> Ret r.
Proof.
  intros Hd. destruct fuel as [|[|fuel]].
  - discriminate.
  - rewrite (visit_collection_step dataclass_init_scaled pydantic_init _ 0
               scaled_instance true d None s scaled_instance None s
               ltac:(lia) (visit_expression_id None _ s)).
    discriminate.
  - rewrite (visit_first_failure dataclass_init_scaled pydantic_init _ _
               scaled_first_failure (S (S fuel)) d s);
      [discriminate|cbn; lia|exact Hd].
Qed.




(** ** Batches *)

Section BatchFacts.
Context {A : Type}.
Variable maxsize : Z.
Implicit Types (it : list A) (size : Z).

Lemma batched_next_invalid size it :
  (size < 0 \/ maxsize < size)%Z ->
  exists e,
    Batch.batched_next maxsize size it = Err e /\ exn_type e = "ValueError".
Proof.
  intros Hs. unfold Batch.batched_next, Batch.islice.
  destruct ((size =? -1)%Z || (maxsize <? size)%Z
            || (size <? - maxsize - 1)%Z) eqn:Hstop.
  - eexists. split; reflexivity.
  - destruct (size <? 0)%Z eqn:Hneg.
    + eexists. split; reflexivity.
    + exfalso. apply Z.ltb_ge in Hneg.
      apply orb_false_iff in Hstop as [Hstop _].
      apply orb_false_iff in Hstop as [_ Hmax].
      apply Z.ltb_ge in Hmax. lia.
Qed.

Lemma islice_valid size it :
  (0 <= size <= maxsize)%Z ->
  Batch.islice maxsize it size
  = Ok (take (Z.to_nat size) it, drop (Z.to_nat size) it).
Proof.
  intros Hs. unfold Batch.islice.
  rewrite (proj2 (Z.eqb_neq size (-1))) by lia.
  rewrite (proj2 (Z.ltb_ge maxsize size)) by lia.
  rewrite (proj2 (Z.ltb_ge size (- maxsize - 1))) by lia.
  cbn [orb]. now rewrite (proj2 (Z.ltb_ge size 0)) by lia.
Qed.

Lemma batched_next_zero it :
  (0 <= maxsize)%Z -> Batch.batched_next maxsize 0 it = Ok None.
Proof.
  intros Hm. unfold Batch.batched_next. rewrite islice_valid by lia.
  cbn. now rewrite take_0.
Qed.

Lemma batched_next_positive size it :
  (0 < size <= maxsize)%Z ->
  Batch.batched_next maxsize size it =
  match it with
  | [] => Ok None
  | _ :: _ => Ok (Some (take (Z.to_nat size) it, drop (Z.to_nat size) it))
  end.
Proof.
  intros Hs. unfold Batch.batched_next. rewrite islice_valid by lia.
  destruct it as [|x it]; [now rewrite take_nil|].
  destruct (Z.to_nat size) as [|n] eqn:Hn; [lia|]. reflexivity.
Qed.

Lemma batched_iterable_positive size :
  (0 < size <= maxsize)%Z ->
  forall fuel it,
    (length it < fuel)%nat ->
    exists batches,
      Batch.batched_iterable maxsize fuel it size = Ret batches
      /\ concat batches = it
      /\ Forall (fun b => b <> [] /\ (Z.of_nat (length b) <= size)%Z) batches
      /\ (forall i b, (S i < length batches)%nat -> batches !! i = Some b ->
            Z.of_nat (length b) = size)
      /\ (it = [] -> batches = []).
Proof.
  intros Hs. induction fuel as [|fuel IH]; intros it Hfuel; [lia|].
  cbn [Batch.batched_iterable]. rewrite batched_next_positive by exact Hs.
  destruct it as [|x it].
  - exists []. repeat split; try constructor.
    intros i b Hi. cbn in Hi. lia.
  - set (n := Z.to_nat size). assert (Hn : (1 <= n)%nat) by (unfold n; lia).
    destruct (IH (drop n (x :: it))) as (rest & Hrest & Hcat & Hall & Hfull & Hnil).
    { rewrite length_drop. cbn [length] in *. lia. }
    rewrite Hrest. exists (take n (x :: it) :: rest).
    split; [reflexivity|]. split; [|split; [|split]].
    + cbn [concat]. rewrite Hcat. apply take_drop.
    + constructor; [|exact Hall]. split.
      * destruct n; [lia|]. discriminate.
      * rewrite length_take. unfold n. lia.
    + intros [|i] b Hi Hb; cbn in Hi, Hb.
      * injection Hb as <-. rewrite length_take.
        destruct (decide (length (x :: it) <= n)%nat) as [Hle|Hgt].
        -- rewrite Hnil in Hi; [cbn in Hi; lia|].
           apply drop_ge. exact Hle.
        -- unfold n in *. lia.
      * apply (Hfull i b); [lia|exact Hb].
    + discriminate.
Qed.
End BatchFacts.

(** C8, as stated, fails: with size 0 nothing fails, the generator ends at
    once without a batch; and with the positive size [2^63], on a 64-bit
    build, no batch is yielded: the first [next] raises the [ValueError]
    of [islice]. *)
Lemma C8_counterexample :
  ~ (exists e, Batch.batched_next maxsize64 0 [1; 2; 3]%Z = Err e)
  /\ Batch.batched_iterable maxsize64 1 [1; 2; 3]%Z 0 = Ret []
  /\ exists e,
       Batch.batched_iterable maxsize64 1 [1; 2; 3]%Z (2 ^ 63) = Raise e
       /\ exn_type e = "ValueError".
Proof.
  split; [|split; [reflexivity|]].
  - intros [e He]. discriminate.
  - eexists. split; [vm_compute; reflexivity|reflexivity].
Qed.

(** C8, amended.  [maxsize] is [sys.maxsize].  (1) For a size that is
    negative or above [sys.maxsize] the first [next] on the generator
    raises the [ValueError] of [islice], whatever the iterable.  (2) For
    size 0 it raises nothing and yields nothing.  (3) For a size from 1 to
    [sys.maxsize] one [next] takes the next [size] items of the iterator
    (fewer when it has fewer) and yields them, or ends the generator when
    none is left: the batches, put end to end, are the items of the
    iterable, none is empty or longer than [size], and every batch but the
    last has exactly [size] items.  (4) [batched_iterable([1, 2, 3, 4, 5],
    2)] yields [(1, 2), (3, 4), (5,)]. *)
Theorem C8_batching :
  (forall (A : Type) maxsize (it : list A) size fuel,
     (size < 0 \/ maxsize < size)%Z ->
     exists e,
       exn_type e = "ValueError"
       /\ Batch.batched_next maxsize size it = Err e
       /\ Batch.batched_iterable maxsize (S fuel) it size = Raise e) /\
  (forall (A : Type) maxsize (it : list A) fuel,
     (0 <= maxsize)%Z ->
     Batch.batched_next maxsize 0 it = Ok None
     /\ Batch.batched_iterable maxsize (S fuel) it 0 = Ret []) /\
  (forall (A : Type) maxsize (it : list A) size fuel,
     (0 < size <= maxsize)%Z -> (length it < fuel)%nat ->
     Batch.batched_next maxsize size it =
       match it with
       | [] => Ok None
       | _ :: _ =>
           Ok (Some (take (Z.to_nat size) it, drop (Z.to_nat size) it))
       end
     /\ exists batches,
          Batch.batched_iterable maxsize fuel it size = Ret batches
          /\ concat batches = it
          /\ Forall (fun b => b <> [] /\ (Z.of_nat (length b) <= size)%Z)
                    batches
          /\ (forall i b,
                (S i < length batches)%nat -> batches !! i = Some b ->
                Z.of_nat (length b) = size)) /\
  (forall maxsize,
     (2 <= maxsize)%Z ->
     Batch.batched_iterable maxsize 4 [1; 2; 3; 4; 5]%Z 2
     = Ret [[1; 2]; [3; 4]; [5]]%Z).
Proof.
  split; [|split; [|split]].
  - intros A maxsize it size fuel Hs.
    destruct (batched_next_invalid maxsize size it Hs) as (e & He & Ht).
    exists e. split; [exact Ht|]. split; [exact He|].
    cbn [Batch.batched_iterable]. now rewrite He.
  - intros A maxsize it fuel Hm. split; [now apply batched_next_zero|].
    cbn [Batch.batched_iterable]. now rewrite batched_next_zero.
  - intros A maxsize it size fuel Hs Hfuel. split.
    + now apply batched_next_positive.
    + destruct (batched_iterable_positive maxsize size Hs fuel it Hfuel)
        as (batches & H1 & H2 & H3 & H4 & _).
      exists batches. auto.
  - intros maxsize Hm.
    repeat (cbn [Batch.batched_iterable];
            rewrite batched_next_positive by lia;
            change (Z.to_nat 2) with 2%nat; cbn [take drop]).
    reflexivity.
Qed.

Lemma C8_batching_witness :
  exists batches,
    Batch.batched_iterable maxsize64 6 [1; 2; 3; 4; 5]%Z 2 = Ret batches
    /\ concat batches = [1; 2; 3; 4; 5]%Z.
Proof.
  destruct C8_batching as (_ & _ & H & _).
  destruct (H Z maxsize64 [1; 2; 3; 4; 5]%Z 2%Z 6%nat
              ltac:(unfold maxsize64; lia) ltac:(cbn; lia))
    as (_ & batches & H1 & H2 & _).
  exists batches. split; assumption.
Defined.

(** ** Flattened dictionaries *)

Import Flatdict.

Lemma dict_of_items_keys {K V} `{EqDecision K} (k : K)
    (items : list (K * V)) :
  k ∈ map fst (dict_of_items items) -> k ∈ map fst items.
Proof.
  intros Hk. apply fold_dict_set_keys in Hk as [Hk|Hk];
    [inversion Hk|exact Hk].
Qed.

Lemma dict_set_same {K V} `{EqDecision K} (k : K) (v : V) d :
  dict_get k d = Some v -> dict_set k v d = d.
Proof.
  induction d as [|[k' v'] d IH]; cbn; [discriminate|].
  destruct (decide (k' = k)) as [->|Hne].
  - now intros [= ->].
  - intros Hget. now rewrite IH.
Qed.

Lemma dict_set_set {K V} `{EqDecision K} (k : K) (v1 v2 : V) d :
  dict_set k v2 (dict_set k v1 d) = dict_set k v2 d.
Proof.
  induction d as [|[k' v'] d IH]; cbn.
  - now rewrite decide_True.
  - destruct (decide (k' = k)) as [->|Hne]; cbn.
    + now rewrite decide_True.
    + rewrite decide_False by exact Hne. now rewrite IH.
Qed.

Section FlatdictFacts.
Context {K A : Type} `{EqDecision K} `{EqDecision A} `{!LeafInsert K A}.
Implicit Types (v : nested K A) (kvs : list (K * nested K A))
         (p q : list K) (typ kind : dict_kind).

Lemma nested_ind' (P : nested K A -> Prop) :
  (forall a, P (Leaf a)) ->
  (forall kind kvs, Forall (fun kv => P (snd kv)) kvs -> P (Dict kind kvs)) ->
  forall v, P v.
Proof.
  intros HL HD. fix IH 1. intros [a|kind kvs]; [apply HL|].
  apply HD. induction kvs as [|[k v] kvs IHk]; constructor;
    [apply IH|exact IHk].
Qed.

Lemma wf_Dict kind kvs :
  wf (Dict kind kvs)
  <-> NoDup (map fst kvs) /\ Forall (fun kv => wf (snd kv)) kvs.
Proof.
  cbn [wf]. apply and_iff_compat_l.
  induction kvs as [|[k v] kvs IH]; [split; constructor|].
  rewrite Forall_cons, <- IH. reflexivity.
Qed.

Lemma uniform_Dict typ kind kvs :
  uniform typ (Dict kind kvs)
  <-> (kvs = [] \/ kind = typ) /\ Forall (fun kv => uniform typ (snd kv)) kvs.
Proof.
  cbn [uniform]. apply and_iff_compat_l.
  induction kvs as [|[k v] kvs IH]; [split; constructor|].
  rewrite Forall_cons, <- IH. reflexivity.
Qed.

Lemma collect_items_cons p kind k v kvs :
  collect_items p (Dict kind ((k, v) :: kvs))
  = (item_entries p (k, v) ++ collect_items p (Dict kind kvs))%list.
Proof.
  unfold item_entries. cbn [collect_items fst snd].
  destruct v as [a|kd [|kv sub]]; reflexivity.
Qed.

Lemma collect_items_nil p kind :
  collect_items p (Dict kind [] : nested K A) = [].
Proof. reflexivity. Qed.

(** Every collected path extends [p] by a key of the dict and goes on. *)
Lemma collect_items_paths v :
  forall p q x,
    (q, x) ∈ collect_items p v ->
    exists k rest,
      q = (p ++ k :: rest)%list
      /\ match v with
         | Dict _ kvs => k ∈ map fst kvs
         | Leaf _ => False
         end.
Proof.
  induction v as [a|kind kvs IH] using nested_ind'; intros p q x Hin.
  - inversion Hin.
  - induction kvs as [|[k v] kvs IHk]; [inversion Hin|].
    rewrite collect_items_cons in Hin. apply elem_of_app in Hin as [Hin|Hin].
    + apply Forall_cons in IH as [IHv _]. cbn [snd] in IHv.
      unfold item_entries in Hin. cbn [fst snd] in Hin.
      assert (Hleaf : (q, x) ∈ [((p ++ [k])%list, v)] ->
                exists k0 rest, q = (p ++ k0 :: rest)%list
                  /\ k0 ∈ map fst ((k, v) :: kvs)).
      { intros H1. apply list_elem_of_singleton in H1. injection H1 as -> _.
        exists k, []. split; [reflexivity|left]. }
      destruct v as [a|kd [|kv sub]]; [now apply Hleaf..|].
      assert (Hq : q ∈ map fst (collect_items (p ++ [k]) (Dict kd (kv :: sub)))).
      { apply dict_of_items_keys, list_elem_of_fmap. now exists (q, x). }
      apply list_elem_of_fmap in Hq as ([q' x'] & Hq' & Hin'). cbn in Hq'. subst q'.
      destruct (IHv _ _ _ Hin') as (k0 & rest & -> & _).
      exists k, (k0 :: rest). split; [now rewrite <- app_assoc|left].
    + apply Forall_cons in IH as [_ IHkvs].
      destruct (IHk IHkvs Hin) as (k0 & rest & -> & Hk0).
      exists k0, rest. split; [reflexivity|now right].
Qed.

(** The collected paths of a dict with distinct keys are distinct. *)
Lemma collect_items_NoDup v :
  wf v -> forall p, NoDup (map fst (collect_items p v)).
Proof.
  induction v as [a|kind kvs IH] using nested_ind'; intros Hwf p;
    [constructor|].
  apply wf_Dict in Hwf as [Hnd Hwf].
  induction kvs as [|[k v] kvs IHk]; [constructor|].
  apply Forall_cons in IH as [IHv IHkvs].
  apply Forall_cons in Hwf as [Hv Hkvs]. cbn [snd] in IHv, Hv.
  cbn [map fst] in Hnd. apply NoDup_cons in Hnd as [Hk Hnd].
  rewrite collect_items_cons, map_app. apply NoDup_app. split; [|split].
  - unfold item_entries. cbn [fst snd].
    destruct v as [a|kd [|kv sub]]; try (apply NoDup_singleton).
    rewrite dict_of_items_nodup by now apply IHv. now apply IHv.
  - intros q Hq1 Hq2.
    apply list_elem_of_fmap in Hq2 as ([q2 x2] & Hq2 & Hin2). cbn in Hq2.
    subst q2.
    destruct (collect_items_paths _ _ _ _ Hin2) as (k2 & rest2 & -> & Hk2).
    assert (Hq : exists rest, (p ++ k2 :: rest2 = p ++ k :: rest)%list).
    { unfold item_entries in Hq1. cbn [fst snd] in Hq1.
      assert (Hleaf : (p ++ k2 :: rest2)%list ∈ map fst [((p ++ [k])%list, v)]
                      -> exists rest, (p ++ k2 :: rest2 = p ++ k :: rest)%list).
      { intros H1. apply list_elem_of_singleton in H1. cbn in H1.
        exists []. exact H1. }
      destruct v as [a|kd [|kv sub]]; [now apply Hleaf..|].
      apply dict_of_items_keys in Hq1.
      apply list_elem_of_fmap in Hq1 as ([q1 x1] & Hq1 & Hin1). cbn in Hq1.
      destruct (collect_items_paths _ _ _ _ Hin1) as (k1 & rest1 & Heq & _).
      exists (k1 :: rest1). rewrite Hq1, Heq. now rewrite <- app_assoc. }
    destruct Hq as [rest Hq]. apply app_inv_head in Hq. injection Hq as -> _.
    contradiction.
  - now apply IHk.
Qed.

(** For a dict with distinct keys, a recursive call contributes the items
    it collects. *)
Lemma item_entries_wf p k v :
  wf v ->
  item_entries p (k, v) =
  match v with
  | Dict _ (_ :: _) => collect_items (p ++ [k]) v
  | _ => [((p ++ [k])%list, v)]
  end.
Proof.
  intros Hwf. unfold item_entries. cbn [fst snd].
  destruct v as [a|kd [|kv sub]]; try reflexivity.
  now rewrite dict_of_items_nodup by now apply collect_items_NoDup.
Qed.

(** The items collected under [p] are those collected under the empty
    path, with [p] before every path. *)
Lemma collect_items_prefix v :
  wf v ->
  forall p,
    collect_items p v
    = map (fun qx => ((p ++ fst qx)%list, snd qx)) (collect_items [] v).
Proof.
  induction v as [a|kind kvs IH] using nested_ind'; intros Hwf p;
    [reflexivity|].
  apply wf_Dict in Hwf as [Hnd Hwf].
  induction kvs as [|[k v] kvs IHk]; [reflexivity|].
  apply Forall_cons in IH as [IHv IHkvs].
  apply Forall_cons in Hwf as [Hv Hkvs]. cbn [snd] in IHv, Hv.
  cbn [map fst] in Hnd. apply NoDup_cons in Hnd as [Hk Hnd].
  rewrite !collect_items_cons, map_app, (IHk IHkvs Hnd Hkvs).
  f_equal. rewrite !item_entries_wf by exact Hv.
  destruct v as [a|kd [|kv sub]]; try reflexivity.
  rewrite (IHv Hv (p ++ [k])%list), (IHv Hv ([] ++ [k])%list).
  rewrite map_map. apply map_ext. intros [q x]. cbn [fst snd].
  now rewrite <- app_assoc.
Qed.

Lemma collect_items_nonempty_paths v q x :
  (q, x) ∈ collect_items [] v -> q <> [].
Proof.
  intros Hin. destruct (collect_items_paths _ _ _ _ Hin) as (k & rest & -> & _).
  discriminate.
Qed.

Lemma collect_items_nonempty kind kv kvs p :
  wf (Dict kind (kv :: kvs)) -> collect_items p (Dict kind (kv :: kvs)) <> [].
Proof.
  revert kind kv kvs p.
  assert (H1 : forall v, wf v -> forall p,
             match v with
             | Dict _ (_ :: _) => collect_items p v <> []
             | _ => True
             end).
  { induction v as [a|kind kvs IH] using nested_ind'; intros Hwf p; [exact I|].
    destruct kvs as [|[k v] kvs]; [exact I|].
    apply wf_Dict in Hwf as [_ Hwf].
    apply Forall_cons in IH as [IHv _].
    apply Forall_cons in Hwf as [Hv _]. cbn [snd] in IHv, Hv.
    rewrite collect_items_cons, item_entries_wf by exact Hv.
    specialize (IHv Hv (p ++ [k])%list).
    destruct v as [a|kd [|kv sub]]; try discriminate.
    destruct (collect_items (p ++ [k]) (Dict kd (kv :: sub))); [contradiction|discriminate]. }
  intros kind kv kvs p Hwf. apply (H1 _ Hwf p).
Qed.

Lemma insert_all_app typ (l1 l2 : list (list K * nested K A)) acc :
  insert_all typ (l1 ++ l2) acc =
  match insert_all typ l1 acc with
  | Ok r => insert_all typ l2 r
  | Err e => Err e
  end.
Proof.
  revert acc. induction l1 as [|[q x] l1 IH]; intros acc; [reflexivity|].
  cbn [app insert_all]. destruct (insert_path typ q x acc); [apply IH|reflexivity].
Qed.

Lemma insert_path_cons typ k k0 q (x : nested K A) d :
  insert_path typ (k :: k0 :: q) x d =
  match dict_get k d with
  | None =>
      match insert_path typ (k0 :: q) x [] with
      | Ok sub => Ok (dict_set k (Dict typ sub) d)
      | Err e => Err e
      end
  | Some (Dict kind sub) =>
      match insert_path typ (k0 :: q) x sub with
      | Ok sub' => Ok (dict_set k (Dict kind sub') d)
      | Err e => Err e
      end
  | Some (Leaf a) =>
      match leaf_insert typ a (k0 :: q) x with
      | Ok a' => Ok (dict_set k (Leaf a') d)
      | Err e => Err e
      end
  end.
Proof. reflexivity. Qed.

(** Paths that go through the key [k], which holds a dict, are inserted
    below [k]. *)
Lemma insert_all_under k typ (l : list (list K * nested K A)) :
  Forall (fun qx => fst qx <> []) l ->
  forall acc kind0 d0 d',
    dict_get k acc = Some (Dict kind0 d0) ->
    insert_all typ l d0 = Ok d' ->
    insert_all typ (map (fun qx => (k :: fst qx, snd qx)) l) acc
    = Ok (dict_set k (Dict kind0 d') acc).
Proof.
  induction 1 as [|[q x] l Hq _ IH]; intros acc kind0 d0 d' Hget Hins.
  - injection Hins as <-. cbn. now rewrite dict_set_same.
  - cbn [fst] in Hq. cbn [map insert_all fst snd] in *.
    destruct (insert_path typ q x d0) as [d1|e] eqn:Hd1; [|discriminate].
    destruct q as [|k0 q]; [contradiction|].
    rewrite insert_path_cons, Hget, Hd1.
    rewrite (IH (dict_set k (Dict kind0 d1) acc) kind0 d1 d').
    + now rewrite dict_set_set.
    + apply dict_get_set_eq.
    + exact Hins.
Qed.

(** The same when the key [k] is new: a dict of type [typ] is made. *)
Lemma insert_all_under_fresh k typ (l : list (list K * nested K A)) :
  l <> [] ->
  Forall (fun qx => fst qx <> []) l ->
  forall acc d',
    dict_get k acc = None ->
    insert_all typ l [] = Ok d' ->
    insert_all typ (map (fun qx => (k :: fst qx, snd qx)) l) acc
    = Ok (acc ++ [(k, Dict typ d')])%list.
Proof.
  intros Hne Hl acc d' Hget Hins.
  destruct l as [|[q x] l]; [contradiction|].
  apply Forall_cons in Hl as [Hq Hl]. cbn [fst] in Hq.
  cbn [map insert_all fst snd] in *.
  destruct (insert_path typ q x []) as [d1|e] eqn:Hd1; [|discriminate].
  destruct q as [|k0 q]; [contradiction|].
  rewrite insert_path_cons, Hget, Hd1.
  rewrite (insert_all_under k typ l Hl _ typ d1 d').
  - rewrite dict_set_set. f_equal. apply dict_set_fresh.
    now apply dict_get_None.
  - apply dict_get_set_eq.
  - exact Hins.
Qed.

(** The loop of [flatdict_to_dict] on the collected items of a dict
    builds the items of the dict again, after those already there. *)
Lemma insert_all_collect typ v :
  wf v ->
  match v with
  | Leaf _ => True
  | Dict kind kvs =>
      forall acc,
        (forall k, k ∈ map fst kvs -> k ∉ map fst acc) ->
        insert_all typ (collect_items [] v) acc
        = Ok (acc ++ map (fun kv => (fst kv, retype typ (snd kv))) kvs)%list
  end.
Proof.
  induction v as [a|kind kvs IH] using nested_ind'; intros Hwf; [exact I|].
  apply wf_Dict in Hwf as [Hnd Hwf].
  induction kvs as [|[k v] kvs IHk]; intros acc Hdis.
  - cbn. now rewrite app_nil_r.
  - apply Forall_cons in IH as [IHv IHkvs].
    apply Forall_cons in Hwf as [Hv Hkvs]. cbn [snd] in IHv, Hv.
    cbn [map fst] in Hnd. apply NoDup_cons in Hnd as [Hk Hnd].
    rewrite collect_items_cons, insert_all_app.
    assert (Hfresh : k ∉ map fst acc) by (apply Hdis; left).
    assert (Hstep : insert_all typ (item_entries [] (k, v)) acc
                    = Ok (acc ++ [(k, retype typ v)])%list).
    { rewrite item_entries_wf by exact Hv.
      destruct v as [a|kd [|kv sub]].
      - cbn. now rewrite dict_set_fresh.
      - cbn. now rewrite dict_set_fresh.
      - rewrite collect_items_prefix by exact Hv. cbn [app].
        rewrite (insert_all_under_fresh k typ
                   (collect_items [] (Dict kd (kv :: sub)))) with
          (d' := map (fun kv => (fst kv, retype typ (snd kv))) (kv :: sub)).
        + reflexivity.
        + now apply collect_items_nonempty.
        + apply Forall_forall. intros [q x] Hin.
          now apply collect_items_nonempty_paths in Hin.
        + now apply dict_get_None.
        + specialize (IHv Hv []). cbn [app] in IHv. apply IHv.
          intros k0 _. apply not_elem_of_nil. }
    rewrite Hstep. rewrite (IHk IHkvs Hnd Hkvs).
    + cbn [map fst snd]. now rewrite <- app_assoc.
    + intros k0 Hk0. rewrite map_app, elem_of_app. cbn.
      intros [Hin|Hin].
      * apply (Hdis k0); [now right|exact Hin].
      * apply list_elem_of_singleton in Hin. subst k0. contradiction.
Qed.

(** The round trip gives the dict back, with the type of the root at
    every non-empty dict below it. *)
Lemma flatdict_roundtrip kind kvs :
  wf (Dict kind kvs) ->
  flatdict_to_dict (dict_to_flatdict kind kvs)
  = Ok (Dict kind (map (fun kv => (fst kv, retype kind (snd kv))) kvs)).
Proof.
  intros Hwf. unfold flatdict_to_dict, dict_to_flatdict.
  cbn [flat_kind flat_items].
  rewrite dict_of_items_nodup by now apply collect_items_NoDup.
  rewrite (insert_all_collect kind (Dict kind kvs) Hwf []); [reflexivity|].
  intros k _. apply not_elem_of_nil.
Qed.

Lemma retype_uniform typ v : uniform typ v -> retype typ v = v.
Proof.
  induction v as [a|kind kvs IH] using nested_ind'; intros Hu; [reflexivity|].
  apply uniform_Dict in Hu as [Hk Hu].
  destruct kvs as [|kv kvs]; [reflexivity|].
  destruct Hk as [Hk| ->]; [discriminate|].
  cbn [retype]. f_equal.
  induction (kv :: kvs) as [|[k v] l IHl]; [reflexivity|].
  apply Forall_cons in IH as [IHv IHl'].
  apply Forall_cons in Hu as [Hv Hl]. cbn [snd] in IHv, Hv.
  cbn [map fst snd]. now rewrite IHv, IHl.
Qed.

Lemma py_eq_Dict ka kb (ia ib : list (K * nested K A)) :
  py_eq (Dict ka ia) (Dict kb ib) =
  match ka, kb with
  | KOrderedDict, KOrderedDict => items_eq_ordered ia ib
  | _, _ => Nat.eqb (length ia) (length ib) && items_le ib ia
  end.
Proof. destruct ka, kb; reflexivity. Qed.

Lemma items_eq_ordered_cons k v k' v' (ia ib : list (K * nested K A)) :
  items_eq_ordered ((k, v) :: ia) ((k', v') :: ib)
  = bool_decide (k = k') && py_eq v v' && items_eq_ordered ia ib.
Proof. reflexivity. Qed.

Lemma items_le_cons k v (ia ib : list (K * nested K A)) :
  items_le ib ((k, v) :: ia)
  = match dict_get k ib with
    | Some v' => py_eq v v'
    | None => false
    end && items_le ib ia.
Proof. reflexivity. Qed.

(** A dict is equal, for Python, to its retyped copy. *)
Lemma py_eq_retype typ v : wf v -> py_eq (retype typ v) v = true.
Proof.
  induction v as [a|kind kvs IH] using nested_ind'; intros Hwf.
  - cbn. now apply bool_decide_eq_true_2.
  - apply wf_Dict in Hwf as [Hnd Hwf].
    destruct kvs as [|kv kvs]; [destruct kind; reflexivity|].
    cbn [retype]. rewrite py_eq_Dict.
    assert (Hord : items_eq_ordered
                     (map (fun kv => (fst kv, retype typ (snd kv))) (kv :: kvs))
                     (kv :: kvs) = true).
    { clear Hnd. induction (kv :: kvs) as [|[k v] l IHl]; [reflexivity|].
      apply Forall_cons in IH as [IHv IHl'].
      apply Forall_cons in Hwf as [Hv Hl]. cbn [snd] in IHv, Hv.
      cbn [map fst snd]. rewrite items_eq_ordered_cons.
      rewrite bool_decide_eq_true_2 by reflexivity.
      now rewrite IHv, IHl. }
    assert (Hle : items_le (kv :: kvs)
                    (map (fun kv => (fst kv, retype typ (snd kv))) (kv :: kvs))
                  = true).
    { assert (Hgen : forall l,
                (forall k v, (k, v) ∈ l -> (k, v) ∈ kv :: kvs) ->
                Forall (fun kv => wf (snd kv) -> py_eq (retype typ (snd kv)) (snd kv) = true) l ->
                Forall (fun kv => wf (snd kv)) l ->
                items_le (kv :: kvs)
                  (map (fun kv => (fst kv, retype typ (snd kv))) l) = true).
      { induction l as [|[k v] l IHl]; intros Hsub Hih Hwfl; [reflexivity|].
        apply Forall_cons in Hih as [IHv Hih].
        apply Forall_cons in Hwfl as [Hv Hwfl]. cbn [snd] in IHv, Hv.
        cbn [map fst snd]. rewrite items_le_cons.
        rewrite (dict_get_elem_nodup k v (kv :: kvs) Hnd) by (apply Hsub; left).
        rewrite IHv by exact Hv. cbn [andb].
        apply IHl; [|assumption..].
        intros k0 v0 Hin. apply Hsub. now right. }
      apply Hgen; auto. }
    rewrite length_map, Nat.eqb_refl, Hord, Hle.
    destruct typ, kind; reflexivity.
Qed.

(** A value that is an empty dict is among the flat items, under the path
    of its key. *)
Lemma empty_dict_kept kind kvs k kind' :
  wf (Dict kind kvs) ->
  (k, Dict kind' []) ∈ kvs ->
  ([k], Dict kind' []) ∈ flat_items (dict_to_flatdict kind kvs).
Proof.
  intros Hwf Hin. unfold dict_to_flatdict. cbn [flat_items].
  rewrite dict_of_items_nodup by now apply collect_items_NoDup.
  clear Hwf. induction kvs as [|[k0 v0] kvs IH]; [inversion Hin|].
  rewrite collect_items_cons, elem_of_app.
  apply elem_of_cons in Hin as [[= <- <-]|Hin].
  - left. cbn. left.
  - right. auto.
Qed.

Lemma flatdict_to_dict_kind (dct : flatdict K A) r :
  flatdict_to_dict dct = Ok r -> exists items, r = Dict (flat_kind dct) items.
Proof.
  unfold flatdict_to_dict.
  destruct (insert_all (flat_kind dct) (flat_items dct) []) as [items|e];
    [|discriminate].
  intros [= <-]. now exists items.
Qed.
End FlatdictFacts.

(** C3.  Flatten/unflatten round trip.  (1) For every nested dict [x]
    (its keys distinct at every level, as in any dict; empty dicts below
    it are allowed), [flatdict_to_dict(dict_to_flatdict(x))] returns a
    dict that Python's [==] finds equal to [x]: it is [x] with the type of
    the root at every non-empty dict below, and [x] itself when these
    dicts have the type of the root.  (2) A value that is an empty dict is
    an item of the flat dict, under the one-key path of its key:
    [{"a": {}}] gives [{("a",): {}}].  (3) The flat dict has the type of
    the dict and the nested dict the type of the flat dict.
    (4) [{"a": {"b": 1, "c": {"d": 2}}}] gives
    [{("a", "b"): 1, ("a", "c", "d"): 2}] and back. *)
Theorem C3_flatten_roundtrip :
  (forall (K A : Type) (HK : EqDecision K) (HA : EqDecision A)
          (HL : LeafInsert K A) kind (kvs : list (K * nested K A)),
     wf (Dict kind kvs) ->
     exists r,
       flatdict_to_dict (dict_to_flatdict kind kvs) = Ok r
       /\ py_eq r (Dict kind kvs) = true
       /\ r = Dict kind (map (fun kv => (fst kv, retype kind (snd kv))) kvs)
       /\ (uniform kind (Dict kind kvs) -> r = Dict kind kvs)) /\
  (forall (K A : Type) (HK : EqDecision K) (HA : EqDecision A) kind
          (kvs : list (K * nested K A)) k kind',
     wf (Dict kind kvs) ->
     (k, Dict kind' []) ∈ kvs ->
     ([k], Dict kind' []) ∈ flat_items (dict_to_flatdict kind kvs)) /\
  dict_to_flatdict KDict [("a", Dict KDict [] : nested string Z)]
    = Flat KDict [(["a"], Dict KDict [])] /\
  (forall (K A : Type) (HK : EqDecision K) (HA : EqDecision A) kind
          (kvs : list (K * nested K A)),
     flat_kind (dict_to_flatdict kind kvs) = kind) /\
  (forall (K A : Type) (HK : EqDecision K) (HA : EqDecision A)
          (HL : LeafInsert K A) (dct : flatdict K A) r,
     flatdict_to_dict dct = Ok r ->
     exists items, r = Dict (flat_kind dct) items) /\
  dict_to_flatdict KDict abcd_items
    = Flat KDict [(["a"; "b"], Leaf 1%Z); (["a"; "c"; "d"], Leaf 2%Z)] /\
  flatdict_to_dict (dict_to_flatdict KDict abcd_items)
    = Ok (Dict KDict abcd_items).
Proof.
  split; [|split; [|split; [|split; [|split; [|split]]]]].
  - intros K A HK HA HL kind kvs Hwf.
    exists (Dict kind (map (fun kv => (fst kv, retype kind (snd kv))) kvs)).
    split; [now apply flatdict_roundtrip|]. split; [|split; [reflexivity|]].
    + pose proof (py_eq_retype kind (Dict kind kvs) Hwf) as Heq.
      destruct kvs; exact Heq.
    + intros Hu. pose proof (retype_uniform kind (Dict kind kvs) Hu) as Heq.
      destruct kvs; [reflexivity|exact Heq].
  - intros. now apply empty_dict_kept.
  - reflexivity.
  - reflexivity.
  - intros. now apply flatdict_to_dict_kind.
  - vm_compute. reflexivity.
  - vm_compute. reflexivity.
Qed.

Lemma C3_flatten_roundtrip_witness :
  exists r,
    flatdict_to_dict (dict_to_flatdict KOrderedDict abcd_items) = Ok r
    /\ py_eq r (Dict KOrderedDict abcd_items) = true.
Proof.
  destruct (proj1 C3_flatten_roundtrip string Z _ _ _ KOrderedDict
              abcd_items)
    as (r & Hr & Heq & _).
  - apply wf_Dict. split.
    + apply (bool_decide_unpack _). vm_compute. exact I.
    + repeat first [apply Forall_nil_2 | apply Forall_cons_2]. cbn [snd].
      apply wf_Dict. split.
      * apply (bool_decide_unpack _). vm_compute. exact I.
      * repeat first [apply Forall_nil_2 | apply Forall_cons_2]; cbn [snd].
        -- exact I.
        -- apply wf_Dict. split.
           ++ apply (bool_decide_unpack _). vm_compute. exact I.
           ++ repeat first [apply Forall_nil_2 | apply Forall_cons_2].
              exact I.
  - exists r. split; assumption.
Defined.

(** ** [distinct] *)

Section DistinctFacts.
Context {T B : Type} `{EqDecision B}.
Variable key : T -> B.

Lemma distinct_from_sublist iterable :
  forall seen, distinct_from key seen iterable `sublist_of` iterable.
Proof.
  induction iterable as [|x l IH]; intros seen; cbn; [constructor|].
  destruct (decide (key x ∈ seen)).
  - apply sublist_cons, IH.
  - apply sublist_skip, IH.
Qed.

Lemma elem_of_distinct_from_keys iterable :
  forall seen b,
    b ∈ map key (distinct_from key seen iterable)
    <-> b ∈ map key iterable /\ b ∉ seen.
Proof.
  induction iterable as [|x l IH]; intros seen b; cbn.
  - split; [intros Hb; inversion Hb|intros [Hb _]; inversion Hb].
  - destruct (decide (key x ∈ seen)) as [Hx|Hx].
    + rewrite IH, elem_of_cons. split; [tauto|].
      intros [[->|Hb] Hs]; [contradiction|tauto].
    + cbn [map]. rewrite !elem_of_cons, IH, not_elem_of_cons.
      split.
      * intros [->|(Hb & Hne & Hs)]; tauto.
      * intros [[->|Hb] Hs]; [tauto|].
        destruct (decide (b = key x)) as [->|Hne]; tauto.
Qed.

Lemma distinct_from_NoDup iterable :
  forall seen, NoDup (map key (distinct_from key seen iterable)).
Proof.
  induction iterable as [|x l IH]; intros seen; cbn; [constructor|].
  destruct (decide (key x ∈ seen)); [apply IH|].
  cbn [map]. constructor; [|apply IH].
  rewrite elem_of_distinct_from_keys, not_elem_of_cons. tauto.
Qed.

(** An item is yielded from a position exactly when no key before it, and
    no key seen at the start, is its key. *)
Lemma distinct_from_first iterable :
  forall seen x,
    x ∈ distinct_from key seen iterable
    <-> exists l1 l2,
          iterable = (l1 ++ x :: l2)%list
          /\ (key x ∉ map key l1) /\ (key x ∉ seen).
Proof.
  induction iterable as [|y l IH]; intros seen x; cbn.
  - split; [intros Hx; inversion Hx|].
    intros (l1 & l2 & Heq & _). destruct l1; discriminate.
  - destruct (decide (key y ∈ seen)) as [Hy|Hy].
    + rewrite IH. split.
      * intros (l1 & l2 & -> & H1 & H2). exists (y :: l1), l2.
        split; [reflexivity|]. split; [|exact H2].
        cbn [map]. rewrite not_elem_of_cons. split; [|exact H1].
        intros Heq. rewrite Heq in H2. contradiction.
      * intros (l1 & l2 & Heq & H1 & H2).
        destruct l1 as [|z l1]; cbn in Heq; injection Heq as <- ->.
        -- contradiction.
        -- exists l1, l2. split; [reflexivity|]. split; [|exact H2].
           cbn [map] in H1. rewrite not_elem_of_cons in H1. tauto.
    + rewrite elem_of_cons, IH. split.
      * intros [->|(l1 & l2 & -> & H1 & H2)].
        -- exists [], l. split; [reflexivity|].
           split; [apply not_elem_of_nil|exact Hy].
        -- rewrite not_elem_of_cons in H2. destruct H2 as [Hne H2].
           exists (y :: l1), l2. split; [reflexivity|]. split; [|exact H2].
           cbn [map]. rewrite not_elem_of_cons. tauto.
      * intros (l1 & l2 & Heq & H1 & H2).
        destruct l1 as [|z l1]; cbn in Heq; injection Heq as <- ->.
        -- now left.
        -- right. exists l1, l2. split; [reflexivity|].
           cbn [map] in H1. rewrite not_elem_of_cons in H1.
           rewrite not_elem_of_cons. tauto.
Qed.

(** On items whose keys are distinct and not seen, nothing is dropped. *)
Lemma distinct_from_id iterable :
  forall seen,
    NoDup (map key iterable) ->
    (forall b, b ∈ map key iterable -> b ∉ seen) ->
    distinct_from key seen iterable = iterable.
Proof.
  induction iterable as [|x l IH]; intros seen Hnd Hseen; cbn; [reflexivity|].
  cbn [map] in Hnd. apply NoDup_cons in Hnd as [Hx Hnd].
  rewrite decide_False by (apply Hseen; left).
  f_equal. apply IH; [exact Hnd|].
  intros b Hb. rewrite not_elem_of_cons. split.
  - intros ->. contradiction.
  - apply Hseen. now right.
Qed.
End DistinctFacts.

(** X1.  What [distinct] yields is a subsequence of the iterable, in the
    order of the iterable, and the keys of the yielded items are pairwise
    distinct. *)
Theorem X1_distinct_subsequence :
  forall (T B : Type) (HB : EqDecision B) (key : T -> B) (iterable : list T),
    distinct key iterable `sublist_of` iterable
    /\ NoDup (map key (distinct key iterable)).
Proof.
  intros. split; [apply distinct_from_sublist|apply distinct_from_NoDup].
Qed.

(** X2.  [distinct] keeps the first occurrence of every key: an item is
    yielded exactly when it stands in the iterable after items of other
    keys only; so every key of the iterable is the key of a yielded
    item. *)
Theorem X2_distinct_first_occurrence :
  forall (T B : Type) (HB : EqDecision B) (key : T -> B) (iterable : list T),
    (forall x,
       x ∈ distinct key iterable
       <-> exists l1 l2,
             iterable = (l1 ++ x :: l2)%list /\ key x ∉ map key l1)
    /\ (forall b, b ∈ map key (distinct key iterable) <-> b ∈ map key iterable).
Proof.
  intros T B HB key iterable. split.
  - intros x. unfold distinct. rewrite distinct_from_first. split.
    + intros (l1 & l2 & H1 & H2 & _). eauto.
    + intros (l1 & l2 & H1 & H2). exists l1, l2.
      split; [exact H1|]. split; [exact H2|apply not_elem_of_nil].
  - intros b. unfold distinct. rewrite elem_of_distinct_from_keys.
    split; [tauto|]. intros Hb. split; [exact Hb|apply not_elem_of_nil].
Qed.

(** X3.  [distinct] is idempotent, and it yields every item of an iterable
    whose keys are pairwise distinct. *)
Theorem X3_distinct_idempotent :
  forall (T B : Type) (HB : EqDecision B) (key : T -> B) (iterable : list T),
    distinct key (distinct key iterable) = distinct key iterable
    /\ (NoDup (map key iterable) -> distinct key iterable = iterable).
Proof.
  intros T B HB key iterable.
  assert (Hid : forall l, NoDup (map key l) -> distinct key l = l).
  { intros l Hnd. apply distinct_from_id; [exact Hnd|].
    intros b _. apply not_elem_of_nil. }
  split; [|apply Hid]. apply Hid, distinct_from_NoDup.
Qed.

Lemma X3_distinct_idempotent_witness :
  distinct (fun n : Z => n) [1; 2; 3]%Z = [1; 2; 3]%Z.
Proof.
  apply (proj2 (X3_distinct_idempotent Z Z _ (fun n => n) [1; 2; 3]%Z)).
  apply (bool_decide_unpack _). vm_compute. exact I.
Defined.

(** ** [extract_instances] *)

Section ExtractFacts.
Context {O T : Type} `{EqDecision T}.
Variable isinstance : O -> T -> bool.

Abbreviation copies := (copies isinstance).

Abbreviation lookup_list t ret := (default [] (dict_get t ret)).

Lemma default_append_lookup t t' o (ret : list (T * list O)) :
  lookup_list t (default_append t' o ret)
  = if decide (t' = t) then (lookup_list t ret ++ [o])%list
    else lookup_list t ret.
Proof.
  unfold default_append.
  destruct (decide (t' = t)) as [->|Hne].
  - destruct (dict_get t ret) as [l|] eqn:Hget;
      now rewrite dict_get_set_eq.
  - destruct (dict_get t' ret) as [l|];
      now rewrite dict_get_set_ne.
Qed.

Lemma inner_loop_lookup o t (types : list T) :
  forall ret : list (T * list O),
    lookup_list t
      (fold_left
         (fun ret type_ =>
            if isinstance o type_ then default_append type_ o ret else ret)
         types ret)
    = (lookup_list t ret ++ copies types t o)%list.
Proof.
  unfold copies.
  induction types as [|t' types IH]; intros ret; cbn [fold_left].
  - destruct (isinstance o t); cbn; now rewrite app_nil_r.
  - rewrite IH. rewrite filter_cons.
    destruct (decide (t' = t)) as [->|Hne].
    + destruct (isinstance o t) eqn:Hi.
      * rewrite default_append_lookup, decide_True by reflexivity.
        cbn [length repeat]. now rewrite <- app_assoc.
      * reflexivity.
    + destruct (isinstance o t'); [|reflexivity].
      now rewrite default_append_lookup, decide_False.
Qed.

Lemma outer_loop_lookup t (types : list T) (objects : list O) :
  forall ret : list (T * list O),
    lookup_list t
      (fold_left
         (fun ret o =>
            fold_left
              (fun ret type_ =>
                 if isinstance o type_ then default_append type_ o ret
                 else ret)
              types ret)
         objects ret)
    = (lookup_list t ret ++ flat_map (copies types t) objects)%list.
Proof.
  induction objects as [|o objects IH]; intros ret; cbn [fold_left flat_map].
  - now rewrite app_nil_r.
  - rewrite IH, inner_loop_lookup. now rewrite <- app_assoc.
Qed.

Lemma flat_map_copies_once (types : list T) t (objects : list O) :
  length (filter (fun t' => t' = t) types) = 1%nat ->
  flat_map (copies types t) objects
  = filter (fun o => isinstance o t = true) objects.
Proof.
  intros Hone. induction objects as [|o objects IH]; [reflexivity|].
  cbn [flat_map]. rewrite filter_cons, IH. unfold copies. rewrite Hone.
  destruct (isinstance o t) eqn:Hi.
  - now rewrite decide_True.
  - now rewrite decide_False by discriminate.
Qed.

Lemma filter_eq_NoDup (types : list T) t :
  NoDup types -> t ∈ types ->
  length (filter (fun t' => t' = t) types) = 1%nat.
Proof.
  induction types as [|t0 types IH]; intros Hnd Hin; [inversion Hin|].
  apply NoDup_cons in Hnd as [Ht0 Hnd]. rewrite filter_cons.
  destruct (decide (t0 = t)) as [->|Hne].
  - cbn [length]. f_equal.
    assert (Hnot : forall l : list T,
              t ∉ l -> filter (fun t' => t' = t) l = []).
    { induction l as [|t1 l IHl]; intros Hl; [reflexivity|].
      apply not_elem_of_cons in Hl as [Hne Hl]. rewrite filter_cons.
      rewrite decide_False by congruence. auto. }
    now rewrite Hnot.
  - apply elem_of_cons in Hin as [->|Hin]; [contradiction|]. auto.
Qed.

(** The keys of the [defaultdict] have non-empty lists. *)
Lemma default_append_nonempty t' o (ret : list (T * list O)) :
  (forall t, dict_get t ret <> Some []) ->
  forall t, dict_get t (default_append t' o ret) <> Some [].
Proof.
  intros Hret t. unfold default_append.
  destruct (decide (t' = t)) as [->|Hne].
  - destruct (dict_get t ret) as [l|]; rewrite dict_get_set_eq;
      intros [= Heq]. destruct l; discriminate.
  - destruct (dict_get t' ret) as [l|]; rewrite dict_get_set_ne by exact Hne;
      apply Hret.
Qed.

Lemma loops_nonempty (types : list T) (objects : list O) :
  forall ret : list (T * list O),
    (forall t, dict_get t ret <> Some []) ->
    forall t,
      dict_get t
        (fold_left
           (fun ret o =>
              fold_left
                (fun ret type_ =>
                   if isinstance o type_ then default_append type_ o ret
                   else ret)
                types ret)
           objects ret)
      <> Some [].
Proof.
  induction objects as [|o objects IH]; intros ret Hret; [exact Hret|].
  cbn [fold_left]. apply IH. clear IH.
  revert ret Hret. induction types as [|t' types IHt]; intros ret Hret;
    [exact Hret|].
  cbn [fold_left]. apply IHt.
  destruct (isinstance o t'); [now apply default_append_nonempty|exact Hret].
Qed.
End ExtractFacts.

(** X4.  For one class, given as it is or as a tuple of one class,
    [extract_instances] returns the list of the objects that are instances
    of the class, in the order of [objects]: a tuple of one class gives a
    list too, not a mapping. *)
Theorem X4_extract_instances_single :
  forall (O T : Type) (HT : EqDecision T) (isinstance : O -> T -> bool)
         (objects : list O) (t : T),
    extract_instances isinstance objects (OneType t)
    = Instances (filter (fun o => isinstance o t = true) objects)
    /\ extract_instances isinstance objects (TypeTuple [t])
       = Instances (filter (fun o => isinstance o t = true) objects).
Proof.
  intros O T HT isinstance objects t.
  assert (Hl : default [] (dict_get t
            (fold_left
               (fun ret o =>
                  fold_left
                    (fun ret type_ =>
                       if isinstance o type_ then default_append type_ o ret
                       else ret)
                    [t] ret)
               objects []))
          = filter (fun o => isinstance o t = true) objects).
  { rewrite outer_loop_lookup. cbn [dict_get default app].
    apply flat_map_copies_once. rewrite filter_cons.
    now rewrite decide_True. }
  unfold extract_instances. cbn [ensure_iterable]. now rewrite Hl.
Qed.

(** X5.  For a tuple of no class or of several classes, [extract_instances]
    returns the mapping: a class of the tuple without instance among the
    objects is no key of it, and so is any class outside the tuple; the
    list of a class holds its instances in the order of [objects], once for
    every occurrence of the class in the tuple, hence exactly its instances
    when the classes of the tuple are distinct; an object that is an
    instance of several classes is in the list of each. *)
Theorem X5_extract_instances_mapping :
  forall (O T : Type) (HT : EqDecision T) (isinstance : O -> T -> bool)
         (objects : list O) (types : list T),
    length types <> 1%nat ->
    exists ret,
      extract_instances isinstance objects (TypeTuple types) = ByType ret
      /\ (forall t, dict_get t ret <> Some [])
      /\ (forall t,
            default [] (dict_get t ret)
            = flat_map (copies isinstance types t) objects)
      /\ (NoDup types ->
          forall t, t ∈ types ->
            default [] (dict_get t ret)
            = filter (fun o => isinstance o t = true) objects)
      /\ (forall t, t ∉ types -> dict_get t ret = None).
Proof.
  intros O T HT isinstance objects types Hlen.
  set (ret := fold_left
                (fun ret o =>
                   fold_left
                     (fun ret type_ =>
                        if isinstance o type_ then default_append type_ o ret
                        else ret)
                     types ret)
                objects []).
  assert (Hne : forall t, dict_get t ret <> Some []).
  { apply loops_nonempty. intros t. discriminate. }
  assert (Hlook : forall t,
            default [] (dict_get t ret)
            = flat_map (copies isinstance types t) objects).
  { intros t. unfold ret. now rewrite outer_loop_lookup. }
  exists ret. split; [|split; [exact Hne|split; [exact Hlook|split]]].
  - unfold extract_instances. cbn [ensure_iterable]. fold ret.
    destruct types as [|t0 [|t1 types]]; [reflexivity|contradiction|reflexivity].
  - intros Hnd t Hin. rewrite Hlook.
    apply flat_map_copies_once. now apply filter_eq_NoDup.
  - intros t Hnot. specialize (Hlook t). specialize (Hne t).
    assert (Hnil : flat_map (copies isinstance types t) objects = []).
    { assert (Hf : filter (fun t' => t' = t) types = []).
      { clear -Hnot. induction types as [|t1 l IHl]; [reflexivity|].
        apply not_elem_of_cons in Hnot as [Hne Hl]. rewrite filter_cons.
        rewrite decide_False by congruence. auto. }
      clear -Hf. induction objects as [|o objects IH]; [reflexivity|].
      cbn [flat_map]. rewrite IH. unfold copies. rewrite Hf.
      destruct (isinstance o t); reflexivity. }
    rewrite Hnil in Hlook.
    destruct (dict_get t ret) as [[|x l]|]; [contradiction|discriminate|reflexivity].
Qed.

Lemma X5_extract_instances_mapping_witness :
  exists ret,
    extract_instances (fun (o : Z) (t : bool) => if t then (0 <=? o)%Z else (o <? 0)%Z)
      [1; -2; 3]%Z (TypeTuple [true; false]) = ByType ret
    /\ default [] (dict_get true ret) = [1; 3]%Z.
Proof.
  destruct (X5_extract_instances_mapping Z bool _
              (fun (o : Z) (t : bool) => if t then (0 <=? o)%Z else (o <? 0)%Z)
              [1; -2; 3]%Z [true; false] ltac:(cbn; lia))
    as (ret & Hret & _ & _ & Hnd & _).
  exists ret. split; [exact Hret|].
  apply Hnd.
  - apply (bool_decide_unpack _). vm_compute. exact I.
  - left.
Defined.

(** ** [remove_nested_keys] *)

Section RemoveFacts.
Context {K A : Type} `{EqDecision K} `{EqDecision A}.
Implicit Types (v : nested K A) (kvs : list (K * nested K A))
         (ks : list K).

(** The items that the comprehension generates. *)
Lemma remove_nested_keys_Dict ks kind kvs :
  remove_nested_keys ks (Dict kind kvs)
  = Dict KDict
      (dict_of_items
         (map (fun kv => (fst kv, remove_nested_keys ks (snd kv)))
              (filter (fun kv => fst kv ∉ ks) kvs))).
Proof.
  cbn [remove_nested_keys]. do 2 f_equal.
  induction kvs as [|[k v] kvs IH]; [reflexivity|].
  rewrite filter_cons. cbn [fst].
  destruct (decide (k ∈ ks)) as [Hk|Hk].
  - rewrite decide_False by tauto. exact IH.
  - rewrite decide_True by exact Hk. cbn [map fst snd]. now rewrite IH.
Qed.

Lemma plain_dicts_Dict kind kvs :
  plain_dicts (Dict kind kvs)
  <-> kind = KDict /\ Forall (fun kv => plain_dicts (snd kv)) kvs.
Proof.
  cbn [plain_dicts]. apply and_iff_compat_l.
  induction kvs as [|[k v] kvs IH]; [split; constructor|].
  rewrite Forall_cons, <- IH. reflexivity.
Qed.

Lemma NoDup_filter_keys ks kvs (f : K * nested K A -> K * nested K A) :
  (forall kv, fst (f kv) = fst kv) ->
  NoDup (map fst kvs) ->
  NoDup (map fst (map f (filter (fun kv => fst kv ∉ ks) kvs))).
Proof.
  intros Hf. induction kvs as [|[k v] kvs IH]; intros Hnd; [constructor|].
  cbn [map fst] in Hnd. apply NoDup_cons in Hnd as [Hk Hnd].
  rewrite filter_cons.
  destruct (decide (fst (k, v) ∉ ks)); [|auto].
  cbn [map]. rewrite Hf. cbn [fst]. constructor; [|auto].
  intros Hin. apply Hk.
  apply list_elem_of_fmap in Hin as (kv' & Hk' & Hin).
  apply list_elem_of_fmap in Hin as (kv & -> & Hin).
  rewrite Hf in Hk'. apply list_elem_of_filter in Hin as [_ Hin].
  apply list_elem_of_fmap. now exists kv.
Qed.

(** On a dict with distinct keys at every level, the result has the kept
    items in their order, and distinct keys at every level. *)
Lemma remove_nested_keys_wf ks v :
  wf v ->
  wf (remove_nested_keys ks v)
  /\ match v with
     | Leaf _ => True
     | Dict kind kvs =>
         remove_nested_keys ks v
         = Dict KDict
             (map (fun kv => (fst kv, remove_nested_keys ks (snd kv)))
                  (filter (fun kv => fst kv ∉ ks) kvs))
     end.
Proof.
  induction v as [a|kind kvs IH] using nested_ind'; intros Hwf;
    [split; exact I|].
  apply wf_Dict in Hwf as [Hnd Hwf].
  rewrite remove_nested_keys_Dict.
  rewrite dict_of_items_nodup
    by (apply NoDup_filter_keys; [reflexivity|exact Hnd]).
  split; [|reflexivity].
  apply wf_Dict. split.
  - apply NoDup_filter_keys; [reflexivity|exact Hnd].
  - apply Forall_forall. intros kv' Hin.
    apply list_elem_of_fmap in Hin as (kv & -> & Hin).
    apply list_elem_of_filter in Hin as [_ Hin]. cbn [snd].
    rewrite Forall_forall in IH, Hwf. now apply IH; [|apply Hwf].
Qed.

(** No key to remove is left, at any depth. *)
Lemma remove_nested_keys_no_key ks v k :
  k ∈ ks -> ~ has_key k (remove_nested_keys ks v).
Proof.
  intros Hk. induction v as [a|kind kvs IH] using nested_ind'; intros Hhas.
  - inversion Hhas.
  - rewrite remove_nested_keys_Dict in Hhas.
    inversion Hhas as [kd l Hin|kd l kv Hin Hbelow]; subst.
    + apply dict_of_items_keys in Hin.
      apply list_elem_of_fmap in Hin as (kv' & Hk' & Hin).
      apply list_elem_of_fmap in Hin as (kv & -> & Hin).
      apply list_elem_of_filter in Hin as [Hnot _]. cbn [fst] in Hk'.
      subst k. contradiction.
    + assert (Hval : exists kv0, kv0 ∈ kvs
                       /\ snd kv = remove_nested_keys ks (snd kv0)).
      { clear -Hin.
        unfold dict_of_items in Hin.
        assert (Hgen : forall items (acc : list (K * nested K A)),
                  kv ∈ fold_left (fun d kv => dict_set (fst kv) (snd kv) d)
                         items acc ->
                  kv ∈ acc \/ exists kv1, kv1 ∈ items /\ snd kv = snd kv1).
        { induction items as [|[k1 v1] items IHi]; intros acc H1;
            [now left|].
          cbn [fold_left fst snd] in H1. apply IHi in H1 as [H1|H1].
          - assert (Hset : forall d : list (K * nested K A),
                      kv ∈ dict_set k1 v1 d -> kv ∈ d \/ snd kv = v1).
            { induction d as [|[k2 v2] d IHd]; cbn; intros H2.
              - apply list_elem_of_singleton in H2. subst kv. now right.
              - destruct (decide (k2 = k1)) as [->|Hne].
                + apply elem_of_cons in H2 as [->|H2]; [now right|].
                  left. now right.
                + apply elem_of_cons in H2 as [->|H2]; [left; left|].
                  destruct (IHd H2) as [H3|H3]; [left; now right|now right]. }
            destruct (Hset acc H1) as [H2|H2]; [now left|].
            right. exists (k1, v1). split; [left|exact H2].
          - destruct H1 as (kv1 & Hin1 & Heq). right. exists kv1.
            split; [now right|exact Heq]. }
        apply Hgen in Hin as [Hin|(kv1 & Hin1 & Heq)]; [inversion Hin|].
        apply list_elem_of_fmap in Hin1 as (kv0 & -> & Hin0).
        apply list_elem_of_filter in Hin0 as [_ Hin0].
        exists kv0. split; [exact Hin0|exact Heq]. }
      destruct Hval as (kv0 & Hin0 & Heq). rewrite Heq in Hbelow.
      rewrite Forall_forall in IH. now apply (IH kv0 Hin0).
Qed.

(** Nothing changes in a dict of plain dicts without a key to remove. *)
Lemma remove_nested_keys_noop ks v :
  wf v -> plain_dicts v ->
  (forall k, k ∈ ks -> ~ has_key k v) ->
  remove_nested_keys ks v = v.
Proof.
  induction v as [a|kind kvs IH] using nested_ind'; intros Hwf Hpl Hno;
    [reflexivity|].
  destruct (remove_nested_keys_wf ks _ Hwf) as [_ ->].
  apply wf_Dict in Hwf as [Hnd Hwf].
  apply plain_dicts_Dict in Hpl as [-> Hpl]. f_equal.
  assert (Hkeep : forall kv, kv ∈ kvs -> fst kv ∉ ks).
  { intros kv Hin Hk. apply (Hno _ Hk). apply has_key_here.
    apply list_elem_of_fmap. now exists kv. }
  assert (Hbelow : forall kv, kv ∈ kvs ->
            forall k, k ∈ ks -> ~ has_key k (snd kv)).
  { intros kv Hin k Hk Hhas. apply (Hno _ Hk).
    now apply has_key_below with (kv := kv). }
  clear Hno Hnd.
  induction kvs as [|[k v] kvs IHk]; [reflexivity|].
  apply Forall_cons in IH as [IHv IHkvs].
  apply Forall_cons in Hwf as [Hv Hkvs].
  apply Forall_cons in Hpl as [Hpv Hpkvs]. cbn [snd] in *.
  rewrite filter_cons, decide_True by (apply (Hkeep (k, v)); left).
  cbn [map fst snd]. rewrite IHv; [|assumption..|].
  - f_equal. apply IHk; try assumption.
    + intros kv Hin. apply Hkeep. now right.
    + intros kv Hin. apply Hbelow. now right.
  - apply (Hbelow (k, v)). left.
Qed.

(** The result is made of plain dicts. *)
Lemma remove_nested_keys_plain ks v :
  wf v -> plain_dicts (remove_nested_keys ks v).
Proof.
  induction v as [a|kind kvs IH] using nested_ind'; intros Hwf; [exact I|].
  destruct (remove_nested_keys_wf ks _ Hwf) as [_ ->].
  apply wf_Dict in Hwf as [_ Hwf].
  apply plain_dicts_Dict. split; [reflexivity|].
  apply Forall_forall. intros kv' Hin.
  apply list_elem_of_fmap in Hin as (kv & -> & Hin).
  apply list_elem_of_filter in Hin as [_ Hin]. cbn [snd].
  rewrite Forall_forall in IH, Hwf. now apply IH; [|apply Hwf].
Qed.

(** Only the membership in [keys_to_remove] matters. *)
Lemma remove_nested_keys_ext ks1 ks2 v :
  (forall k, k ∈ ks1 <-> k ∈ ks2) ->
  remove_nested_keys ks1 v = remove_nested_keys ks2 v.
Proof.
  intros Hks. induction v as [a|kind kvs IH] using nested_ind';
    [reflexivity|].
  rewrite !remove_nested_keys_Dict. do 2 f_equal.
  induction kvs as [|[k v] kvs IHk]; [reflexivity|].
  apply Forall_cons in IH as [IHv IHkvs]. cbn [snd] in IHv.
  rewrite !filter_cons. cbn [fst].
  destruct (decide (k ∉ ks1)) as [H1|H1];
    destruct (decide (k ∉ ks2)) as [H2|H2];
    try (exfalso; rewrite Hks in H1; tauto).
  - cbn [map fst snd]. now rewrite IHv, IHk.
  - auto.
Qed.

Lemma remove_nested_keys_app ks1 ks2 v :
  wf v ->
  remove_nested_keys ks1 (remove_nested_keys ks2 v)
  = remove_nested_keys (ks1 ++ ks2) v.
Proof.
  induction v as [a|kind kvs IH] using nested_ind'; intros Hwf;
    [reflexivity|].
  pose proof (remove_nested_keys_wf ks2 _ Hwf) as [Hwf2 Heq2].
  rewrite Heq2 in Hwf2 |- *.
  destruct (remove_nested_keys_wf ks1 _ Hwf2) as [_ ->].
  destruct (remove_nested_keys_wf (ks1 ++ ks2) _ Hwf) as [_ ->].
  apply wf_Dict in Hwf as [_ Hwf]. f_equal. clear Hwf2 Heq2.
  induction kvs as [|[k v] kvs IHk]; [reflexivity|].
  apply Forall_cons in IH as [IHv IHkvs].
  apply Forall_cons in Hwf as [Hv Hkvs]. cbn [snd] in IHv, Hv.
  rewrite !(filter_cons _ (k, v)). cbn [fst].
  destruct (decide (k ∉ ks2)) as [H2|H2].
  - cbn [map fst snd]. rewrite filter_cons. cbn [fst].
    destruct (decide (k ∉ ks1)) as [H1|H1].
    + rewrite decide_True by (rewrite elem_of_app; tauto).
      cbn [map fst snd]. rewrite IHv by exact Hv. f_equal. now apply IHk.
    + rewrite decide_False by (rewrite elem_of_app; tauto). now apply IHk.
  - rewrite decide_False by (rewrite elem_of_app; tauto). now apply IHk.
Qed.
End RemoveFacts.

Lemma abcd_items_wf kind : wf (Dict kind abcd_items).
Proof.
  cbn. repeat split; try exact I;
    apply (bool_decide_unpack _); vm_compute; exact I.
Qed.

(** X6.  [remove_nested_keys] leaves no key of [keys_to_remove] in the
    result, at any depth of the nested dicts. *)
Theorem X6_remove_nested_keys_no_key :
  forall (K A : Type) (HK : EqDecision K) (keys_to_remove : list K)
         (obj : nested K A) (k : K),
    k ∈ keys_to_remove ->
    ~ has_key k (remove_nested_keys keys_to_remove obj).
Proof. intros. now apply remove_nested_keys_no_key. Qed.

Lemma X6_remove_nested_keys_no_key_witness :
  ~ has_key "b" (remove_nested_keys ["b"] (Dict KDict abcd_items)).
Proof.
  apply (X6_remove_nested_keys_no_key string Z _ ["b"]
           (Dict KDict abcd_items) "b").
  left.
Defined.

(** X7.  Removing the keys of one list and then those of another is
    removing the keys of both lists at once, in either order. *)
Theorem X7_remove_nested_keys_compose :
  forall (K A : Type) (HK : EqDecision K) (ks1 ks2 : list K)
         (obj : nested K A),
    wf obj ->
    remove_nested_keys ks1 (remove_nested_keys ks2 obj)
    = remove_nested_keys (ks1 ++ ks2) obj
    /\ remove_nested_keys ks1 (remove_nested_keys ks2 obj)
       = remove_nested_keys ks2 (remove_nested_keys ks1 obj).
Proof.
  intros K A HK ks1 ks2 obj Hwf.
  split; [now apply remove_nested_keys_app|].
  rewrite !remove_nested_keys_app by exact Hwf.
  apply remove_nested_keys_ext. intros k. rewrite !elem_of_app. tauto.
Qed.

Lemma X7_remove_nested_keys_compose_witness :
  remove_nested_keys ["b"] (remove_nested_keys ["d"] (Dict KDict abcd_items))
  = remove_nested_keys (["b"] ++ ["d"]) (Dict KDict abcd_items).
Proof.
  apply (proj1 (X7_remove_nested_keys_compose string Z _ ["b"] ["d"]
                  (Dict KDict abcd_items) (abcd_items_wf KDict))).
Defined.

(** X8.  [remove_nested_keys] is idempotent, it returns plain dicts at
    every level (an [OrderedDict] comes back as a [dict]), and it returns
    a dict of plain dicts that has none of the keys as it is. *)
Theorem X8_remove_nested_keys_idempotent :
  forall (K A : Type) (HK : EqDecision K) (keys_to_remove : list K)
         (obj : nested K A),
    wf obj ->
    remove_nested_keys keys_to_remove
      (remove_nested_keys keys_to_remove obj)
    = remove_nested_keys keys_to_remove obj
    /\ plain_dicts (remove_nested_keys keys_to_remove obj)
    /\ (plain_dicts obj ->
        (forall k, k ∈ keys_to_remove -> ~ has_key k obj) ->
        remove_nested_keys keys_to_remove obj = obj).
Proof.
  intros K A HK ks obj Hwf.
  pose proof (remove_nested_keys_plain (A := A) ks obj Hwf) as Hpl.
  split; [|split; [exact Hpl|]].
  - apply remove_nested_keys_noop.
    + now apply remove_nested_keys_wf.
    + exact Hpl.
    + intros k Hk. now apply remove_nested_keys_no_key.
  - intros Hp Hno. now apply remove_nested_keys_noop.
Qed.

Lemma X8_remove_nested_keys_idempotent_witness :
  remove_nested_keys ["b"]
    (remove_nested_keys ["b"] (Dict KOrderedDict abcd_items))
  = remove_nested_keys ["b"] (Dict KOrderedDict abcd_items).
Proof.
  apply (proj1 (X8_remove_nested_keys_idempotent string Z _ ["b"]
                  (Dict KOrderedDict abcd_items)
                  (abcd_items_wf KOrderedDict))).
Defined.

(** ** The items of a flat dictionary *)

Section FlatItems.
Context {K A : Type} `{EqDecision K} `{EqDecision A}.
Implicit Types (v x : nested K A) (kvs : list (K * nested K A))
         (q : list K).

Lemma get_path_terminal v k q :
  terminal v -> get_path v (k :: q) = None.
Proof. destruct v as [a|kind [|kv kvs]]; [reflexivity..|contradiction]. Qed.

Lemma elem_of_item_entries k v q x :
  wf v ->
  (forall q' x', (q', x') ∈ collect_items [] v
                 <-> q' <> [] /\ terminal x' /\ get_path v q' = Some x') ->
  (q, x) ∈ item_entries [] (k, v)
  <-> exists rest, q = k :: rest /\ terminal x /\ get_path v rest = Some x.
Proof.
  intros Hwf IH. rewrite item_entries_wf by exact Hwf. cbn [app].
  assert (Hterm : terminal v ->
            (q, x) ∈ [([k], v)]
            <-> exists rest,
                  q = k :: rest /\ terminal x /\ get_path v rest = Some x).
  { intros Ht. rewrite list_elem_of_singleton. split.
    - intros [= -> ->]. exists []. auto.
    - intros ([|k' rest] & -> & Htx & Hget).
      + now injection Hget as ->.
      + now rewrite get_path_terminal in Hget. }
  destruct v as [a|kind [|kv kvs]]; [now apply Hterm..|].
  rewrite collect_items_prefix by exact Hwf. split.
  - intros Hin. apply list_elem_of_fmap in Hin as ([q' x'] & [= -> ->] & Hin).
    apply IH in Hin as (Hq' & Htx & Hget). cbn [fst snd app].
    exists q'. auto.
  - intros (rest & -> & Htx & Hget).
    apply list_elem_of_fmap. exists (rest, x). split; [reflexivity|].
    apply IH. split; [|auto].
    intros ->. cbn in Hget. injection Hget as <-. contradiction.
Qed.

(** The collected items of a value are the paths to its terminal values. *)
Lemma elem_of_collect_items v :
  wf v ->
  forall q x,
    (q, x) ∈ collect_items [] v
    <-> q <> [] /\ terminal x /\ get_path v q = Some x.
Proof.
  induction v as [a|kind kvs IH] using nested_ind'; intros Hwf q x.
  - split; [intros Hin; inversion Hin|].
    intros (Hq & _ & Hget). destruct q; [contradiction|discriminate].
  - apply wf_Dict in Hwf as [Hnd Hwf].
    induction kvs as [|[k v] kvs IHk].
    + split; [intros Hin; inversion Hin|].
      intros (Hq & _ & Hget). destruct q; [contradiction|discriminate].
    + apply Forall_cons in IH as [IHv IHkvs].
      apply Forall_cons in Hwf as [Hv Hkvs]. cbn [snd] in IHv, Hv.
      cbn [map fst] in Hnd. apply NoDup_cons in Hnd as [Hk Hnd].
      rewrite collect_items_cons, elem_of_app.
      rewrite (elem_of_item_entries k v q x Hv (IHv Hv)).
      rewrite (IHk IHkvs Hnd Hkvs).
      destruct q as [|k0 rest].
      * split; [intros [(r & Heq & _)|(Hq & _)]; [discriminate|contradiction]|].
        intros (Hq & _); contradiction.
      * cbn [get_path dict_get].
        destruct (decide (k = k0)) as [->|Hne].
        -- split.
           ++ intros [(r & [= ->] & Htx & Hget)|(_ & Htx & Hget)].
              ** split; [discriminate|auto].
              ** exfalso. apply Hk.
                 destruct (dict_get k0 kvs) as [v'|] eqn:Hg; [|discriminate].
                 apply dict_get_Some_elem in Hg.
                 apply list_elem_of_fmap. now exists (k0, v').
           ++ intros (_ & Htx & Hget). left. exists rest. auto.
        -- split.
           ++ intros [(r & [= Heq _] & _)|H1]; [congruence|exact H1].
           ++ intros H1. now right.
Qed.
End FlatItems.

(** X9.  The items of [dict_to_flatdict(x)] are the paths of [x] to the
    values that are no non-empty dict: a path with its value is an item
    exactly when the path is not empty, the value is a leaf or an empty
    dict, and following the keys of the path in [x] gives that value.  No
    two items have the same path. *)
Theorem X9_flat_items_are_paths :
  forall (K A : Type) (HK : EqDecision K) (HA : EqDecision A) kind
         (kvs : list (K * nested K A)),
    wf (Dict kind kvs) ->
    (forall path v,
       (path, v) ∈ flat_items (dict_to_flatdict kind kvs)
       <-> path <> [] /\ terminal v
           /\ get_path (Dict kind kvs) path = Some v)
    /\ NoDup (map fst (flat_items (dict_to_flatdict kind kvs))).
Proof.
  intros K A HK HA kind kvs Hwf.
  unfold dict_to_flatdict. cbn [flat_items].
  rewrite dict_of_items_nodup by now apply collect_items_NoDup.
  split; [|now apply collect_items_NoDup].
  intros path v. now apply elem_of_collect_items.
Qed.

Lemma X9_flat_items_are_paths_witness :
  (["a"; "c"; "d"], Leaf 2%Z)
    ∈ flat_items (dict_to_flatdict KDict abcd_items).
Proof.
  apply (proj1 (X9_flat_items_are_paths string Z _ _ KDict abcd_items
                  (abcd_items_wf KDict))).
  split; [discriminate|]. split; [exact I|]. reflexivity.
Defined.

(** X10.  [flatdict_to_dict] raises [IndexError] at the first item whose
    key is the empty tuple (line 123), whatever follows it. *)
Theorem X10_flatdict_empty_key :
  forall (K A : Type) (HK : EqDecision K) (HL : LeafInsert K A) typ
         (items items' : list (list K * nested K A)) (v : nested K A) result,
    insert_all typ items [] = Ok result ->
    flatdict_to_dict (Flat typ (items ++ ([], v) :: items'))
    = Err (Exn "IndexError" "tuple index out of range").
Proof.
  intros K A HK HL typ items items' v result Hins.
  unfold flatdict_to_dict. cbn [flat_kind flat_items].
  rewrite insert_all_app, Hins. reflexivity.
Qed.

Lemma X10_flatdict_empty_key_witness :
  flatdict_to_dict
    (Flat KDict ([(["a"], Leaf 1%Z)] ++ ([], Leaf 2%Z) :: [(["b"], Leaf 3%Z)]))
  = Err (Exn "IndexError" "tuple index out of range").
Proof.
  apply (X10_flatdict_empty_key string Z _ _ KDict [(["a"], Leaf 1%Z)]
           [(["b"], Leaf 3%Z)] (Leaf 2%Z) [("a", Leaf 1%Z)]).
  reflexivity.
Defined.

(** X11.  On a dict whose values are leaves or empty dicts,
    [dict_to_flatdict] only turns every key into a tuple of one key; and
    [flatdict_to_dict] turns a flat dict whose keys are tuples of one key
    into the dict of these keys. *)
Theorem X11_flat_one_level :
  forall (K A : Type) (HK : EqDecision K) (HL : LeafInsert K A) kind
         (kvs : list (K * nested K A)),
    NoDup (map fst kvs) ->
    (Forall (fun kv => terminal (snd kv)) kvs ->
     dict_to_flatdict kind kvs
     = Flat kind (map (fun kv => ([fst kv], snd kv)) kvs))
    /\ flatdict_to_dict (Flat kind (map (fun kv => ([fst kv], snd kv)) kvs))
       = Ok (Dict kind kvs).
Proof.
  intros K A HK HL kind kvs Hnd. split.
  - intros Hterm. unfold dict_to_flatdict. f_equal.
    assert (Hc : collect_items [] (Dict kind kvs)
                 = map (fun kv => ([fst kv], snd kv)) kvs).
    { clear Hnd. induction Hterm as [|[k v] l Hv _ IH]; [reflexivity|].
      rewrite collect_items_cons, IH. cbn [snd] in Hv.
      unfold item_entries. cbn [fst snd map app].
      destruct v as [a|kd [|kv sub]]; [reflexivity..|contradiction]. }
    rewrite Hc. apply dict_of_items_nodup.
    rewrite map_map. cbn [fst].
    apply (NoDup_fmap_2 (fun k : K => [k])) in Hnd.
    now rewrite map_map in Hnd.
  - unfold flatdict_to_dict. cbn [flat_kind flat_items].
    assert (Hins : forall l (acc : list (K * nested K A)),
              insert_all kind (map (fun kv => ([fst kv], snd kv)) l) acc
              = Ok (fold_left (fun d kv => dict_set (fst kv) (snd kv) d) l acc)).
    { induction l as [|[k v] l IH]; intros acc; [reflexivity|].
      cbn [map insert_all insert_path fst snd fold_left]. apply IH. }
    rewrite Hins. fold (dict_of_items kvs).
    now rewrite dict_of_items_nodup.
Qed.

Lemma X11_flat_one_level_witness :
  flatdict_to_dict
    (Flat KDict
       (map (fun kv => ([fst kv], snd kv))
            [("a", Leaf 1%Z); ("b", Dict KDict [] : nested string Z)]))
  = Ok (Dict KDict [("a", Leaf 1%Z); ("b", Dict KDict [])]).
Proof.
  apply (proj2 (X11_flat_one_level string Z _ _ KDict
                  [("a", Leaf 1%Z); ("b", Dict KDict [])]
                  ltac:(apply (bool_decide_unpack _); vm_compute; exact I))).
Defined.

(** ** The number of batches *)

Lemma batched_iterable_count {A : Type} maxsize size :
  (0 < size <= maxsize)%Z ->
  forall fuel (it : list A),
    (length it < fuel)%nat ->
    exists batches,
      Batch.batched_iterable maxsize fuel it size = Ret batches
      /\ Z.of_nat (length batches)
         = ((Z.of_nat (length it) + size - 1) / size)%Z.
Proof.
  intros Hs. induction fuel as [|fuel IH]; intros it Hfuel; [lia|].
  cbn [Batch.batched_iterable]. rewrite batched_next_positive by exact Hs.
  destruct it as [|x it].
  - exists []. split; [reflexivity|]. cbn [length].
    symmetry. apply Z.div_small. lia.
  - set (n := Z.to_nat size).
    destruct (IH (drop n (x :: it))) as (rest & Hrest & Hlen).
    { rewrite length_drop. cbn [length] in *. unfold n. lia. }
    rewrite Hrest. eexists. split; [reflexivity|].
    cbn [length]. rewrite Nat2Z.inj_succ, Hlen, length_drop.
    change (S (length it)) with (length (x :: it)).
    generalize (length (x :: it)) (eq_refl : length (x :: it) = S (length it)).
    intros len Hlen'.
    assert (Hn : Z.of_nat n = size) by (unfold n; lia).
    destruct (decide (len <= n)%nat) as [Hle|Hgt].
    + replace (len - n)%nat with 0%nat by lia.
      rewrite (Z.div_small (Z.of_nat 0 + size - 1) size) by lia.
      apply (Z.div_unique _ _ _ (Z.of_nat len - 1)%Z); lia.
    + replace (Z.of_nat len + size - 1)%Z
        with ((Z.of_nat (len - n) + size - 1) + 1 * size)%Z by lia.
      rewrite Z.div_add by lia. lia.
Qed.

(** X12.  For a size from 1 to [sys.maxsize], [batched_iterable] yields
    [ceil(len(iterable) / size)] batches. *)
Theorem X12_batch_count :
  forall (A : Type) maxsize (it : list A) size fuel,
    (0 < size <= maxsize)%Z -> (length it < fuel)%nat ->
    exists batches,
      Batch.batched_iterable maxsize fuel it size = Ret batches
      /\ Z.of_nat (length batches)
         = ((Z.of_nat (length it) + size - 1) / size)%Z.
Proof. intros. now apply batched_iterable_count. Qed.

Lemma X12_batch_count_witness :
  exists batches,
    Batch.batched_iterable maxsize64 6 [1; 2; 3; 4; 5]%Z 2 = Ret batches
    /\ Z.of_nat (length batches) = ((Z.of_nat 5 + 2 - 1) / 2)%Z.
Proof.
  apply (X12_batch_count Z maxsize64 [1; 2; 3; 4; 5]%Z 2%Z 6%nat);
    [unfold maxsize64; lia|cbn; lia].
Defined.

(** ** Pre-order, and a function mapped over the atoms *)

Lemma for_each_log {W A B} (f : A -> M (list W) B) (g : A -> list W) its l :
  (forall o, o ∈ l ->
     forall w, exists r, f o (State its w) = Ret (r, State its (w ++ g o)%list)) ->
  forall w,
    exists rs,
      for_each f l (State its w)
      = Ret (rs, State its (w ++ flat_map g l)%list).
Proof.
  induction l as [|o l IH]; intros Hf w.
  - exists []. cbn. now rewrite app_nil_r.
  - destruct (Hf o ltac:(left) w) as [r Hr].
    destruct (IH (fun o' Ho' => Hf o' ltac:(right; exact Ho'))
                 (w ++ g o)%list) as [rs Hrs].
    exists (r :: rs). cbn [for_each flat_map]. unfold bind.
    rewrite Hr, Hrs. now rewrite <- app_assoc.
Qed.

Lemma is_tree_elem l o : forallb is_tree l = true -> o ∈ l -> is_tree o = true.
Proof.
  intros Hl Ho. rewrite forallb_forall in Hl. apply Hl.
  now apply list_elem_of_In.
Qed.

Lemma is_tree_item (kvs : list (value * value)) kv :
  forallb (fun kv => is_tree (fst kv) && is_tree (snd kv)) kvs = true ->
  kv ∈ kvs -> is_tree (fst kv) = true /\ is_tree (snd kv) = true.
Proof.
  intros Hl Ho. rewrite forallb_forall in Hl.
  apply andb_true_iff, Hl. now apply list_elem_of_In.
Qed.

Section Preorder.
Variable dataclass_new :
  dataclass_type -> list (string * value) -> res (list (string * value)).
Variable model_new :
  model_type -> list (string * value) ->
  res (list string * list (string * value) * list (string * value)).

Abbreviation visit_log :=
  (visit_collection dataclass_new model_new (recording_visitor id)).

Lemma visit_expression_recording ctx x its w :
  visit_expression (recording_visitor id) ctx x (State its w)
  = Ret ((x, ctx), State its (w ++ [x])%list).
Proof. destruct ctx; reflexivity. Qed.

Lemma visit_preorder fuel :
  forall x rd d ctx its w,
    is_tree x = true -> (height x < fuel)%nat -> (d < 0)%Z ->
    exists res,
      visit_log fuel x rd d ctx (State its w)
      = Ret ((res, ctx), State its (w ++ preorder x)%list).
Proof.
  induction fuel as [|fuel IH]; intros x rd d ctx its w Hx Hh Hd; [lia|].
  rewrite (visit_collection_step dataclass_new model_new _ fuel x rd d ctx
             _ _ _ _ ltac:(lia) (visit_expression_recording ctx x its w)).
  replace (if rd || is_revisit x then x else x) with x
    by (destruct (rd || is_revisit x); reflexivity).
  set (nested := fun o : value =>
         let* r := visit_log fuel o rd (d - 1)%Z ctx in ret (fst r)).
  assert (Hn : forall o, is_tree o = true -> (height o < fuel)%nat ->
                 forall w', exists r,
                   nested o (State its w')
                   = Ret (r, State its (w' ++ preorder o)%list)).
  { intros o Ho Hho w'. unfold nested, bind.
    destruct (IH o rd (d - 1)%Z ctx its w' Ho Hho ltac:(lia)) as [r Hr].
    rewrite Hr. eexists. reflexivity. }
  assert (Hl : forall l, forallb is_tree l = true ->
                 (max_list (map height l) < fuel)%nat ->
                 forall w', exists rs,
                   for_each nested l (State its w')
                   = Ret (rs, State its (w' ++ flat_map preorder l)%list)).
  { intros l Hfl Hhl. apply for_each_log. intros o Ho.
    apply Hn; [eapply is_tree_elem; eauto|].
    pose proof (height_elem l o Ho). lia. }
  destruct x; cbn [is_tree height] in Hx, Hh; try discriminate;
    cbn [visit_items preorder].
  - eexists. reflexivity.
  - eexists. reflexivity.
  - eexists. reflexivity.
  - eexists. reflexivity.
  - eexists. reflexivity.
  - destruct (Hl items Hx ltac:(lia) (w ++ [VList items])%list) as [rs Hrs].
    unfold bind. rewrite Hrs. rewrite <- app_assoc. eexists. reflexivity.
  - destruct (Hl items Hx ltac:(lia) (w ++ [VTuple items])%list) as [rs Hrs].
    unfold bind. rewrite Hrs. rewrite <- app_assoc. eexists. reflexivity.
  - destruct (Hl items Hx ltac:(lia) (w ++ [VSet items])%list) as [rs Hrs].
    unfold bind. rewrite Hrs. rewrite <- app_assoc. eexists. reflexivity.
  - destruct (for_each_log
                (fun kv => let* k := nested (fst kv) in
                           let* v := nested (snd kv) in ret (k, v))
                (fun kv => (preorder (fst kv) ++ preorder (snd kv))%list)
                its items) with (w := (w ++ [VDict kind items])%list)
      as [rs Hrs].
    { intros kv Hin w'.
      destruct (is_tree_item items kv Hx Hin) as [Hk Hv].
      pose proof (height_item items kv Hin) as Hle.
      destruct (Hn (fst kv) Hk ltac:(lia) w') as [k Hk'].
      destruct (Hn (snd kv) Hv ltac:(lia) (w' ++ preorder (fst kv))%list)
        as [v Hv'].
      exists (k, v). unfold bind. rewrite Hk', Hv'. now rewrite <- app_assoc. }
    unfold bind at 1. rewrite Hrs. rewrite <- app_assoc.
    eexists. reflexivity.
  - destruct (Hn x Hx ltac:(lia) (w ++ [VRevisit x])%list) as [r Hr].
    rewrite Hr. rewrite <- app_assoc. eexists. reflexivity.
  - destruct (Hn x Hx ltac:(lia) (w ++ [VAnnot kind x])%list) as [r Hr].
    unfold bind. rewrite Hr. rewrite <- app_assoc. eexists. reflexivity.
Qed.
End Preorder.

(** X13.  [visit_fn] is called once on every expression, in pre-order: for
    a value built from atoms, mocks, lists, tuples, sets, dicts and
    annotations, with an unlimited depth budget and in both modes, the
    visitor that records its argument records the collection before its
    elements, the key of a dict item before its value, an annotation before
    what it wraps, and nothing below a mock. *)
Theorem X13_visit_preorder :
  forall dn mn x fuel rd d ctx its w,
    is_tree x = true -> (height x < fuel)%nat -> (d < 0)%Z ->
    exists res,
      visit_collection dn mn (recording_visitor id) fuel x rd d ctx
        (State its w)
      = Ret ((res, ctx), State its (w ++ preorder x)%list).
Proof. intros. now apply visit_preorder. Qed.

Lemma X13_visit_preorder_witness :
  exists res,
    visit_collection dataclass_init pydantic_init (recording_visitor id) 3
      (VDict KDict [(VStr "k", VList [VInt 1; VMock 0])]) false (-1) None
      (State ∅ [])
    = Ret ((res, None),
           State ∅ ([] ++ preorder
                            (VDict KDict [(VStr "k", VList [VInt 1; VMock 0])]))%list).
Proof.
  apply (X13_visit_preorder dataclass_init pydantic_init
           (VDict KDict [(VStr "k", VList [VInt 1; VMock 0])]) 3 false (-1)
           None ∅ []).
  - reflexivity.
  - vm_compute. lia.
  - lia.
Defined.

Section MapLaw.
Context {W : Type}.
Variable dataclass_new :
  dataclass_type -> list (string * value) -> res (list (string * value)).
Variable model_new :
  model_type -> list (string * value) ->
  res (list string * list (string * value) * list (string * value)).
Variable f : value -> value.
Hypothesis Hf : leaf_transformer f.

Abbreviation visit_f :=
  (visit_collection dataclass_new model_new (pure_visitor (W := W) f)).

Lemma visit_expression_pure ctx x (s : state W) :
  visit_expression (pure_visitor f) ctx x s = Ret ((f x, ctx), s).
Proof. destruct s, ctx; reflexivity. Qed.

Lemma leaf_transformer_fix x : is_atom x = false -> f x = x.
Proof. intros Hx. specialize (Hf x). now rewrite Hx in Hf. Qed.

Lemma visit_vmap fuel :
  forall x d ctx (s : state W),
    is_tree x = true -> (height x < fuel)%nat -> (d < 0)%Z ->
    visit_f fuel x true d ctx s = Ret ((vmap f x, ctx), s).
Proof.
  induction fuel as [|fuel IH]; intros x d ctx s Hx Hh Hd; [lia|].
  destruct (is_atom x) eqn:Hatom.
  { pose proof (Hf x) as Hfx. rewrite Hatom in Hfx.
    rewrite visit_atom_pure by assumption.
    destruct x; try discriminate; reflexivity. }
  rewrite (visit_collection_step dataclass_new model_new _ fuel x true d ctx
             s _ _ _ ltac:(lia) (visit_expression_pure ctx x s)).
  cbn [orb]. rewrite (leaf_transformer_fix x Hatom).
  set (nested := fun o : value =>
         let* r := visit_f fuel o true (d - 1)%Z ctx in ret (fst r)).
  assert (Hn : forall o, is_tree o = true -> (height o < fuel)%nat ->
                 forall s', nested o s' = Ret (vmap f o, s')).
  { intros o Ho Hho s'. unfold nested, bind.
    now rewrite IH by (assumption || lia). }
  assert (Hl : forall l, forallb is_tree l = true ->
                 (max_list (map height l) < fuel)%nat ->
                 forall s', for_each nested l s' = Ret (map (vmap f) l, s')).
  { intros l Hfl Hhl. apply for_each_map. intros o Ho.
    apply Hn; [eapply is_tree_elem; eauto|].
    pose proof (height_elem l o Ho). lia. }
  destruct x; cbn [is_tree height is_atom] in Hx, Hh, Hatom;
    try discriminate; cbn [visit_items vmap].
  - reflexivity.
  - unfold bind. now rewrite Hl by (assumption || lia).
  - unfold bind. now rewrite Hl by (assumption || lia).
  - unfold bind. now rewrite Hl by (assumption || lia).
  - unfold bind at 1.
    rewrite (for_each_map _ (fun kv => (vmap f (fst kv), vmap f (snd kv)))).
    + reflexivity.
    + intros kv Hin s'.
      destruct (is_tree_item items kv Hx Hin) as [Hk Hv].
      pose proof (height_item items kv Hin) as Hle.
      unfold bind. now rewrite !Hn by (assumption || lia).
  - now rewrite Hn by (assumption || lia).
  - unfold bind. now rewrite Hn by (assumption || lia).
Qed.
End MapLaw.

(** X14.  In copy mode a visitor function that changes atoms into atoms and
    returns everything else as it is is mapped over the atoms: for a value
    built from atoms, mocks, lists, tuples, sets, dicts and annotations the
    call returns the value with the function applied to every atom, dict
    keys included; a set and a dict are collected again, so elements or
    keys that the function makes equal are merged; a [revisit] is replaced
    by what it wraps; the state is left as it was. *)
Theorem X14_visit_maps_atoms :
  forall W dn mn (f : value -> value) x fuel d ctx (s : state W),
    leaf_transformer f ->
    is_tree x = true -> (height x < fuel)%nat -> (d < 0)%Z ->
    visit_collection dn mn (pure_visitor f) fuel x true d ctx s
    = Ret ((vmap f x, ctx), s).
Proof. intros. now apply visit_vmap. Qed.

Lemma add1_leaf_transformer : leaf_transformer add1.
Proof. intros v. destruct v; reflexivity. Qed.

Lemma X14_visit_maps_atoms_witness :
  visit_collection dataclass_init pydantic_init (pure_visitor add1) 3
    (VDict KDict [(VInt 1, VSet [VInt 2; VStr "a"])]) true (-1) None
    (State ∅ tt)
  = Ret ((vmap add1 (VDict KDict [(VInt 1, VSet [VInt 2; VStr "a"])]), None),
         State ∅ tt).
Proof.
  apply (X14_visit_maps_atoms unit dataclass_init pydantic_init add1
           (VDict KDict [(VInt 1, VSet [VInt 2; VStr "a"])]) 3 (-1) None
           (State ∅ tt) add1_leaf_transformer).
  - reflexivity.
  - vm_compute. lia.
  - lia.
Defined.

Section Counts.
Variable dataclass_new :
  dataclass_type -> list (string * value) -> res (list (string * value)).
Variable model_new :
  model_type -> list (string * value) ->
  res (list string * list (string * value) * list (string * value)).

Abbreviation visit_count :=
  (visit_collection dataclass_new model_new counting_visitor).

Lemma visit_counts fuel :
  forall x rd d (c : context) n its w,
    is_tree x = true -> (height x < fuel)%nat -> (d < 0)%Z ->
    c !! "count" = Some (VInt n) ->
    exists res,
      visit_count fuel x rd d (Some c) (State its w)
      = Ret ((res, Some (<["count" := VInt (n + 1)]> c)),
             State its (w ++ counts n x)%list).
Proof.
  induction fuel as [|fuel IH]; intros x rd d c n its w Hx Hh Hd Hc; [lia|].
  assert (Hv : visit_expression counting_visitor (Some c) x (State its w)
               = Ret ((x, Some (<["count" := VInt (n + 1)]> c)),
                      State its (w ++ [n])%list)).
  { cbn. now rewrite Hc. }
  rewrite (visit_collection_step dataclass_new model_new _ fuel x rd d
             (Some c) _ _ _ _ ltac:(lia) Hv).
  replace (if rd || is_revisit x then x else x) with x
    by (destruct (rd || is_revisit x); reflexivity).
  set (c' := <["count" := VInt (n + 1)]> c).
  assert (Hc' : c' !! "count" = Some (VInt (n + 1))) by apply lookup_insert_eq.
  set (nested := fun o : value =>
         let* r := visit_count fuel o rd (d - 1)%Z (Some c') in ret (fst r)).
  assert (Hn : forall o, is_tree o = true -> (height o < fuel)%nat ->
                 forall w', exists r,
                   nested o (State its w')
                   = Ret (r, State its (w' ++ counts (n + 1) o)%list)).
  { intros o Ho Hho w'. unfold nested, bind.
    destruct (IH o rd (d - 1)%Z c' (n + 1)%Z its w' Ho Hho ltac:(lia) Hc')
      as [r Hr].
    rewrite Hr. eexists. reflexivity. }
  assert (Hl : forall l, forallb is_tree l = true ->
                 (max_list (map height l) < fuel)%nat ->
                 forall w', exists rs,
                   for_each nested l (State its w')
                   = Ret (rs,
                          State its (w' ++ flat_map (counts (n + 1)) l)%list)).
  { intros l Hfl Hhl. apply for_each_log. intros o Ho.
    apply Hn; [eapply is_tree_elem; eauto|].
    pose proof (height_elem l o Ho). lia. }
  destruct x; cbn [is_tree height] in Hx, Hh; try discriminate;
    cbn [visit_items counts].
  - eexists. reflexivity.
  - eexists. reflexivity.
  - eexists. reflexivity.
  - eexists. reflexivity.
  - eexists. reflexivity.
  - destruct (Hl items Hx ltac:(lia) (w ++ [n])%list) as [rs Hrs].
    unfold bind. rewrite Hrs. rewrite <- app_assoc. eexists. reflexivity.
  - destruct (Hl items Hx ltac:(lia) (w ++ [n])%list) as [rs Hrs].
    unfold bind. rewrite Hrs. rewrite <- app_assoc. eexists. reflexivity.
  - destruct (Hl items Hx ltac:(lia) (w ++ [n])%list) as [rs Hrs].
    unfold bind. rewrite Hrs. rewrite <- app_assoc. eexists. reflexivity.
  - destruct (for_each_log
                (fun kv => let* k := nested (fst kv) in
                           let* v := nested (snd kv) in ret (k, v))
                (fun kv => (counts (n + 1) (fst kv)
                            ++ counts (n + 1) (snd kv))%list)
                its items) with (w := (w ++ [n])%list)
      as [rs Hrs].
    { intros kv Hin w'.
      destruct (is_tree_item items kv Hx Hin) as [Hk Hv'].
      pose proof (height_item items kv Hin) as Hle.
      destruct (Hn (fst kv) Hk ltac:(lia) w') as [k Hk'].
      destruct (Hn (snd kv) Hv' ltac:(lia)
                   (w' ++ counts (n + 1) (fst kv))%list) as [v Hv''].
      exists (k, v). unfold bind. rewrite Hk', Hv''. now rewrite <- app_assoc. }
    unfold bind at 1. rewrite Hrs. rewrite <- app_assoc.
    eexists. reflexivity.
  - destruct (Hn x Hx ltac:(lia) (w ++ [n])%list) as [r Hr].
    rewrite Hr. rewrite <- app_assoc. eexists. reflexivity.
  - destruct (Hn x Hx ltac:(lia) (w ++ [n])%list) as [r Hr].
    unfold bind. rewrite Hr. rewrite <- app_assoc. eexists. reflexivity.
Qed.
End Counts.

(** X15.  The context flows down and neither up nor sideways: when the
    visitor increments [context["count"]] on every expression, an
    expression at depth [k] of a value built from atoms, mocks, lists,
    tuples, sets, dicts and annotations observes the caller's count plus
    [k], however many expressions were visited before it, and after the
    visit the caller's dictionary holds the count plus one, the increment
    made on the root. *)
Theorem X15_context_counts_depth :
  forall dn mn x fuel rd d (c : context) n its w,
    is_tree x = true -> (height x < fuel)%nat -> (d < 0)%Z ->
    c !! "count" = Some (VInt n) ->
    exists res,
      visit_collection dn mn counting_visitor fuel x rd d (Some c)
        (State its w)
      = Ret ((res, Some (<["count" := VInt (n + 1)]> c)),
             State its (w ++ counts n x)%list).
Proof. intros. now apply visit_counts. Qed.

Lemma X15_context_counts_depth_witness :
  exists res,
    visit_collection dataclass_init pydantic_init counting_visitor 3
      (VList [VInt 7; VList [VInt 8]; VInt 9]) false (-1)
      (Some {[ "count" := VInt 0 ]}) (State ∅ [])
    = Ret ((res, Some (<["count" := VInt (0 + 1)]> {[ "count" := VInt 0 ]})),
           State ∅ ([] ++ counts 0 (VList [VInt 7; VList [VInt 8]; VInt 9]))%list).
Proof.
  apply (X15_context_counts_depth dataclass_init pydantic_init
           (VList [VInt 7; VList [VInt 8]; VInt 9]) 3 false (-1)
           {[ "count" := VInt 0 ]} 0%Z ∅ []).
  - reflexivity.
  - vm_compute. lia.
  - lia.
  - reflexivity.
Defined.

(** X16.  In observe-only mode a call that returns, on an expression that
    is no mock and no annotation and that the visitor does not answer with
    a [revisit], returns [None]; and so does any call with depth budget
    0. *)
Theorem X16_observe_returns_none :
  forall W dn mn (vf : visitor W) fuel expr d ctx s r ctx' s1 res c s',
    visit_expression vf ctx expr s = Ret ((r, ctx'), s1) ->
    visit_collection dn mn vf fuel expr false d ctx s = Ret ((res, c), s') ->
    (d = 0%Z \/
     (is_revisit r = false /\
      match expr with
      | VMock _ | VAnnot _ _ | VRevisit _ => False
      | _ => True
      end)) ->
    res = VNone.
Proof.
  intros W dn mn vf fuel expr d ctx s r ctx' s1 res c s' Hv Hret Hcase.
  destruct fuel as [|fuel]; [discriminate|].
  destruct (Z.eq_dec d 0) as [->|Hd].
  - rewrite visit_depth_zero, Hv in Hret. now injection Hret as <- _ _.
  - destruct Hcase as [?|[Hr Hexpr]]; [contradiction|].
    rewrite (visit_collection_step dn mn vf fuel expr false d ctx s _ _ _
               Hd Hv) in Hret.
    cbn [orb] in Hret. rewrite Hr in Hret.
    destruct expr; try contradiction; cbn [visit_items] in Hret;
      unfold bind, ret, lift in Hret;
      repeat match goal with
        | H : match ?m with _ => _ end = Ret _ |- _ =>
            destruct m as [[? ?]| |] eqn:?; try discriminate
        end;
      repeat match goal with
        | H : Ret _ = Ret _ |- _ => injection H as ? ?; subst
        end;
      reflexivity.
Qed.

Lemma X16_observe_returns_none_witness :
  fst (fst (VNone, @None context, State (W := unit) ∅ tt)) = VNone.
Proof.
  apply (X16_observe_returns_none unit dataclass_init pydantic_init
           (pure_visitor (fun x => x)) 3 (VList [VInt 1]) (-1) None
           (State ∅ tt) (VList [VInt 1]) None (State ∅ tt) VNone None
           (State ∅ tt)).
  - reflexivity.
  - reflexivity.
  - right. split; [reflexivity|exact I].
Defined.

(** ** Building a nested dictionary from key tuples *)

Section FlatInsert.
Context {K A : Type} `{EqDecision K} `{EqDecision A} `{!LeafInsert K A}.
Implicit Types (v x : nested K A) (d : list (K * nested K A))
         (p q : list K) (typ kind : dict_kind).

Lemma unrelated_cons k p q : unrelated (k :: p) (k :: q) -> unrelated p q.
Proof.
  intros [H1 H2]. split; intros Hp; [apply H1|apply H2]; now apply prefix_cons.
Qed.

Lemma unrelated_sym p q : unrelated p q -> unrelated q p.
Proof. intros [H1 H2]. now split. Qed.

Lemma prefix_free_snoc (l : list (list K)) p :
  prefix_free (l ++ [p])
  <-> prefix_free l /\ Forall (fun q => unrelated q p) l.
Proof.
  induction l as [|q l IH]; cbn [app prefix_free].
  - split; [intros _; split; [exact I|constructor]|intros _; split; [constructor|exact I]].
  - rewrite IH, Forall_app, Forall_singleton, Forall_cons. tauto.
Qed.

Lemma get_path_cons kind d k q :
  get_path (Dict kind d) (k :: q)
  = match dict_get k d with
    | Some v => get_path v q
    | None => None
    end.
Proof. reflexivity. Qed.

Lemma get_path_app v p q :
  get_path v (p ++ q)
  = match get_path v p with
    | Some x => get_path x q
    | None => None
    end.
Proof.
  revert v. induction p as [|k p IH]; intros v; [reflexivity|].
  cbn [app get_path]. destruct v as [a|kind d]; [reflexivity|].
  destruct (dict_get k d); [apply IH|reflexivity].
Qed.

Lemma dict_set_nonempty {V} (k : K) (v : V) (l : list (K * V)) :
  dict_set k v l <> [].
Proof.
  destruct l as [|[k' v'] l]; cbn; [|destruct (decide (k' = k))]; discriminate.
Qed.

Lemma dict_set_NoDup {V} (k : K) (v : V) (l : list (K * V)) :
  NoDup (map fst l) -> NoDup (map fst (dict_set k v l)).
Proof.
  induction l as [|[k' v'] l IH]; cbn; intros Hnd.
  - apply NoDup_singleton.
  - apply NoDup_cons in Hnd as [Hk Hnd].
    destruct (decide (k' = k)) as [->|Hne]; cbn; apply NoDup_cons.
    + now split.
    + split; [|auto]. rewrite dict_set_keys_elem. intros [->|?]; contradiction.
Qed.

Lemma dict_set_Forall {V} (P : K * V -> Prop) (k : K) (v : V)
    (l : list (K * V)) :
  P (k, v) -> Forall P l -> Forall P (dict_set k v l).
Proof.
  intros Hv. induction 1 as [|[k' v'] l Hx Hl IH]; cbn.
  - now constructor.
  - destruct (decide (k' = k)) as [->|Hne]; constructor; auto.
Qed.

Lemma dict_set_wf kind k x d :
  wf (Dict kind d) -> wf x -> wf (Dict kind (dict_set k x d)).
Proof.
  rewrite !wf_Dict. intros [Hnd Hd] Hx. split.
  - now apply dict_set_NoDup.
  - now apply dict_set_Forall.
Qed.

Lemma dict_get_wf kind k x d :
  wf (Dict kind d) -> dict_get k d = Some x -> wf x.
Proof.
  rewrite wf_Dict. intros [_ Hd] Hg. apply dict_get_Some_elem in Hg.
  rewrite Forall_forall in Hd. apply (Hd _ Hg).
Qed.

(** One turn of the outer loop, when no proper prefix of the key tuple
    leads to a value that is no dict: the turn returns; the value can be
    read back at the key tuple; nothing changes at an unrelated key tuple;
    every proper prefix of the key tuple leads to a non-empty dict; and
    the keys of every dict stay distinct. *)
Lemma insert_path_spec typ p x :
  p <> [] ->
  forall d kind,
    (forall q a, q `prefix_of` p -> q <> p ->
                 get_path (Dict kind d) q <> Some (Leaf a)) ->
    exists d',
      insert_path typ p x d = Ok d'
      /\ get_path (Dict kind d') p = Some x
      /\ (forall q, unrelated p q ->
            get_path (Dict kind d') q = get_path (Dict kind d) q)
      /\ (forall q, q `prefix_of` p -> q <> p ->
            exists kind' sub,
              sub <> [] /\ get_path (Dict kind d') q = Some (Dict kind' sub))
      /\ (wf x -> wf (Dict kind d) -> wf (Dict kind d')).
Proof.
  induction p as [|k p IH]; intros Hp d kind Hclear; [contradiction|].
  destruct p as [|k0 rest].
  { exists (dict_set k x d). split; [reflexivity|]. split; [|split; [|split]].
    - now rewrite get_path_cons, dict_get_set_eq.
    - intros [|k' q] Hun.
      + exfalso. apply (proj2 Hun), prefix_nil.
      + rewrite !get_path_cons. rewrite dict_get_set_ne; [reflexivity|].
        intros ->. apply (proj1 Hun). now exists q.
    - intros [|k' q] Hpre Hne.
      + exists kind, (dict_set k x d). split; [apply dict_set_nonempty|].
        reflexivity.
      + exfalso. apply Hne.
        pose proof (prefix_cons_inv_1 _ _ _ _ Hpre) as ->.
        apply prefix_cons_inv_2, prefix_nil_inv in Hpre. now subst q.
    - intros Hx Hwf. now apply dict_set_wf. }
  rewrite insert_path_cons.
  assert (Hstep : forall kind0 sub,
            (forall q a, q `prefix_of` k0 :: rest -> q <> k0 :: rest ->
                         get_path (Dict kind0 sub) q <> Some (Leaf a)) ->
            (forall q, get_path (Dict kind0 sub) q
                       = get_path (Dict kind d) (k :: q)
                       \/ (sub = [] /\ dict_get k d = None)) ->
            (wf (Dict kind d) -> wf (Dict kind0 sub)) ->
            exists sub',
              insert_path typ (k0 :: rest) x sub = Ok sub'
              /\ get_path (Dict kind (dict_set k (Dict kind0 sub') d))
                   (k :: k0 :: rest) = Some x
              /\ (forall q, unrelated (k :: k0 :: rest) q ->
                    get_path (Dict kind (dict_set k (Dict kind0 sub') d)) q
                    = get_path (Dict kind d) q)
              /\ (forall q, q `prefix_of` k :: k0 :: rest ->
                    q <> k :: k0 :: rest ->
                    exists kind' sub0,
                      sub0 <> []
                      /\ get_path (Dict kind (dict_set k (Dict kind0 sub') d)) q
                         = Some (Dict kind' sub0))
              /\ (wf x -> wf (Dict kind d) ->
                  wf (Dict kind (dict_set k (Dict kind0 sub') d)))).
  { intros kind0 sub Hc Hold Hwfsub.
    destruct (IH ltac:(discriminate) sub kind0 Hc)
      as (sub' & Hins & Hget & Hne & Hpre & Hwf).
    exists sub'. split; [exact Hins|]. split; [|split; [|split]].
    - now rewrite get_path_cons, dict_get_set_eq.
    - intros [|k' q] Hun.
      + exfalso. apply (proj2 Hun), prefix_nil.
      + rewrite (get_path_cons kind (dict_set _ _ _)).
        destruct (decide (k = k')) as [<-|Hk].
        * rewrite dict_get_set_eq. apply unrelated_cons in Hun.
          rewrite (Hne q Hun).
          destruct (Hold q) as [Heq|[-> Hnone]]; [exact Heq|].
          rewrite get_path_cons, Hnone.
          destruct q as [|k1 q]; [|reflexivity].
          exfalso. apply (proj2 Hun), prefix_nil.
        * rewrite dict_get_set_ne by exact Hk. reflexivity.
    - intros [|k' q] Hq Hqne.
      + exists kind, (dict_set k (Dict kind0 sub') d).
        split; [apply dict_set_nonempty|reflexivity].
      + pose proof (prefix_cons_inv_1 _ _ _ _ Hq) as ->.
        apply prefix_cons_inv_2 in Hq.
        rewrite get_path_cons, dict_get_set_eq.
        apply Hpre; [exact Hq|congruence].
    - intros Hx Hwfd. apply dict_set_wf; [exact Hwfd|]. auto. }
  destruct (dict_get k d) as [[a|kind0 sub]|] eqn:Hg.
  - exfalso. apply (Hclear [k] a).
    + now exists (k0 :: rest).
    + discriminate.
    + now rewrite get_path_cons, Hg.
  - destruct (Hstep kind0 sub) as (sub' & -> & Hrest).
    + intros q a Hpre Hne. specialize (Hclear (k :: q) a).
      rewrite get_path_cons, Hg in Hclear. apply Hclear.
      * now apply prefix_cons.
      * congruence.
    + intros q. left. now rewrite get_path_cons, Hg.
    + intros Hwf. eapply dict_get_wf; eauto.
    + eexists. split; [reflexivity|exact Hrest].
  - destruct (Hstep typ []) as (sub' & -> & Hrest).
    + intros [|k1 q] a _ _; discriminate.
    + intros q. right. now split.
    + intros _. apply wf_Dict. split; constructor.
    + eexists. split; [reflexivity|exact Hrest].
Qed.

(** A key tuple that extends the path to a value that is no dict: the
    rest of the turn is what the methods of that value do. *)
Lemma insert_path_below_leaf typ p k r x a :
  p <> [] ->
  forall d kind,
    get_path (Dict kind d) p = Some (Leaf a) ->
    match leaf_insert typ a (k :: r) x with
    | Err e => insert_path typ (p ++ k :: r) x d = Err e
    | Ok a' =>
        exists d',
          insert_path typ (p ++ k :: r) x d = Ok d'
          /\ get_path (Dict kind d') p = Some (Leaf a')
    end.
Proof.
  induction p as [|k1 p IH]; intros Hp d kind Hget; [contradiction|].
  rewrite get_path_cons in Hget.
  destruct (dict_get k1 d) as [v|] eqn:Hg; [|discriminate].
  destruct p as [|k2 p].
  - cbn in Hget. injection Hget as ->. cbn [app].
    rewrite insert_path_cons, Hg.
    destruct (leaf_insert typ a (k :: r) x) as [a'|e]; [|reflexivity].
    eexists. split; [reflexivity|].
    now rewrite get_path_cons, dict_get_set_eq.
  - destruct v as [b|kind0 sub]; [discriminate|].
    change ((k1 :: k2 :: p) ++ k :: r)%list
      with (k1 :: k2 :: (p ++ k :: r))%list.
    rewrite insert_path_cons, Hg.
    change (k2 :: (p ++ k :: r))%list with ((k2 :: p) ++ k :: r)%list.
    specialize (IH ltac:(discriminate) sub kind0 Hget).
    destruct (leaf_insert typ a (k :: r) x) as [a'|e].
    + destruct IH as (sub' & -> & Hsub').
      eexists. split; [reflexivity|].
      now rewrite get_path_cons, dict_get_set_eq.
    + now rewrite IH.
Qed.

(** The result of the outer loop on key tuples none of which is empty or
    a prefix of another. *)
Lemma insert_all_spec typ (l : list (list K * nested K A)) :
  Forall (fun pv => fst pv <> []) l ->
  prefix_free (map fst l) ->
  exists d,
    insert_all typ l [] = Ok d
    /\ (forall p x, (p, x) ∈ l -> get_path (Dict typ d) p = Some x)
    /\ (forall q a, get_path (Dict typ d) q = Some (Leaf a) ->
                    exists p x, (p, x) ∈ l /\ p `prefix_of` q)
    /\ (Forall (fun pv => terminal (snd pv)) l ->
        wf (Dict typ d)
        /\ forall q x, q <> [] -> terminal x ->
                       get_path (Dict typ d) q = Some x -> (q, x) ∈ l).
Proof.
  induction l as [|[p x] l IH] using rev_ind; intros Hne Hfree.
  { exists []. split; [reflexivity|]. split; [intros p x Hin; inversion Hin|].
    split.
    - intros [|k q] a; discriminate.
    - intros _. split; [apply wf_Dict; split; constructor|].
      intros [|k q] x Hq _ Hget; [contradiction|discriminate]. }
  rewrite Forall_app, Forall_singleton in Hne. destruct Hne as [Hne Hp].
  cbn [fst] in Hp.
  rewrite map_app in Hfree. cbn [map fst] in Hfree.
  apply prefix_free_snoc in Hfree as [Hfree Hun].
  destruct (IH Hne Hfree) as (d & Hd & Hlook & Hleaf & Hterm).
  assert (Hunl : forall p' x', (p', x') ∈ l -> unrelated p' p).
  { intros p' x' Hin. rewrite Forall_forall in Hun. apply Hun.
    apply list_elem_of_fmap. now exists (p', x'). }
  destruct (insert_path_spec typ p x Hp d typ)
    as (d' & Hd' & Hget_eq & Hget_ne & Hget_pre & Hwf').
  { intros q a Hpre Hqp Hget.
    destruct (Hleaf q a Hget) as (p' & x' & Hin & Hpre').
    apply (proj1 (Hunl p' x' Hin)). now transitivity q. }
  exists d'. rewrite insert_all_app, Hd. cbn [insert_all]. rewrite Hd'.
  split; [reflexivity|]. split; [|split].
  - intros p' x' Hin. apply elem_of_app in Hin as [Hin|Hin].
    + rewrite Hget_ne.
      * now apply Hlook.
      * apply unrelated_sym. now apply (Hunl p' x').
    + apply list_elem_of_singleton in Hin. injection Hin as -> ->.
      exact Hget_eq.
  - intros q a Hget.
    destruct (decide (p `prefix_of` q)) as [Hpq|Hpq].
    { exists p, x. split; [|exact Hpq]. apply elem_of_app. right. left. }
    destruct (decide (q `prefix_of` p)) as [Hqp|Hqp].
    { exfalso.
      destruct (Hget_pre q Hqp) as (kind' & sub & _ & Hsub).
      - intros ->. now apply Hpq.
      - congruence. }
    rewrite Hget_ne in Hget by now split.
    destruct (Hleaf q a Hget) as (p' & x' & Hin & Hpre').
    exists p', x'. split; [|exact Hpre']. apply elem_of_app. now left.
  - intros Hall. rewrite Forall_app, Forall_singleton in Hall.
    destruct Hall as [Hall Hx]. cbn [snd] in Hx.
    destruct (Hterm Hall) as [Hwf Hconv]. split.
    { apply Hwf'; [|exact Hwf].
      destruct x as [a|kind0 [|kv sub]]; [exact I| |contradiction].
      apply wf_Dict; split; constructor. }
    intros q y Hq Hy Hget.
    destruct (decide (p `prefix_of` q)) as [[r ->]|Hpq].
    { rewrite get_path_app, Hget_eq in Hget.
      destruct r as [|k r].
      - cbn in Hget. injection Hget as <-. rewrite app_nil_r.
        apply elem_of_app. right. left.
      - now rewrite get_path_terminal in Hget. }
    destruct (decide (q `prefix_of` p)) as [Hqp|Hqp].
    { exfalso.
      destruct (Hget_pre q Hqp) as (kind' & sub & Hsub & Hgsub).
      - intros ->. now apply Hpq.
      - rewrite Hgsub in Hget. injection Hget as <-.
        destruct sub; [contradiction|exact Hy]. }
    rewrite Hget_ne in Hget by now split.
    apply elem_of_app. left. now apply Hconv.
Qed.
End FlatInsert.

(** X17.  When no key tuple of a flat dict is empty or a prefix of another
    one, [flatdict_to_dict] returns, and every value of the flat dict is
    found in the result by following the keys of its tuple. *)
Theorem X17_flatdict_lookup :
  forall (K A : Type) (HK : EqDecision K) (HA : EqDecision A)
         (HL : LeafInsert K A) typ (items : list (list K * nested K A)),
    Forall (fun pv => fst pv <> []) items ->
    prefix_free (map fst items) ->
    exists d,
      flatdict_to_dict (Flat typ items) = Ok (Dict typ d)
      /\ forall p x, (p, x) ∈ items -> get_path (Dict typ d) p = Some x.
Proof.
  intros K A HK HA HL typ items Hne Hfree.
  destruct (insert_all_spec typ items Hne Hfree) as (d & Hd & Hlook & _).
  exists d. unfold flatdict_to_dict. cbn [flat_kind flat_items].
  rewrite Hd. auto.
Qed.

Lemma sample_paths_nonempty :
  Forall (fun pv : list string * nested string Z => fst pv <> [])
    [(["a"; "b"], Leaf 1%Z); (["c"], Leaf 2%Z); (["a"; "d"], Leaf 3%Z)].
Proof. repeat first [apply Forall_nil_2 | apply Forall_cons_2]; discriminate. Qed.

Lemma sample_paths_prefix_free :
  prefix_free
    (map fst [(["a"; "b"], Leaf 1%Z : nested string Z); (["c"], Leaf 2%Z);
              (["a"; "d"], Leaf 3%Z)]).
Proof.
  cbn [map fst prefix_free]. unfold unrelated.
  repeat first [split | apply Forall_nil_2 | apply Forall_cons_2 | exact I];
    apply (bool_decide_unpack _); vm_compute; exact I.
Qed.

Lemma X17_flatdict_lookup_witness :
  exists d,
    flatdict_to_dict
      (Flat KDict [(["a"; "b"], Leaf 1%Z); (["c"], Leaf 2%Z);
                   (["a"; "d"], Leaf 3%Z)])
    = Ok (Dict KDict d)
    /\ forall p x,
         (p, x) ∈ [(["a"; "b"], Leaf 1%Z : nested string Z);
                   (["c"], Leaf 2%Z); (["a"; "d"], Leaf 3%Z)] ->
         get_path (Dict KDict d) p = Some x.
Proof.
  apply (X17_flatdict_lookup string Z _ _ _ KDict
           [(["a"; "b"], Leaf 1%Z); (["c"], Leaf 2%Z); (["a"; "d"], Leaf 3%Z)]
           sample_paths_nonempty sample_paths_prefix_free).
Defined.

(** X18.  The round trip from the flat side: when no key tuple of a flat
    dict is empty or a prefix of another one and no value is a non-empty
    dict, [flatdict_to_dict] returns a dict that [dict_to_flatdict] turns
    into a flat dict of the same type with the same items, each key once;
    their order can differ. *)
Theorem X18_unflatten_roundtrip :
  forall (K A : Type) (HK : EqDecision K) (HA : EqDecision A)
         (HL : LeafInsert K A) typ (items : list (list K * nested K A)),
    Forall (fun pv => fst pv <> []) items ->
    prefix_free (map fst items) ->
    Forall (fun pv => terminal (snd pv)) items ->
    exists d,
      flatdict_to_dict (Flat typ items) = Ok (Dict typ d)
      /\ flat_kind (dict_to_flatdict typ d) = typ
      /\ NoDup (map fst (flat_items (dict_to_flatdict typ d)))
      /\ forall p x,
           (p, x) ∈ flat_items (dict_to_flatdict typ d) <-> (p, x) ∈ items.
Proof.
  intros K A HK HA HL typ items Hne Hfree Hterm.
  destruct (insert_all_spec typ items Hne Hfree)
    as (d & Hd & Hlook & _ & Hconv).
  destruct (Hconv Hterm) as [Hwf Hback].
  exists d. unfold flatdict_to_dict, dict_to_flatdict.
  cbn [flat_kind flat_items]. rewrite Hd.
  rewrite dict_of_items_nodup by now apply collect_items_NoDup.
  split; [reflexivity|]. split; [reflexivity|].
  split; [now apply collect_items_NoDup|].
  intros p x. rewrite (elem_of_collect_items _ Hwf). split.
  - intros (Hp & Hx & Hget). now apply Hback.
  - intros Hin. split; [|split].
    + rewrite Forall_forall in Hne. apply (Hne _ Hin).
    + rewrite Forall_forall in Hterm. apply (Hterm _ Hin).
    + now apply Hlook.
Qed.

Lemma sample_paths_terminal :
  Forall (fun pv : list string * nested string Z => terminal (snd pv))
    [(["a"; "b"], Leaf 1%Z); (["c"], Leaf 2%Z); (["a"; "d"], Leaf 3%Z)].
Proof. repeat first [apply Forall_nil_2 | apply Forall_cons_2]; exact I. Qed.

Lemma X18_unflatten_roundtrip_witness :
  exists d,
    flatdict_to_dict
      (Flat KDict [(["a"; "b"], Leaf 1%Z); (["c"], Leaf 2%Z);
                   (["a"; "d"], Leaf 3%Z)])
    = Ok (Dict KDict d)
    /\ flat_kind (dict_to_flatdict KDict d) = KDict
    /\ NoDup (map fst (flat_items (dict_to_flatdict KDict d)))
    /\ forall p x,
         (p, x) ∈ flat_items (dict_to_flatdict KDict d)
         <-> (p, x) ∈ [(["a"; "b"], Leaf 1%Z : nested string Z);
                       (["c"], Leaf 2%Z); (["a"; "d"], Leaf 3%Z)].
Proof.
  apply (X18_unflatten_roundtrip string Z _ _ _ KDict
           [(["a"; "b"], Leaf 1%Z); (["c"], Leaf 2%Z); (["a"; "d"], Leaf 3%Z)]
           sample_paths_nonempty sample_paths_prefix_free
           sample_paths_terminal).
Defined.

(** X19.  When a key tuple extends a path of the dict built so far to a
    value that is no dict, [flatdict_to_dict] hands the rest of the tuple
    to the methods of that value (the [setdefault] of line 121, the item
    assignment of line 123) and catches nothing: an exception they raise
    is raised by [flatdict_to_dict] at that item, whatever follows it; and
    when they return, the turn of the loop returns with the value, as it
    is afterwards, still at its path. *)
Theorem X19_flatdict_below_leaf :
  forall (K A : Type) (HK : EqDecision K) (HL : LeafInsert K A) typ
         (items items' : list (list K * nested K A)) d p k r (x : nested K A)
         (a : A),
    insert_all typ items [] = Ok d ->
    p <> [] ->
    get_path (Dict typ d) p = Some (Leaf a) ->
    (forall e,
       leaf_insert typ a (k :: r) x = Err e ->
       flatdict_to_dict
         (Flat typ (items ++ ((p ++ k :: r)%list, x) :: items'))
       = Err e)
    /\ (forall a',
          leaf_insert typ a (k :: r) x = Ok a' ->
          exists d',
            insert_all typ (items ++ [((p ++ k :: r)%list, x)]) [] = Ok d'
            /\ get_path (Dict typ d') p = Some (Leaf a')).
Proof.
  intros K A HK HL typ items items' d p k r x a Hd Hp Hget.
  pose proof (insert_path_below_leaf typ p k r x a Hp d typ Hget) as Hins.
  split.
  - intros e He. rewrite He in Hins.
    unfold flatdict_to_dict. cbn [flat_kind flat_items].
    rewrite insert_all_app, Hd. cbn [insert_all]. now rewrite Hins.
  - intros a' Ha'. rewrite Ha' in Hins. destruct Hins as (d' & Hd' & Hget').
    exists d'. rewrite insert_all_app, Hd. cbn [insert_all].
    now rewrite Hd'.
Qed.

Lemma X19_flatdict_below_leaf_witness :
  flatdict_to_dict
    (Flat KDict ([(["a"], Leaf 1%Z)]
                 ++ ((["a"] ++ "b" :: ["c"])%list, Leaf 2%Z) :: []))
  = Err (Exn "AttributeError" "'int' object has no attribute 'setdefault'").
Proof.
  apply (proj1 (X19_flatdict_below_leaf string Z _ _ KDict
                  [(["a"], Leaf 1%Z)] [] [("a", Leaf 1%Z)] ["a"] "b" ["c"]
                  (Leaf 2%Z) 1%Z eq_refl ltac:(discriminate) eq_refl)).
  reflexivity.
Defined.
